(** * Tile search of gerbmerge: exhaustive search, random search and the
      coordinator of the random-search workers.

    Shallow embedding of [src/gerbmerge/src/tilesearch.py] and of
    [tile_search_random] in [src/gerbmerge/src/gerbmerge.py].
    The later parts embed [drillcluster.py], [placement.py], [aptable.py],
    [parseToolList] of [excellon.py], [buildRevDict] of [config.py] and,
    of [gerbmerge.py], [tile_jobs], [tile_search_exhaustive] and the
    numbering of the drill tools in [merge]; there drill sizes and lengths
    are exact rationals ([Q]) standing for floats, and only what does not
    depend on the rounding of float arithmetic is stated of them.

    Conventions of the embedding.
    - Lengths, areas and times are integers of a fixed small unit ([Z]);
      [float("inf")] is the extra value [Inf] of [score].
    - A Python object mutated in place becomes a value passed in and
      returned.  [Tiling.clone] stays an operation of the interface.
    - [time.time()] reads the next value of a clock [nat -> Z]; the number of
      readings taken so far is threaded through.
    - A raised exception is the [Raise] outcome of [result].
    - An int is an integer of any size; its conversion to float, which
      [100.0 * n] and [x / n] make, raises OverflowError from
      [2^1024 - 2^970] on. *)

From Stdlib Require Import ZArith List Bool Lia Permutation.
From Stdlib Require Import QArith Qabs Lqa.
From Stdlib Require Strings.Ascii Strings.String Numbers.DecimalString.
From Stdlib Require Numbers.DecimalPos Numbers.DecimalZ.
Import ListNotations.
Local Open Scope Z_scope.

(** ** Python outcomes *)

Inductive exn : Type :=
| AttributeError      (* [None.corners()] *)
| IndexError          (* [self.jobs[ix]] out of range *)
| ValueError          (* format code [d] applied to a float *)
| ZeroDivisionError
| OverflowError       (* an int too large to convert to float *)
| RecursionExhausted. (* the recursion bound of the embedding was too small *)

Inductive result (A : Type) : Type :=
| Ok (a : A)
| Raise (e : exn).
Arguments Ok {A} a.
Arguments Raise {A} e.

Definition bind {A B : Type} (m : result A) (k : A -> result B) : result B :=
  match m with
  | Ok a => k a
  | Raise e => Raise e
  end.

Notation "x <- m ;; k" := (bind m (fun x => k))
  (at level 61, m at next level, right associativity).
Notation "' pat <- m ;; k" := (bind m (fun x => match x with pat => k end))
  (at level 61, pat pattern, m at next level, right associativity).

(** ** Scores: a float that is a finite number or [float("inf")] *)

Inductive score : Type :=
| Fin (a : Z)
| Inf.

Definition score_ltb (a b : score) : bool :=
  match a, b with
  | Fin u, Fin v => u <? v
  | Fin _, Inf => true
  | Inf, _ => false
  end.

Definition score_eqb (a b : score) : bool :=
  match a, b with
  | Fin u, Fin v => u =? v
  | Inf, Inf => true
  | _, _ => false
  end.

Definition score_lt (a b : score) : Prop := score_ltb a b = true.
Definition score_le (a b : score) : Prop := score_ltb b a = false.

(** ** Jobs and the interface of the tiling module *)

Definition Point : Type := (Z * Z)%type.

Definition point_eqb (p q : Point) : bool :=
  (fst p =? fst q) && (snd p =? snd q).

(** The 4-tuple [(Xdim, Ydim, job, rjob)]; the two job objects are opaque
    handles. *)
Record Job : Type := mkJob {
  Xdim : Z;
  Ydim : Z;
  job : nat;
  rjob : nat
}.

(** The searches import module [tiling] and use its class [Tiling] and its
    function [minDimension] only through the operations below; any
    implementation of them can be plugged in.  [truthy] is [bool(tiling)],
    which [if not tiles] and [if baseTiling] test. *)
Class TilingOps (T : Type) : Type := {
  Tiling : Z -> Z -> Z -> Z -> T;
  truthy : T -> bool;
  clone : T -> T;
  validAddPoints : T -> Z -> Z -> list Point;
  addJob : T -> Point -> Z -> Z -> nat -> T;
  removeInlets : T -> Z -> T;
  area : T -> Z;
  usedArea : T -> Z;
  corners : T -> Z;
  minDimension : list Job -> Z
}.

(** [time.time()]: the next reading of the clock. *)
Definition time (clock : nat -> Z) (ticks : nat) : Z * nat :=
  (clock ticks, S ticks).

(** True division [a / b]; only whether it raises matters below. *)
Definition truediv (a b : Z) : result Z :=
  if b =? 0 then Raise ZeroDivisionError else Ok (a / b).

(** The ints that convert to a float: the largest double is
    [2^1024 - 2^971], and the first int that rounds beyond it is
    [2^1024 - 2^970]. *)
Definition float_range (n : Z) : bool := Z.abs n <? 2 ^ 1024 - 2 ^ 970.

(** The conversion of an int operand in [100.0 * n] and [x / n]; only
    whether it raises matters below. *)
Definition float_of_int (n : Z) : result Z :=
  if float_range n then Ok n else Raise OverflowError.
Arguments float_range : simpl never.

(** ** class TileSearch / class ExhaustiveSearch *)

Module ExhaustiveSearch.
Section Defs.
Context {T : Type} {ops : TilingOps T}.
Variable clock : nat -> Z.

(** Attributes set by [__init__] and only read afterwards. *)
Record params : Type := mkParams {
  jobs : list Job;
  x : Z;
  y : Z;
  xspacing : Z;
  yspacing : Z;
  searchTimeout : Z;
  startTime : Z;
  syncPeriod : Z;
  possiblePermutations : Z;
  baseTiling : T
}.

(** Attributes the search updates. *)
Record state : Type := mkState {
  bestTiling : option T;
  bestScore : score;
  permutations : Z;
  lastCheckTime : Z
}.

(** [remaining_jobs = Jobs[:job_ix] + Jobs[job_ix + 1:]]. *)
Definition remaining (Jobs : list Job) (job_ix : nat) : list Job :=
  firstn job_ix Jobs ++ skipn (S job_ix) Jobs.

(** The tilings at the leaves of the search tree below [tiles], for the
    spacings [xsp] and [ysp]: every position of the job list, the job as it
    is and (unless it is a square) rotated, every valid add-point. *)
Inductive leaf_of (xsp ysp : Z) : list Job -> T -> T -> Prop :=
| leaf_here tiles : leaf_of xsp ysp [] tiles tiles
| leaf_normal Jobs tiles job_ix j pt L :
    nth_error Jobs job_ix = Some j ->
    In pt (validAddPoints (removeInlets tiles (minDimension Jobs))
             (Xdim j + xsp) (Ydim j + ysp)) ->
    leaf_of xsp ysp (remaining Jobs job_ix)
      (addJob (clone (removeInlets tiles (minDimension Jobs))) pt
         (Xdim j + xsp) (Ydim j + ysp) (job j)) L ->
    leaf_of xsp ysp Jobs tiles L
| leaf_rotated Jobs tiles job_ix j pt L :
    nth_error Jobs job_ix = Some j ->
    Xdim j <> Ydim j ->
    In pt (validAddPoints (removeInlets tiles (minDimension Jobs))
             (Ydim j + xsp) (Xdim j + ysp)) ->
    leaf_of xsp ysp (remaining Jobs job_ix)
      (addJob (clone (removeInlets tiles (minDimension Jobs))) pt
         (Ydim j + xsp) (Xdim j + ysp) (rjob j)) L ->
    leaf_of xsp ysp Jobs tiles L.

(** The same leaves, listed in the order the search meets them; [depth]
    bounds the nesting as in [_run]. *)
Fixpoint leaves (xsp ysp : Z) (depth : nat) (Jobs : list Job) (tiles : T)
    : list T :=
  match Jobs with
  | [] => [tiles]
  | _ :: _ =>
      match depth with
      | O => []
      | S depth' =>
          let tiles' := removeInlets tiles (minDimension Jobs) in
          flat_map
            (fun job_ix =>
               match nth_error Jobs job_ix with
               | None => []
               | Some j =>
                   flat_map
                     (fun pt =>
                        leaves xsp ysp depth' (remaining Jobs job_ix)
                          (addJob (clone tiles') pt (Xdim j + xsp)
                             (Ydim j + ysp) (job j)))
                     (validAddPoints tiles' (Xdim j + xsp) (Ydim j + ysp))
                   ++ (if Xdim j =? Ydim j then []
                       else
                         flat_map
                           (fun pt =>
                              leaves xsp ysp depth' (remaining Jobs job_ix)
                                (addJob (clone tiles') pt (Ydim j + xsp)
                                   (Xdim j + ysp) (rjob j)))
                           (validAddPoints tiles' (Ydim j + xsp)
                              (Xdim j + ysp)))
               end)
            (seq 0 (length Jobs))
      end
  end.

(** What the calls below one variant of a job add to [self.permutations]
    when [firstAddPoint] is true: [2 ** len(remaining_jobs)] when the variant
    has no add-point; otherwise what the calls at the add-points equal to
    the first one add, [below] giving the count of one such call (the other
    calls are made with [firstAddPoint] false and count nothing). *)
Definition counted_variant (below : T -> Z) (remaining_jobs : list Job)
    (tiles : T) (w h : Z) (jb : nat) (addpoints : list Point) : Z :=
  match addpoints with
  | [] => 2 ^ Z.of_nat (length remaining_jobs)
  | p0 :: _ =>
      fold_right Z.add 0
        (map (fun ix =>
                if point_eqb ix p0 then below (addJob (clone tiles) ix w h jb)
                else 0)
             addpoints)
  end.

(** What one iteration of the job loop adds: both variants of the job. *)
Definition counted_at (below : list Job -> T -> Z) (xsp ysp : Z)
    (Jobs : list Job) (tiles : T) (job_ix : nat) : Z :=
  match nth_error Jobs job_ix with
  | None => 0
  | Some j =>
      counted_variant (below (remaining Jobs job_ix)) (remaining Jobs job_ix)
        tiles (Xdim j + xsp) (Ydim j + ysp) (job j)
        (validAddPoints tiles (Xdim j + xsp) (Ydim j + ysp))
      + counted_variant (below (remaining Jobs job_ix)) (remaining Jobs job_ix)
          tiles (Ydim j + xsp) (Xdim j + ysp) (rjob j)
          (if negb (Xdim j =? Ydim j)
           then validAddPoints tiles (Ydim j + xsp) (Xdim j + ysp)
           else [])
  end.

(** What [_run(Jobs, tiles, True, printStats)] adds to [self.permutations]
    when no timeout cuts a loop short: one at a leaf, and for a job list
    what the iterations of the job loop add; [depth] bounds the nesting as
    in [_run]. *)
Fixpoint counted (xsp ysp : Z) (depth : nat) (Jobs : list Job) (tiles : T)
    : Z :=
  if negb (truthy tiles) then 0
  else
    match Jobs with
    | [] => 1
    | _ :: _ =>
        match depth with
        | O => 0
        | S depth' =>
            fold_right Z.add 0
              (map (counted_at (counted xsp ysp depth') xsp ysp Jobs
                      (removeInlets tiles (minDimension Jobs)))
                   (seq 0 (length Jobs)))
        end
    end.

(** The base tiling [__init__] keeps: the one given when it is true, a
    fresh one otherwise. *)
Definition base_of (X Y xsp ysp : Z) (base : option T) : T :=
  match base with
  | Some b => if truthy b then b else Tiling X Y xsp ysp
  | None => Tiling X Y xsp ysp
  end.

(** [ExhaustiveSearch.__init__]; [period] is the value drawn for
    [3 + (random.random() - 0.5) / 5]. *)
Definition init (Jobs : list Job) (X Y xsp ysp timeout : Z)
    (base : option T) (period : Z) (ticks : nat) : params * state * nat :=
  let '(t0, ticks1) := time clock ticks in
  let N := Z.of_nat (length Jobs) in
  (mkParams Jobs X Y xsp ysp timeout t0 period
            (2 ^ N * Z.of_nat (fact (length Jobs)))
            (base_of X Y xsp ysp base),
   mkState None Inf 0 0,
   ticks1).

Variable p : params.

(** The leaf of [_run]: [if not Jobs: ...]. *)
Definition leaf (tiles : T) (firstAddPoint : bool) (s : state) : result state :=
  let sc := area tiles in
  better <-
    (if score_ltb (Fin sc) (bestScore s) then Ok true
     else if score_eqb (Fin sc) (bestScore s) then
       match bestTiling s with
       | Some b => Ok (corners tiles <? corners b)
       | None => Raise AttributeError
       end
     else Ok false) ;;
  let s1 :=
    if better : bool
    then mkState (Some tiles) (Fin sc) (permutations s) (lastCheckTime s)
    else s in
  Ok (if firstAddPoint
      then mkState (bestTiling s1) (bestScore s1) (permutations s1 + 1)
                   (lastCheckTime s1)
      else s1).

(** [self.permutations += 2 ** len(remaining_jobs)], under [elif firstAddPoint]. *)
Definition prune (remaining_jobs : list Job) (firstAddPoint : bool)
    (s : state) : state :=
  if firstAddPoint
  then mkState (bestTiling s) (bestScore s)
               (permutations s + 2 ^ Z.of_nat (length remaining_jobs))
               (lastCheckTime s)
  else s.

(** [str(self)], which [print(self)] calls.  The text is not kept; computing
    the utilization divides by the area of the best tiling, and
    [percent = 100.0 * self.permutations / self.possiblePermutations]
    converts both ints to float. *)
Definition __str__ (s : state) : result unit :=
  _ <- match bestTiling s with
       | Some b =>
           if truthy b then _ <- truediv (usedArea b) (area b) ;; Ok tt
           else Ok tt
       | None => Ok tt
       end ;;
  if permutations s >? 0 then
    n <- float_of_int (permutations s) ;;
    d <- float_of_int (possiblePermutations p) ;;
    _ <- truediv (100 * n) d ;;
    Ok tt
  else Ok tt.

(** The status block that ends every iteration of the job loop; the boolean
    is [true] when the block executes its [return]. *)
Definition sync_check (printStats : bool) (st : state * nat)
    : result (bool * (state * nat)) :=
  let '(s, w) := st in
  if printStats then
    let '(t1, w1) := time clock w in
    if t1 >? lastCheckTime s + syncPeriod p then
      let '(t2, w2) := time clock w1 in
      let s' := mkState (bestTiling s) (bestScore s) (permutations s) t2 in
      _ <- __str__ s' ;;
      if searchTimeout p >? 0 then
        let '(t3, w3) := time clock w2 in
        Ok (t3 - startTime p >? searchTimeout p, (s', w3))
      else Ok (false, (s', w2))
    else Ok (false, (s, w1))
  else Ok (false, (s, w)).

Section Body.
(** The recursive call [self._run(remaining_jobs, T, flag, printStats)]. *)
Variable rec : list Job -> T -> bool -> state * nat -> result (state * nat).

(** [for ix in addpoints: T = tiles.clone(); T.addJob(...); self._run(...)];
    [p0] is [addpoints[0]]. *)
Fixpoint place_all (remaining_jobs : list Job) (tiles : T) (w h : Z) (jb : nat)
    (firstAddPoint : bool) (p0 : Point) (addpoints : list Point)
    (st : state * nat) : result (state * nat) :=
  match addpoints with
  | [] => Ok st
  | ix :: rest =>
      let T' := addJob (clone tiles) ix w h jb in
      st' <- rec remaining_jobs T' (firstAddPoint && point_eqb ix p0) st ;;
      place_all remaining_jobs tiles w h jb firstAddPoint p0 rest st'
  end.

(** [if addpoints: for ... elif firstAddPoint: self.permutations += ...]. *)
Definition variant (remaining_jobs : list Job) (tiles : T) (w h : Z) (jb : nat)
    (firstAddPoint : bool) (addpoints : list Point)
    (st : state * nat) : result (state * nat) :=
  match addpoints with
  | [] => Ok (prune remaining_jobs firstAddPoint (fst st), snd st)
  | p0 :: _ =>
      place_all remaining_jobs tiles w h jb firstAddPoint p0 addpoints st
  end.

(** One iteration of [for job_ix in range(len(Jobs))]. *)
Definition job_body (Jobs : list Job) (tiles : T) (firstAddPoint printStats : bool)
    (job_ix : nat) (st : state * nat) : result (bool * (state * nat)) :=
  match nth_error Jobs job_ix with
  | None => Raise IndexError
  | Some j =>
      let remaining_jobs := remaining Jobs job_ix in
      let addpoints1 :=
        validAddPoints tiles (Xdim j + xspacing p) (Ydim j + yspacing p) in
      let addpoints2 :=
        if negb (Xdim j =? Ydim j)
        then validAddPoints tiles (Ydim j + xspacing p) (Xdim j + yspacing p)
        else [] in
      st1 <- variant remaining_jobs tiles (Xdim j + xspacing p)
               (Ydim j + yspacing p) (job j) firstAddPoint addpoints1 st ;;
      st2 <- variant remaining_jobs tiles (Ydim j + xspacing p)
               (Xdim j + yspacing p) (rjob j) firstAddPoint addpoints2 st1 ;;
      sync_check printStats st2
  end.

Fixpoint job_loop (Jobs : list Job) (tiles : T) (firstAddPoint printStats : bool)
    (ixs : list nat) (st : state * nat) : result (state * nat) :=
  match ixs with
  | [] => Ok st
  | job_ix :: rest =>
      r <- job_body Jobs tiles firstAddPoint printStats job_ix st ;;
      if fst r then Ok (snd r)
      else job_loop Jobs tiles firstAddPoint printStats rest (snd r)
  end.
End Body.

(** [ExhaustiveSearch._run]; [depth] bounds the nesting of the recursion,
    which is [len(Jobs)] deep. *)
Fixpoint _run (depth : nat) (printStats : bool) (Jobs : list Job) (tiles : T)
    (firstAddPoint : bool) (st : state * nat) : result (state * nat) :=
  if negb (truthy tiles) then Ok st
  else
    match Jobs with
    | [] => s' <- leaf tiles firstAddPoint (fst st) ;; Ok (s', snd st)
    | _ :: _ =>
        match depth with
        | O => Raise RecursionExhausted
        | S depth' =>
            let tiles' := removeInlets tiles (minDimension Jobs) in
            job_loop (_run depth' printStats) Jobs tiles' firstAddPoint
              printStats (seq 0 (length Jobs)) st
        end
    end.

(** [ExhaustiveSearch.run]. *)
Definition run (printStats : bool) (st : state * nat) : result (state * nat) :=
  _run (length (jobs p)) printStats (jobs p) (baseTiling p) true st.

(** *** What the claims speak of *)

(** [bestScore] is the area of [bestTiling], or infinite when there is none. *)
Definition consistent (s : state) : Prop :=
  match bestTiling s with
  | Some b => bestScore s = Fin (area b)
  | None => bestScore s = Inf
  end.

(** Area first, then corners. *)
Definition lex_le (a b : T) : Prop :=
  area a < area b \/ (area a = area b /\ corners a <= corners b).

Definition dominates (s : state) (L : T) : Prop :=
  exists b, bestTiling s = Some b /\ lex_le b L.

Definition improves (s s' : state) : Prop :=
  forall L, dominates s L -> dominates s' L.

(** The best tiling of [s'] is that of [s] or one of [P]. *)
Definition from (P : T -> Prop) (s s' : state) : Prop :=
  bestTiling s' = bestTiling s \/ exists b, bestTiling s' = Some b /\ P b.

(** The timeout cannot fire: the status block is off, no timeout is set, or
    no reading of the clock is past it. *)
Definition no_timeout (printStats : bool) : Prop :=
  printStats = false \/ searchTimeout p <= 0 \/
  forall n, clock n - startTime p <= searchTimeout p.

(** The run is complete: every tiling is true and the timeout cannot fire. *)
Definition complete (printStats : bool) : Prop :=
  (forall t : T, truthy t = true) /\ no_timeout printStats.

(** What a piece of the search that visits the leaves [P] does to the state. *)
Record post (printStats : bool) (P : T -> Prop) (s s' : state) : Prop := mkPost {
  post_consistent : consistent s';
  post_improves : improves s s';
  post_from : from P s s';
  post_covers : complete printStats -> forall L, P L -> dominates s' L
}.

(** A call returns a result with [Q], or the status line has raised: it
    has divided by the zero area of a true tiling of [Good], or one of its
    ints was too large for a float. *)
Definition outcome {A : Type} (printStats : bool) (Good : T -> Prop)
    (r : result A) (Q : A -> Prop) : Prop :=
  match r with
  | Ok a => Q a
  | Raise e =>
      printStats = true /\
      ((e = ZeroDivisionError /\
        exists b, Good b /\ truthy b = true /\ area b = 0) \/
       e = OverflowError)
  end.

(** The counter after a call that started in [s] with [c] still to count:
    it has grown by at most [c], by [c] exactly when the timeout cannot
    fire; no int of the status line was too large for a float. *)
Definition within {A : Type} (printStats : bool) (get : A -> state) (c : Z)
    (s : state) (r : result A) : Prop :=
  match r with
  | Ok a =>
      permutations s <= permutations (get a) <= permutations s + c /\
      (no_timeout printStats -> permutations (get a) = permutations s + c)
  | Raise e => e <> OverflowError
  end.

(** What a call with the flag [firstAddPoint] counts of [c]. *)
Definition budget (firstAddPoint : bool) (c : Z) : Z :=
  if firstAddPoint then c else 0.

(** The status line can show the int [n]: it is off, or [n] converts to a
    float. *)
Definition shown (printStats : bool) (n : Z) : Prop :=
  printStats = false \/ float_range n = true.

(** The recursive call keeps the counter within what [counted] allows, on
    every job list of at most [d] jobs. *)
Definition rec_counts (printStats : bool)
    (rec : list Job -> T -> bool -> state * nat -> result (state * nat))
    (d : nat) : Prop :=
  forall Jobs tiles first s w,
    (length Jobs <= d)%nat -> 0 <= permutations s ->
    shown printStats
      (permutations s
       + budget first (counted (xspacing p) (yspacing p) d Jobs tiles)) ->
    within printStats fst
      (budget first (counted (xspacing p) (yspacing p) d Jobs tiles))
      s (rec Jobs tiles first (s, w)).

(** The best tiling, if any, is one of [Good]. *)
Definition anchored (Good : T -> Prop) (s : state) : Prop :=
  forall b, bestTiling s = Some b -> Good b.

(** The recursive call does its part on every job list of at most [d] jobs. *)
Definition rec_ok (Good : T -> Prop) (printStats : bool)
    (rec : list Job -> T -> bool -> state * nat -> result (state * nat))
    (d : nat) : Prop :=
  forall Jobs tiles first s w,
    (length Jobs <= d)%nat -> consistent s -> anchored Good s ->
    (forall L, leaf_of (xspacing p) (yspacing p) Jobs tiles L -> Good L) ->
    outcome printStats Good (rec Jobs tiles first (s, w))
      (fun r => post printStats (leaf_of (xspacing p) (yspacing p) Jobs tiles)
                  s (fst r)).

(** The leaves below [tiles] whose first job is [Jobs[job_ix]]. *)
Definition leaves_at (Jobs : list Job) (tiles : T) (job_ix : nat) (L : T) : Prop :=
  exists j, nth_error Jobs job_ix = Some j /\
    ((exists pt,
        In pt (validAddPoints tiles (Xdim j + xspacing p) (Ydim j + yspacing p)) /\
        leaf_of (xspacing p) (yspacing p) (remaining Jobs job_ix)
          (addJob (clone tiles) pt (Xdim j + xspacing p) (Ydim j + yspacing p)
             (job j)) L)
     \/ (Xdim j <> Ydim j /\ exists pt,
        In pt (validAddPoints tiles (Ydim j + xspacing p) (Xdim j + yspacing p)) /\
        leaf_of (xspacing p) (yspacing p) (remaining Jobs job_ix)
          (addJob (clone tiles) pt (Ydim j + xspacing p) (Xdim j + yspacing p)
             (rjob j)) L)).

End Defs.

(** [ExhaustiveSearch(Jobs, X, Y, xsp, ysp, timeout, base).run(printStats)]:
    the object is made at clock reading [w], then run. *)
Definition search {T : Type} {ops : TilingOps T} (clock : nat -> Z)
    (Jobs : list Job) (X Y xsp ysp timeout : Z) (base : option T)
    (period : Z) (w : nat) (printStats : bool) : result (state * nat) :=
  let '(p, s0, w0) := init clock Jobs X Y xsp ysp timeout base period w in
  run clock p printStats (s0, w0).

(** The timeout cannot fire in a search made at clock reading [w]. *)
Definition untimed (clock : nat -> Z) (timeout : Z) (w : nat)
    (printStats : bool) : Prop :=
  printStats = false \/ timeout <= 0 \/ forall n, clock n - clock w <= timeout.

(** The status line raises nothing: it is off, or no leaf of the search
    tree has area 0 and neither the permutations announced nor those a run
    can count are too large for a float. *)
Definition status_line_safe {T : Type} {ops : TilingOps T}
    (Jobs : list Job) (X Y xsp ysp : Z) (base : option T)
    (printStats : bool) : Prop :=
  printStats = false \/
  (forallb (fun L => negb (area L =? 0))
           (leaves xsp ysp (length Jobs) Jobs (base_of X Y xsp ysp base)) = true /\
   float_range (2 ^ Z.of_nat (length Jobs) * Z.of_nat (fact (length Jobs)))
   = true /\
   float_range (counted xsp ysp (length Jobs) Jobs (base_of X Y xsp ysp base))
   = true).

(** The pair a tiling is ranked by. *)
Definition rank {T : Type} {ops : TilingOps T} (b : T) : Z * Z :=
  (area b, corners b).

End ExhaustiveSearch.

(** ** class RandomSearch *)

(** [random.Random()]: the generator is an oracle threading its own state. *)
Class RandomOps (R : Type) : Type := {
  sample : R -> nat -> list nat * R;   (* [r.sample(range(N), N)] *)
  choice01 : R -> bool * R;            (* [r.choice([0, 1])], [true] for 1 *)
  choice : R -> nat -> nat * R         (* position taken by [r.choice(seq)] *)
}.

Module RandomSearch.
Section Defs.
Context {T : Type} {ops : TilingOps T} {R : Type} {rnd : RandomOps R}.
Variable clock : nat -> Z.

Record params : Type := mkParams {
  jobs : list Job;
  x : Z;
  y : Z;
  xspacing : Z;
  yspacing : Z;
  searchTimeout : Z;
  startTime : Z;
  syncPeriod : Z;
  baseTiling : T;
  RandomSearchExhaustiveJobs : Z
}.

Record state : Type := mkState {
  bestTiling : option T;
  bestScore : score;
  placements : Z;
  lastCheckTime : Z
}.

(** Local variables of [run] that live across trials. *)
Record locals : Type := mkLocals {
  foundBetter : bool;
  placementsSinceLastCheck : Z
}.

(** What [run] shares with the outside: the clock readings taken, the
    generator [r], and the messages put on the queue [q] (oldest first). *)
Record env : Type := mkEnv {
  ticks : nat;
  rng : R;
  queue : list (Z * option T)
}.

Definition init (Jobs : list Job) (X Y xsp ysp timeout exhaustiveSearchJobs : Z)
    (period : Z) (w : nat) : params * state * nat :=
  let '(t0, w1) := time clock w in
  (mkParams Jobs X Y xsp ysp timeout t0 period (Tiling X Y xsp ysp)
            exhaustiveSearchJobs,
   mkState None Inf 0 0,
   w1).

Variable p : params.

(** The period drawn for the tail search's own [syncPeriod]; the tail search
    runs with [printStats = False] and never reads it. *)
Variable tail_period : Z.

Definition N : Z := Z.of_nat (length (jobs p)).
Definition M : Z := Z.max (N - RandomSearchExhaustiveJobs p) 0.

(** One iteration of [for ix in joborder[:M]]; [None] is [break]. *)
Definition place_one (minInletSize : Z) (ix : nat) (currentTiling : T) (r : R)
    : result (option T * R) :=
  match nth_error (jobs p) ix with
  | None => Raise IndexError
  | Some j =>
      let cur := removeInlets currentTiling minInletSize in
      let '(c, r1) := choice01 r in
      let w := if c : bool then Xdim j + xspacing p else Ydim j + xspacing p in
      let h := if c then Ydim j + yspacing p else Xdim j + yspacing p in
      let jb := if c then job j else rjob j in
      let addpoints := validAddPoints cur w h in
      match addpoints with
      | [] => Ok (None, r1)
      | p0 :: _ =>
          let '(k, r2) := choice r1 (length addpoints) in
          let pt := nth (k mod length addpoints)%nat addpoints p0 in
          Ok (Some (addJob cur pt w h jb), r2)
      end
  end.

Fixpoint place_jobs (minInletSize : Z) (order : list nat) (currentTiling : T)
    (r : R) : result (option T * R) :=
  match order with
  | [] => Ok (Some currentTiling, r)
  | ix :: rest =>
      '(o, r1) <- place_one minInletSize ix currentTiling r ;;
      match o with
      | None => Ok (None, r1)
      | Some cur => place_jobs minInletSize rest cur r1
      end
  end.

(** [for ix in joborder[M:]: remainingJobs.append(self.jobs[ix])]. *)
Fixpoint remainingJobs (order : list nat) : result (list Job) :=
  match order with
  | [] => Ok []
  | ix :: rest =>
      match nth_error (jobs p) ix with
      | None => Raise IndexError
      | Some j => js <- remainingJobs rest ;; Ok (j :: js)
      end
  end.

(** The [else] branch of the placement loop up to [finalSearch.run(False)]:
    the final state of the tail search, when one is made. *)
Definition tail_search (joborder : list nat) (currentTiling : T) (w : nat)
    : result (option ExhaustiveSearch.state * nat) :=
  if negb (N - M =? 0) then
    js <- remainingJobs (skipn (Z.to_nat M) joborder) ;;
    '(fs, w') <-
      ExhaustiveSearch.search clock js (x p) (y p) (xspacing p) (yspacing p) 0
        (Some currentTiling) tail_period w false ;;
    Ok (Some fs, w')
  else Ok (None, w).

(** [if finalSearch.bestScore < self.bestScore: ...]. *)
Definition adopt (fs : ExhaustiveSearch.state) (sl : state * locals)
    : state * locals :=
  let '(s, l) := sl in
  if score_ltb (ExhaustiveSearch.bestScore fs) (bestScore s)
  then (mkState (ExhaustiveSearch.bestTiling fs) (ExhaustiveSearch.bestScore fs)
                (placements s) (lastCheckTime s),
        mkLocals true (placementsSinceLastCheck l))
  else (s, l).

(** The synchronization block that ends every trial; the boolean is [true]
    when it executes [return]. *)
Definition sync (s : state) (l : locals) (e : env)
    : bool * (state * locals * env) :=
  let '(t1, w1) := time clock (ticks e) in
  if t1 >? lastCheckTime s + syncPeriod p then
    let '(t2, w2) := time clock w1 in
    let s' := mkState (bestTiling s) (bestScore s) (placements s) t2 in
    let msg :=
      if foundBetter l
      then (placementsSinceLastCheck l, bestTiling s)
      else (placementsSinceLastCheck l, None) in
    let l' := mkLocals false 0 in
    if searchTimeout p >? 0 then
      let '(t3, w3) := time clock w2 in
      (t3 - startTime p >? searchTimeout p,
       (s', l', mkEnv w3 (rng e) (queue e ++ [msg])))
    else (false, (s', l', mkEnv w2 (rng e) (queue e ++ [msg])))
  else (false, (s, l, mkEnv w1 (rng e) (queue e))).

(** The start of a trial up to the end of the placement loop: the order
    drawn, the tiling reached ([None] after [break]) and the generator. *)
Definition random_phase (r : R) : result (list nat * option T * R) :=
  let currentTiling := clone (baseTiling p) in
  let '(joborder, r1) := sample r (length (jobs p)) in
  let minInletSize := minDimension (jobs p) in
  '(placed, r2) <-
     place_jobs minInletSize (firstn (Z.to_nat M) joborder) currentTiling r1 ;;
  Ok (joborder, placed, r2).

(** A trial up to the update of the best tiling: the tail search made (if
    any) and the new state. *)
Definition attempt (s : state) (l : locals) (e : env)
    : result (option ExhaustiveSearch.state * (state * locals * env)) :=
  '(joborder, placed, r2) <- random_phase (rng e) ;;
  match placed with
  | None => Ok (None, (s, l, mkEnv (ticks e) r2 (queue e)))
  | Some cur =>
      '(fs, w) <- tail_search joborder cur (ticks e) ;;
      match fs with
      | None => Ok (None, (s, l, mkEnv w r2 (queue e)))
      | Some f =>
          let '(s', l') := adopt f (s, l) in
          Ok (Some f, (s', l', mkEnv w r2 (queue e)))
      end
  end.

(** One iteration of [while 1]. *)
Definition trial (s : state) (l : locals) (e : env)
    : result (bool * (state * locals * env)) :=
  '(_, (s1, l1, e1)) <- attempt s l e ;;
  let s2 := mkState (bestTiling s1) (bestScore s1) (placements s1 + 1)
                    (lastCheckTime s1) in
  let l2 := mkLocals (foundBetter l1) (placementsSinceLastCheck l1 + 1) in
  Ok (sync s2 l2 e1).

(** [run], observed for at most [n] trials: [inl] when it has returned,
    [inr] when it is still looping. *)
Fixpoint trials (n : nat) (s : state) (l : locals) (e : env)
    : result ((state * env) + (state * locals * env)) :=
  match n with
  | O => Ok (inr (s, l, e))
  | S n' =>
      '(returned, (s', l', e')) <- trial s l e ;;
      if returned : bool then Ok (inl (s', e')) else trials n' s' l' e'
  end.

Definition run (n : nat) (s : state) (e : env)
    : result ((state * env) + (state * locals * env)) :=
  trials n s (mkLocals false 0) e.

(** *** What the claims speak of *)

(** After a trial the best score is no larger, and the best tiling is the
    old one or a tiling of strictly smaller area. *)
Definition no_worse (s s' : state) : Prop :=
  score_le (bestScore s') (bestScore s) /\
  ((bestTiling s' = bestTiling s /\ bestScore s' = bestScore s) \/
   (exists b, bestTiling s' = Some b /\ bestScore s' = Fin (area b) /\
              score_lt (bestScore s') (bestScore s))).

(** The state a run observed for some trials has reached. *)
Definition state_of (r : (state * env) + (state * locals * env)) : state :=
  match r with
  | inl (s, _) => s
  | inr (s, _, _) => s
  end.

(** The state and the counters once a trial is counted. *)
Definition counted (s : state) : state :=
  mkState (bestTiling s) (bestScore s) (placements s + 1) (lastCheckTime s).
Definition counted_locals (l : locals) : locals :=
  mkLocals (foundBetter l) (placementsSinceLastCheck l + 1).

(** The tail result is better by area, then by corners. *)
Definition strictly_better (f : ExhaustiveSearch.state) (s : state) : Prop :=
  score_lt (ExhaustiveSearch.bestScore f) (bestScore s) \/
  (ExhaustiveSearch.bestScore f = bestScore s /\
   exists a b, ExhaustiveSearch.bestTiling f = Some a /\ bestTiling s = Some b /\
               corners a < corners b).

(** The worker adopts the tail result exactly when it is better by area,
    then by corners. *)
Definition adopts_by_rank (f : ExhaustiveSearch.state) (s : state) : Prop :=
  foundBetter (snd (adopt f (s, mkLocals false 0))) = true <->
  strictly_better f s.

(** The jobs at the given positions of [self.jobs]. *)
Definition jobs_at (order : list nat) : list Job :=
  flat_map (fun ix => match nth_error (jobs p) ix with
                      | Some j => [j]
                      | None => []
                      end) order.

(** The thresholds [removeInlets] would receive if each were the least
    dimension of the jobs not yet placed: one for each of the first [m]
    jobs of the order. *)
Definition outstanding_thresholds (order : list nat) (m : nat) : list Z :=
  map (fun k => minDimension (jobs_at (skipn k order)))
      (seq 0 (Nat.min m (length order))).

End Defs.
End RandomSearch.

(** ** The coordinator: [tile_search_random] in gerbmerge.py *)

(** The values the coordinator formats: an [int], or a [float] (kept as a
    number of the small unit, like every time). *)
Inductive pyval : Type :=
| PyInt (n : Z)
| PyFloat (v : Z).

(** A replacement field [{:d}] of [str.format]: integers only. *)
Definition format_d (v : pyval) : result unit :=
  match v with
  | PyInt _ => Ok tt
  | PyFloat _ => Raise ValueError
  end.

Module Coordinator.
Section Defs.
Context {T : Type} {ops : TilingOps T}.
Variable clock : nat -> Z.

Record state : Type := mkState {
  bestScore : score;
  bestTiling : option T;
  placementsTried : Z
}.

(** The body of [while newResult is not None], with the flag
    [foundBetter] of the round. *)
Definition receive (cf : state * bool) (newResult : Z * option T)
    : state * bool :=
  let '(c, foundBetter) := cf in
  let tried := placementsTried c + fst newResult in
  match snd newResult with
  | Some t =>
      if truthy t && score_ltb (Fin (area t)) (bestScore c)
      then (mkState (Fin (area t)) (Some t) tried, true)
      else (mkState (bestScore c) (bestTiling c) tried, foundBetter)
  | None => (mkState (bestScore c) (bestTiling c) tried, foundBetter)
  end.

(** Draining the queue until [queue.Empty]. *)
Definition drain (msgs : list (Z * option T)) (cf : state * bool)
    : state * bool :=
  fold_left receive msgs cf.

(** The handler of [queue.Empty]. *)
Definition report (startTime : Z) (cf : state * bool) (w : nat) : result nat :=
  let '(c, foundBetter) := cf in
  if foundBetter : bool then
    _ <- match bestTiling c with
         | Some b => if truthy b then truediv (usedArea b) (area b) else Ok 0
         | None => Ok 0
         end ;;
    let '(t, w1) := time clock w in
    _ <- format_d (PyInt (placementsTried c)) ;;
    _ <- format_d (PyFloat (t - startTime)) ;;
    Ok w1
  else Ok w.

(** One pass of [while 1] for each list of messages found on the queue. *)
Fixpoint rounds (startTime : Z) (found : list (list (Z * option T)))
    (c : state) (w : nat) : result (state * nat) :=
  match found with
  | [] => Ok (c, w)
  | msgs :: rest =>
      let cf := drain msgs (c, false) in
      w1 <- report startTime cf w ;;
      rounds startTime rest (fst cf) w1
  end.

(** [tile_search_random] when KeyboardInterrupt arrives: [found] lists what
    each completed pass found on the queue, [last] what the interrupted
    pass had received. *)
Definition tile_search_random (found : list (list (Z * option T)))
    (last : list (Z * option T)) (w : nat) : result (option T) :=
  let '(startTime, w0) := time clock w in
  '(c, w1) <- rounds startTime found (mkState Inf None 0) w0 ;;
  let c' := fst (drain last (c, false)) in
  (* except KeyboardInterrupt: every worker is terminated *)
  let '(t, _) := time clock w1 in
  let computeTime := t - startTime in
  _ <- truediv (placementsTried c') computeTime ;;
  _ <- format_d (PyInt (placementsTried c')) ;;
  _ <- format_d (PyFloat computeTime) ;;
  Ok (bestTiling c').

(** *** What the claims speak of *)

(** The reported tiling is better than the global best by area, then by
    corners. *)
Definition better_by_rank (c : state) (t : T) : Prop :=
  score_lt (Fin (area t)) (bestScore c) \/
  (Fin (area t) = bestScore c /\
   exists b, bestTiling c = Some b /\ corners t < corners b).

(** The merge updates the global best exactly on a tiling better by rank. *)
Definition merges_by_rank (c : state) (newResult : Z * option T) : Prop :=
  snd (receive (c, false) newResult) = true <->
  exists t, snd newResult = Some t /\ better_by_rank c t.

End Defs.
End Coordinator.

(** ** Tilings to run the searches on *)

(** Modelled from the spec: class [Tiling] and [minDimension] of the missing
    module [tiling] (spec 4.1).  The panel keeps the placed rectangles; the
    candidate anchors are the lower-left corner of the panel and the
    upper-right corner of every placed rectangle; a rectangle fits at an
    anchor when it stays inside the panel and overlaps no placed rectangle.
    Gaps are not stored, so [removeInlets] has nothing to discard. *)
Module Panel.

Record rect : Type := mkRect {
  rx : Z; ry : Z; rw : Z; rh : Z; handle : nat
}.

Record t : Type := mkPanel {
  xmax : Z; ymax : Z; xsp : Z; ysp : Z;
  placed : list rect
}.

Definition overlaps (x y w h : Z) (r : rect) : bool :=
  (x <? rx r + rw r) && (rx r <? x + w) && (y <? ry r + rh r) && (ry r <? y + h).

Definition fits (tl : t) (w h : Z) (pt : Point) : bool :=
  (fst pt + w <=? xmax tl) && (snd pt + h <=? ymax tl)
  && forallb (fun r => negb (overlaps (fst pt) (snd pt) w h r)) (placed tl).

Definition anchors (tl : t) : list Point :=
  (0, 0) :: map (fun r => (rx r + rw r, ry r + rh r)) (placed tl).

Definition validAddPoints (tl : t) (w h : Z) : list Point :=
  filter (fits tl w h) (anchors tl).

Definition addJob (tl : t) (pt : Point) (w h : Z) (jb : nat) : t :=
  mkPanel (xmax tl) (ymax tl) (xsp tl) (ysp tl)
          (placed tl ++ [mkRect (fst pt) (snd pt) w h jb]).

Definition max_of (f : rect -> Z) (rs : list rect) : Z :=
  fold_right (fun r m => Z.max (f r) m) 0 rs.

(** All anchors have non-negative coordinates, so the bounding box starts
    at the lowest and leftmost placed corner. *)
Definition min_of (f : rect -> Z) (rs : list rect) : Z :=
  match rs with
  | [] => 0
  | r :: rs' => fold_right (fun r m => Z.min (f r) m) (f r) rs'
  end.

Definition area (tl : t) : Z :=
  (max_of (fun r => rx r + rw r) (placed tl) - min_of rx (placed tl))
  * (max_of (fun r => ry r + rh r) (placed tl) - min_of ry (placed tl)).

Definition usedArea (tl : t) : Z :=
  fold_right (fun r a => (rw r - xsp tl) * (rh r - ysp tl) + a) 0 (placed tl).

Definition rect_corners (r : rect) : list Point :=
  [(rx r, ry r); (rx r + rw r, ry r); (rx r + rw r, ry r + rh r);
   (rx r, ry r + rh r)].

Definition point_eq_dec (a b : Point) : {a = b} + {a <> b}.
Proof. decide equality; apply Z.eq_dec. Defined.

(** The distinct corner points of the placed rectangles. *)
Definition corners (tl : t) : Z :=
  Z.of_nat (length (nodup point_eq_dec (flat_map rect_corners (placed tl)))).

Definition minDimension (Jobs : list Job) : Z :=
  match Jobs with
  | [] => 0
  | j :: js =>
      fold_left (fun m k => Z.min (Z.min m (Xdim k)) (Ydim k)) js
                (Z.min (Xdim j) (Ydim j))
  end.

#[global] Instance ops : TilingOps t :=
  Build_TilingOps t
    (fun X Y xs ys => mkPanel X Y xs ys [])   (* Tiling(x, y, xspacing, yspacing) *)
    (fun _ => true)                           (* a plain object is true *)
    (fun tl => tl)                            (* clone *)
    validAddPoints addJob
    (fun tl _ => tl)                          (* removeInlets *)
    area usedArea corners minDimension.

End Panel.

(** A tiling known only through its two scores: what the comparisons of the
    worker and of the coordinator read of a tiling. *)
Module Scored.

Record t : Type := mkScored { its_area : Z; its_corners : Z }.

#[global] Instance ops : TilingOps t :=
  Build_TilingOps t
    (fun _ _ _ _ => mkScored 0 0)
    (fun _ => true)
    (fun tl => tl)
    (fun _ _ _ => [])
    (fun tl _ _ _ _ => tl)
    (fun tl _ => tl)
    its_area its_area its_corners Panel.minDimension.

End Scored.

(** A tiling that also logs the thresholds its [removeInlets] received. *)
Module Spy.
Section Defs.
Context {T : Type} {ops : TilingOps T}.

Definition t : Type := (T * list Z)%type.

Definition inlet_log (tl : t) : list Z := snd tl.

Definition spy_ops : TilingOps t :=
  Build_TilingOps t
    (fun X Y xs ys => (Tiling X Y xs ys, []))
    (fun tl => truthy (fst tl))
    (fun tl => (clone (fst tl), snd tl))
    (fun tl w h => validAddPoints (fst tl) w h)
    (fun tl pt w h jb => (addJob (fst tl) pt w h jb, snd tl))
    (fun tl m => (removeInlets (fst tl) m, snd tl ++ [m]))
    (fun tl => area (fst tl))
    (fun tl => usedArea (fst tl))
    (fun tl => corners (fst tl))
    minDimension.

End Defs.
End Spy.

(** A generator read off a tape: [sample] keeps the order (or reverses it
    on an odd number), [choice01] and [choice] take the next number. *)
Module Tape.

Definition t : Type := list nat.

Definition sample (r : t) (n : nat) : list nat * t :=
  match r with
  | [] => (seq 0 n, [])
  | k :: r' => (if Nat.odd k then rev (seq 0 n) else seq 0 n, r')
  end.

Definition choice01 (r : t) : bool * t :=
  match r with
  | [] => (false, [])
  | k :: r' => (Nat.odd k, r')
  end.

Definition choice (r : t) (n : nat) : nat * t :=
  match r with
  | [] => (O, [])
  | k :: r' => (k, r')
  end.

#[global] Instance rnd : RandomOps t := Build_RandomOps t sample choice01 choice.

End Tape.

(** The claim that every [removeInlets] of the placement loop receives the
    least dimension of the jobs not yet placed, on logging tilings. *)
Definition prunes_by_outstanding {T : Type} {ops : TilingOps T} {R : Type}
    {rnd : RandomOps R} (p : RandomSearch.params (T := Spy.t (T := T)))
    (r : R) : Prop :=
  forall joborder cur r',
    RandomSearch.random_phase (ops := Spy.spy_ops) p r
      = Ok (joborder, Some cur, r') ->
    Spy.inlet_log cur
      = Spy.inlet_log (RandomSearch.baseTiling p)
        ++ RandomSearch.outstanding_thresholds (ops := Spy.spy_ops) p joborder
             (Z.to_nat (RandomSearch.M p)).

(** ** Inputs the properties are run on *)

Module Examples.

(** A clock that moves on by one unit at every reading. *)
Definition steady_clock (n : nat) : Z := 1700000000000 + Z.of_nat n.

(** A clock whose first reading (the construction of the search) lies
    5000 units before all the later ones. *)
Definition late_clock (n : nat) : Z :=
  match n with
  | O => 1700000000000
  | _ => 1700000005000 + Z.of_nat n
  end.

(** Three square jobs that fit a 3 x 3 panel along its diagonal. *)
Definition three_squares : list Job :=
  [mkJob 1 1 0 1; mkJob 1 1 2 3; mkJob 1 1 4 5].

(** Three jobs of 2 x 3, too large for a 1 x 1 panel. *)
Definition three_large : list Job :=
  [mkJob 2 3 0 1; mkJob 2 3 2 3; mkJob 2 3 4 5].

(** A 3 x 1 job and a 1 x 2 job, for a panel of 4 x 5, a timeout of 1000
    and a period of 3000. *)
Definition strip : Job := mkJob 3 1 0 1.
Definition block : Job := mkJob 1 2 2 3.

Definition timed_params : ExhaustiveSearch.params (T := Panel.t) :=
  fst (fst (ExhaustiveSearch.init late_clock [strip; block] 4 5 0 0 1000 None
              3000 0)).
Definition timed_start : ExhaustiveSearch.state (T := Panel.t) :=
  snd (fst (ExhaustiveSearch.init late_clock [strip; block] 4 5 0 0 1000 None
              3000 0)).

(** The panel once [strip] is placed, as it is, at the origin. *)
Definition strip_placed : Panel.t :=
  addJob (clone (removeInlets (ExhaustiveSearch.baseTiling timed_params)
                   (minDimension [strip; block])))
         (0, 0) 3 1 0%nat.

(** A worker for the single job [strip] on a panel of 2 x 5, with an
    exhaustive tail of [tail] jobs. *)
Definition narrow_worker (tail : Z) : RandomSearch.params (T := Panel.t) :=
  fst (fst (RandomSearch.init late_clock [strip] 2 5 0 0 0 tail 3000 0)).
Definition fresh_worker : RandomSearch.state (T := Panel.t) :=
  RandomSearch.mkState None Inf 0 0.
Definition no_locals : RandomSearch.locals := RandomSearch.mkLocals false 0.
Definition tape_env (tape : list nat) : RandomSearch.env (T := Panel.t) :=
  RandomSearch.mkEnv 1 tape [].

(** A worker on logging panels: a 1 x 1 job and a 5 x 5 job on a panel of
    10 x 10, both placed at random. *)
Definition small_large : list Job := [mkJob 1 1 0 1; mkJob 5 5 2 3].
Definition logging_worker : RandomSearch.params (T := Spy.t (T := Panel.t)) :=
  fst (fst (RandomSearch.init (ops := Spy.spy_ops) late_clock small_large
              10 10 0 0 0 0 3000 0)).

(** Two tilings of area 6: one with 6 corners, one with 4. *)
Definition six_corners : Scored.t := Scored.mkScored 6 6.
Definition four_corners : Scored.t := Scored.mkScored 6 4.

End Examples.

(** * Drill tools: clustering and remapping

    Shallow embedding of [src/gerbmerge/src/drillcluster.py].  Drill sizes
    are floats, taken as exact rationals ([Q]); two floats are the same
    dictionary key when they are equal as numbers ([Qeq]).  A Python [dict]
    is the list of its items in insertion order.

    Python rounds every sum, difference and quotient of floats to the
    nearest float; here they are exact.  The properties stated of this
    part are therefore those that rest on comparisons, on the order of the
    sizes and on identities that hold of drill-sized floats too ([x + 0 = x],
    [(x + x) / 2 = x]); none bounds a distance by the tolerance, which the
    rounded midpoint of a cluster can miss in the last place. *)

(** ** Further exceptions and dictionaries *)

Inductive exc : Type :=
| Exn (e : exn)       (* one of the exceptions of [exn] *)
| KeyError
| RuntimeError
| TypeError
| AssertionError.

Inductive answer (A : Type) : Type :=
| Return (a : A)
| Throw (e : exc).
Arguments Return {A} a.
Arguments Throw {A} e.

Definition and_then {A B : Type} (m : answer A) (k : A -> answer B)
  : answer B :=
  match m with
  | Return a => k a
  | Throw e => Throw e
  end.

Notation "x <~ m ;; k" := (and_then m (fun x => k))
  (at level 61, m at next level, right associativity).
Notation "' pat <~ m ;; k" :=
  (and_then m (fun x => match x with pat => k end))
  (at level 61, pat pattern, m at next level, right associativity).

Section Dict.
Context {K V : Type}.
Variable eqb : K -> K -> bool.

(** [d.get(k)]: the value of the first (and only) item whose key equals
    [k]. *)
Fixpoint dict_get (d : list (K * V)) (k : K) : option V :=
  match d with
  | [] => None
  | (k', v) :: rest => if eqb k' k then Some v else dict_get rest k
  end.

(** [d[k] = v]: an existing key keeps its place (and its key object), a new
    key goes last. *)
Fixpoint dict_set (d : list (K * V)) (k : K) (v : V) : list (K * V) :=
  match d with
  | [] => [(k, v)]
  | (k', v') :: rest =>
      if eqb k' k then (k', v) :: rest else (k', v') :: dict_set rest k v
  end.

End Dict.

Module DrillCluster.
Local Open Scope Q_scope.

Definition Qltb (a b : Q) : bool := negb (Qle_bool b a).

(** [min(c)] and [max(c)] of the non-empty list [x :: xs]: the first
    smallest, the first largest element. *)
Definition py_min (x : Q) (xs : list Q) : Q :=
  fold_left (fun m y => if Qltb y m then y else m) xs x.
Definition py_max (x : Q) (xs : list Q) : Q :=
  fold_left (fun m y => if Qltb m y then y else m) xs x.

(** [sorted(l)], [l.sort()]: the stable ascending sort. *)
Fixpoint insert (x : Q) (l : list Q) : list Q :=
  match l with
  | [] => [x]
  | y :: rest => if Qle_bool x y then x :: l else y :: insert x rest
  end.
Definition sorted (l : list Q) : list Q := fold_right insert [] l.

(** ["T{:02d}".format(tool_num)] *)
Definition tool_name (tool_num : nat) : String.string :=
  String.append
    (String.String (Ascii.ascii_of_nat 84) String.EmptyString)
    (String.append
       (if (tool_num <? 10)%nat
        then String.String (Ascii.ascii_of_nat 48) String.EmptyString
        else String.EmptyString)
       (DecimalString.NilZero.string_of_uint (Nat.to_uint tool_num))).

(** The inner loop of [cluster] over the clusters made so far: the clusters
    with [size] appended to the first one it fits, or [None] when the loop
    ends (or breaks on an empty cluster) with [match] still false. *)
Fixpoint place (tolerance : Q) (clusters : list (list Q)) (size : Q)
  : option (list (list Q)) :=
  match clusters with
  | [] => None
  | [] :: _ => None
  | (x :: xs) :: rest =>
      let mn := py_min x xs in
      let mx := py_max x xs in
      if Qle_bool (mx - 2 * tolerance) size
         && Qle_bool size (mn + 2 * tolerance)
      then Some (((x :: xs) ++ [size]) :: rest)
      else option_map (cons (x :: xs)) (place tolerance rest size)
  end.

(** One iteration of [for size in sizes]. *)
Definition add_size (tolerance : Q) (clusters : list (list Q)) (size : Q)
  : list (list Q) :=
  match place tolerance clusters size with
  | Some clusters' => clusters'
  | None => clusters ++ [[size]]
  end.

Definition clusters_of (tolerance : Q) (sizes : list Q) : list (list Q) :=
  fold_left (add_size tolerance) sizes [].

(** The size that stands for the cluster [c]: [(min(c) + max(c)) / 2.0]
    after [c.sort()]; [min] of an empty list raises [ValueError]. *)
Definition new_size (c : list Q) : result Q :=
  match sorted c with
  | [] => Raise ValueError
  | x :: xs => Ok ((py_min x xs + py_max x xs) / 2)
  end.

(** The loop [for c in clusters] that fills [new_drills]. *)
Fixpoint new_drills (clusters : list (list Q)) (tool_num : nat)
    (acc : list (Q * String.string)) : result (list (Q * String.string)) :=
  match clusters with
  | [] => Ok acc
  | c :: rest =>
      let tool_num := S tool_num in
      let new_drill := tool_name tool_num in
      s <- new_size c ;;
      new_drills rest tool_num (dict_set Qeq_bool acc s new_drill)
  end.

(** [cluster(drills, tolerance)]: [drills] maps sizes to tool names.  The
    debug output is left out: its arguments are built from numbers and
    strings with format codes that fit them. *)
Definition cluster (drills : list (Q * String.string)) (tolerance : Q)
  : result (list (Q * String.string)) :=
  new_drills (clusters_of tolerance (sorted (map fst drills))) 0 [].

(** *** [remap] *)

(** A job as [remap] sees it: [xdiam] maps tool names to diameters,
    [xcommands] maps tool names to lists of drill commands. *)
Record Job (C : Type) : Type := mkJob {
  xdiam : list (String.string * Q);
  xcommands : list (String.string * list C)
}.
Arguments mkJob {C} xdiam xcommands.
Arguments xdiam {C} j.
Arguments xcommands {C} j.

(** The search for the best matching tool: [globalToolMap[0]], replaced by
    every later item that is strictly closer to [diam]. *)
Definition closer (diam : Q) (best g : Q * String.string)
  : Q * String.string :=
  if Qltb (Qabs (fst g - diam)) (Qabs (fst best - diam)) then g else best.

Definition best_match (globalToolMap : list (Q * String.string)) (diam : Q)
  : answer (Q * String.string) :=
  match globalToolMap with
  | [] => Throw (Exn IndexError)
  | first :: _ => Return (fold_left (closer diam) globalToolMap first)
  end.

Section Remap.
Context {C : Type}.
Variable globalToolMap : list (Q * String.string).

(** The loop [for tool, diam in job.xdiam.items()] from the items [tools]
    on, with [new_tools] and [new_commands] as built so far.  [temp.extend]
    changes the list that [new_commands] holds; that list is also the one
    the old [job.xcommands] holds for an earlier tool, which is not read
    again. *)
Fixpoint remap_tools (old_commands : list (String.string * list C))
    (tools : list (String.string * Q))
    (new_tools : list (String.string * Q))
    (new_commands : list (String.string * list C))
  : answer (list (String.string * Q) * list (String.string * list C)) :=
  match tools with
  | [] => Return (new_tools, new_commands)
  | (tool, diam) :: rest =>
      '(best_diam, best_tool) <~ best_match globalToolMap diam ;;
      let new_tools := dict_set String.eqb new_tools best_tool best_diam in
      match dict_get String.eqb old_commands tool with
      | None => Throw KeyError
      | Some cmds =>
          let new_commands :=
            match dict_get String.eqb new_commands best_tool with
            | Some temp =>
                dict_set String.eqb new_commands best_tool (temp ++ cmds)
            | None => dict_set String.eqb new_commands best_tool cmds
            end in
          remap_tools old_commands rest new_tools new_commands
      end
  end.

(** The body of [for job in jobs] for one job object. *)
Definition remap_job (j : Job C) : answer (Job C) :=
  '(new_tools, new_commands) <~
     remap_tools (xcommands j) (xdiam j) [] [] ;;
  Return (mkJob new_tools new_commands).

(** [remap(jobs, globalToolMap)].  The job layouts of [jobs] refer to job
    objects, which [remap] changes in place; a job placed several times is
    one object referred to several times.  [store] holds the objects,
    [jobs] the references. *)
Fixpoint remap (jobs : list nat) (store : nat -> Job C)
  : answer (nat -> Job C) :=
  match jobs with
  | [] => Return store
  | r :: rest =>
      j <~ remap_job (store r) ;;
      remap rest (fun r' => if Nat.eqb r' r then j else store r')
  end.

End Remap.

(** *** What the properties speak of *)

(** The keys of a dictionary are pairwise different numbers. *)
Fixpoint distinct (l : list Q) : Prop :=
  match l with
  | [] => True
  | x :: rest => Forall (fun y => ~ x == y) rest /\ distinct rest
  end.

(** The sizes [l], each given the next tool name after number
    [tool_num]: what [cluster] returns when nothing is clustered. *)
Fixpoint renamed (tool_num : nat) (l : list Q)
  : list (Q * String.string) :=
  match l with
  | [] => []
  | s :: rest => (s, tool_name (S tool_num)) :: renamed (S tool_num) rest
  end.

(** Two dictionaries with the same keys as numbers, in the same order, and
    the same values. *)
Definition same_drills (d d' : list (Q * String.string)) : Prop :=
  Forall2 (fun e e' => fst e == fst e' /\ snd e = snd e') d d'.

(** [d] is, of the sizes of [globalToolMap], one of the nearest to
    [diam]. *)
Definition nearest (globalToolMap : list (Q * String.string)) (diam d : Q)
  : Prop :=
  forall g, In g globalToolMap -> Qabs (d - diam) <= Qabs (fst g - diam).

(** Strictly ascending lists. *)
Fixpoint increasing (l : list Q) : Prop :=
  match l with
  | [] => True
  | x :: rest => Forall (Qlt x) rest /\ increasing rest
  end.

(** [r] is the first of the items of [globalToolMap] nearest to [diam]:
    the items before it are strictly farther, the items after it are no
    nearer. *)
Definition first_nearest (globalToolMap : list (Q * String.string))
    (diam : Q) (r : Q * String.string) : Prop :=
  exists before after,
    globalToolMap = before ++ r :: after /\
    Forall (fun e => Qabs (fst r - diam) < Qabs (fst e - diam)) before /\
    Forall (fun e => Qabs (fst r - diam) <= Qabs (fst e - diam)) after.

(** The drill commands of the tools of a job, tool after tool. *)
Definition commands_of {C : Type} (j : Job C) : list C :=
  concat (map (fun e => match dict_get String.eqb (xcommands j) (fst e) with
                        | Some cmds => cmds
                        | None => []
                        end) (xdiam j)).

(** Every tool of [tools] is the best match of its own diameter. *)
Definition settled (globalToolMap : list (Q * String.string))
    (tools : list (String.string * Q)) : Prop :=
  forall t d, In (t, d) tools ->
    best_match globalToolMap d = Return (d, t).

End DrillCluster.

Module DrillExamples.
Import String.StringSyntax.
Local Open Scope string_scope.
Local Open Scope Q_scope.

(** Four drills; with tolerance 1/1000 the two largest make one cluster. *)
Definition four_drills : list (Q * String.string) :=
  [(3 # 100, "T03"); (1 # 100, "T01"); (2 # 100, "T02"); (31 # 1000, "T04")].

(** Three tools over two global tools; tool [A] is as far from [T01] as from
    [T02]. *)
Definition two_tools : list (Q * String.string) :=
  [(1, "T01"); (3, "T02")].
Definition three_tool_job : DrillCluster.Job nat :=
  DrillCluster.mkJob
    [("A", 2); ("B", 1); ("C", 5 # 2)]
    [("A", [1; 2]%nat); ("B", [3]%nat); ("C", [4]%nat)].

(** One job object placed twice, another placed once. *)
Definition job_store (r : nat) : DrillCluster.Job nat :=
  match r with
  | O => three_tool_job
  | _ => DrillCluster.mkJob [("A", 3)] [("A", [5]%nat)]
  end.

End DrillExamples.

(** * Placements: rows and columns of jobs

    Shallow embedding of [src/gerbmerge/src/placement.py]: the classes
    [Panel], [Row] and [Col], the layout loop of [Placement.addFromFile] and
    [Placement.extents].  Lengths are floats, taken as exact rationals:
    the sums that [addwidths], [addheights] and [setPosition] accumulate
    are exact here and rounded in Python, so the properties stated of this
    part rest on which positions are set and on the order of the values
    [extents] compares, not on the value of a sum. *)

Module Placement.
Local Open Scope Q_scope.

(** The class [JobLayout] of module [jobs] is not part of these sources;
    it is taken by the methods and attributes this file uses. *)
Class JobLayoutOps (J : Type) : Type := {
  job_width_in : J -> Q;
  job_height_in : J -> Q;
  job_setPosition : J -> Q -> Q -> J;
  job_canonicalize : J -> list J;
  job_x : J -> option Q;          (* the attribute [x], [None] until set *)
  job_y : J -> option Q
}.

(** A [JobLayout], a [Row] or a [Col]; the latter two with their
    attributes [x], [y] and [jobs]. *)
#[warnings="-register-all"]
Inductive panel (J : Type) : Type :=
| Board (j : J)
| Row (x y : option Q) (jobs : list (panel J))
| Col (x y : option Q) (jobs : list (panel J)).
Arguments Board {J} j.
Arguments Row {J} x y jobs.
Arguments Col {J} x y jobs.

(** [max(a, b)]: [b] when it is larger, else [a]. *)
Definition max2 (a b : Q) : Q := if DrillCluster.Qltb a b then b else a.

Section Defs.
Context {J : Type} {ops : JobLayoutOps J}.
(** [config.Config['xspacing']], [config.Config['yspacing']] *)
Variables xspacing yspacing : Q.

(** [Panel.addwidths], [maxwidths], [addheights], [maxheights] over the
    widths (heights) that the members of [self.jobs] answer. *)
Definition addwidths (widths : list Q) : Q :=
  fold_left (fun width w => width + (w + xspacing)) widths 0 - xspacing.
Definition maxwidths (widths : list Q) : Q :=
  fold_left max2 widths 0.
Definition addheights (heights : list Q) : Q :=
  fold_left (fun height h => height + (h + yspacing)) heights 0 - yspacing.
Definition maxheights (heights : list Q) : Q :=
  fold_left max2 heights 0.

Fixpoint width_in (p : panel J) : Q :=
  match p with
  | Board j => job_width_in j
  | Row _ _ jobs => addwidths (map width_in jobs)
  | Col _ _ jobs => maxwidths (map width_in jobs)
  end.

Fixpoint height_in (p : panel J) : Q :=
  match p with
  | Board j => job_height_in j
  | Row _ _ jobs => maxheights (map height_in jobs)
  | Col _ _ jobs => addheights (map height_in jobs)
  end.

(** [setPosition]: the object changed in place is the panel returned. *)
Fixpoint setPosition (p : panel J) (x y : Q) : panel J :=
  match p with
  | Board j => Board (job_setPosition j x y)
  | Row _ _ jobs =>
      Row (Some x) (Some y)
        ((fix place (jobs : list (panel J)) (x : Q) : list (panel J) :=
            match jobs with
            | [] => []
            | job :: rest =>
                let job' := setPosition job x y in
                job' :: place rest (x + (width_in job' + xspacing))
            end) jobs x)
  | Col _ _ jobs =>
      Col (Some x) (Some y)
        ((fix place (jobs : list (panel J)) (y : Q) : list (panel J) :=
            match jobs with
            | [] => []
            | job :: rest =>
                let job' := setPosition job x y in
                job' :: place rest (y + (height_in job' + yspacing))
            end) jobs y)
  end.

Fixpoint canonicalize (p : panel J) : list J :=
  match p with
  | Board j => job_canonicalize j
  | Row _ _ jobs => fold_left (fun L job => L ++ job) (map canonicalize jobs) []
  | Col _ _ jobs => fold_left (fun L job => L ++ job) (map canonicalize jobs) []
  end.

(** The layout loop of [Placement.addFromFile] over the parsed [rows],
    from the height [y] on: only a [Row] is positioned. *)
Fixpoint position_rows (rows : list (panel J)) (x y : Q) : list (panel J) :=
  match rows with
  | [] => []
  | Row rx ry jobs :: rest =>
      let row := setPosition (Row rx ry jobs) x y in
      row :: position_rows rest x (y + (height_in row + yspacing))
  | row :: rest => row :: position_rows rest x y
  end.

(** [addFromFile] after the file is parsed: the job layouts added to
    [self.jobs]. *)
Definition addFromFile (rows : list (panel J))
    (OriginX OriginY leftmargin bottommargin : Q) : list J :=
  let x := OriginX + leftmargin in
  let y := OriginY + bottommargin in
  fold_left (fun jobs row => jobs ++ canonicalize row)
            (position_rows rows x y) [].

(** [Placement.extents]; adding a width to the position [None] raises
    [TypeError]. *)
Fixpoint extents_from (jobs : list J) (maxX maxY : Q) : answer (Q * Q) :=
  match jobs with
  | [] => Return (maxX, maxY)
  | job :: rest =>
      match job_x job with
      | None => Throw TypeError
      | Some x =>
          let maxX := max2 maxX (x + job_width_in job) in
          match job_y job with
          | None => Throw TypeError
          | Some y =>
              let maxY := max2 maxY (y + job_height_in job) in
              extents_from rest maxX maxY
          end
      end
  end.

Definition extents (jobs : list J) : answer (Q * Q) := extents_from jobs 0 0.

(** *** What the properties speak of *)

(** Both coordinates of the job layout are set. *)
Definition positioned (j : J) : Prop := job_x j <> None /\ job_y j <> None.

End Defs.

(** A job layout as a record: a size and a position. *)
Record placed : Type := mkPlaced {
  pw : Q; ph : Q; px : option Q; py : option Q
}.

#[global] Instance placed_ops : JobLayoutOps placed := {|
  job_width_in := pw;
  job_height_in := ph;
  job_setPosition := fun j x y => mkPlaced (pw j) (ph j) (Some x) (Some y);
  job_canonicalize := fun j => [j];
  job_x := px;
  job_y := py
|}.

End Placement.

Module PlacementExamples.
Import Placement.
Local Open Scope Q_scope.

Definition board (w h : Q) : panel placed := Board (mkPlaced w h None None).

(** A row of a 2 x 1 board and a column of two boards, 1 x 1 and 3 x 2. *)
Definition row_with_column : panel placed :=
  Row None None [board 2 1; Col None None [board 1 1; board 3 2]].

(** A layout file with a row, a column and a second row at top level. *)
Definition three_rows : list (panel placed) :=
  [Row None None [board 2 1]; Col None None [board 1 1];
   Row None None [board 1 1; board 1 2]].

End PlacementExamples.

(** * Panelizing the jobs: [tile_jobs] and [tile_search_exhaustive]

    Shallow embedding of the two functions of
    [src/gerbmerge/src/gerbmerge.py].  [tile_jobs] starts here from the list
    [L] of 4-tuples it has built (it builds them with the modules [schwartz]
    and [jobs], which are not part of these sources).  A [KeyboardInterrupt]
    is not part of the embedding of [tile_search_exhaustive]. *)

Module Gerbmerge.
Section Defs.
Context {T : Type} {ops : TilingOps T}.
Variable clock : nat -> Z.
(** [tiling.maxUtilization], of the module that is not part of these
    sources: a number, or an exception. *)
Variable maxUtilization : list Job -> Z -> Z -> result Z.

(** [tile_search_exhaustive]; [period] is the value drawn in the
    constructor of the search, [w] counts the clock readings.  The printed
    lines are left out; the one that is computed is that of
    [maxUtilization]. *)
Definition tile_search_exhaustive (Jobs : list Job)
    (X Y xspacing yspacing searchTimeout period : Z) (w : nat)
  : result (option T * nat) :=
  let '(p, s0, w0) :=
    ExhaustiveSearch.init clock Jobs X Y xspacing yspacing searchTimeout
      None period w in
  _ <- maxUtilization Jobs xspacing yspacing ;;
  r <- ExhaustiveSearch.run clock p true (s0, w0) ;;
  Ok (ExhaustiveSearch.bestTiling (fst r), snd r).

(** [tile_jobs] from the list [L] on.  [random] is what the queue delivers
    to [tile_search_random] when [config.AutoSearchType] is
    [RANDOM_SEARCH], and [None] for the exhaustive search. *)
Definition tile_jobs
    (random : option (list (list (Z * option T)) * list (Z * option T)))
    (L : list Job) (PX PY xspacing yspacing SearchTimeout period : Z)
    (w : nat) : answer T :=
  let tile :=
    match random with
    | Some (found, last) => Coordinator.tile_search_random clock found last w
    | None =>
        r <- tile_search_exhaustive L PX PY xspacing yspacing SearchTimeout
               period w ;;
        Ok (fst r)
    end in
  match tile with
  | Raise e => Throw (Exn e)
  | Ok None => Throw RuntimeError
  | Ok (Some t) => if truthy t then Return t else Throw RuntimeError
  end.

End Defs.
End Gerbmerge.

(** * Excellon tool lists

    Shallow embedding of [parseToolList] of
    [src/gerbmerge/src/excellon.py].  A file is the list of its lines, a
    line a string of characters with codes below 256. *)

Module Excellon.
Import Ascii.AsciiSyntax String.StringSyntax.
Local Open Scope string_scope.
Delimit Scope char_scope with char.




(** [tool[1:]] *)
Definition from_1 (s : String.string) : String.string :=
  match s with
  | String.EmptyString => String.EmptyString
  | String.String _ rest => rest
  end.

Section Defs.
(** [units_pat.match(line)] and its groups, of module [re]; [float(s)]. *)
Variable units_pat_match
  : String.string -> option (String.string * String.string * String.string).
Variable float : String.string -> option Q.




End Defs.


End Excellon.

(** * Apertures and the aperture table

    Shallow embedding of the class [Aperture] and of the table functions of
    [src/gerbmerge/src/aptable.py], and of [buildRevDict] of
    [src/gerbmerge/src/config.py].  An aperture has one of the five types
    of the tuple [Apertures]; its [dimx] is a number or, for a macro, the
    name of the macro; its [dimy] is a number or [None]. *)

Module Aptable.
Import String.StringSyntax.
Local Open Scope string_scope.

Inductive aptype : Type := Rectangle | Circle | Oval | Octagon | Macro.

Definition apname (t : aptype) : String.string :=
  match t with
  | Rectangle => "Rectangle"
  | Circle => "Circle"
  | Oval => "Oval"
  | Octagon => "Octagon"
  | Macro => "Macro"
  end.

Inductive dim : Type :=
| Num (q : Q)
| Name (s : String.string).

Record Aperture : Type := mkAperture {
  type_of : aptype;
  code : String.string;
  dimx : dim;
  dimy : option Q
}.

(** [Aperture.__init__] with its assertion on [dimy]. *)
Definition Aperture_init (t : aptype) (code : String.string) (dimx : dim)
    (dimy : option Q) : answer Aperture :=
  match t, dimy with
  | (Circle | Octagon | Macro), Some _ => Throw AssertionError
  | _, _ => Return (mkAperture t code dimx dimy)
  end.

(** [d < minimum]: a macro name does not compare with a number. *)
Definition below_minimum (d : dim) (minimum : Q) : answer bool :=
  match d with
  | Num q => Return (DrillCluster.Qltb q minimum)
  | Name _ => Throw TypeError
  end.

(** [Aperture.getAdjusted]: the new aperture, or [None] for [False]. *)
Definition getAdjusted (a : Aperture) (minimum : Q)
  : answer (option Aperture) :=
  small_x <~ below_minimum (dimx a) minimum ;;
  let new_dimx := if small_x then Some minimum else None in
  small_y <~ match dimy a with
             | Some _ => below_minimum (dimx a) minimum
             | None => Return false
             end ;;
  let new_dimy := if small_y then Some minimum else None in
  match new_dimx, new_dimy with
  | None, None => Return None
  | _, _ =>
      let new_dimx :=
        match new_dimx with Some m => Num m | None => dimx a end in
      let new_dimy :=
        match new_dimy with Some m => Some m | None => dimy a end in
      a' <~ Aperture_init (type_of a) (code a) new_dimx new_dimy ;;
      Return (Some a')
  end.

Section Defs.
(** Of Python: ["{:.5f}".format(q)], [int(s)] and ["{:d}".format(n)]. *)
Variable format_5f : Q -> String.string.
Variable int_of_str : String.string -> result Z.
Variable str_of_int : Z -> String.string.
(** [util.in2gerb], of a module that is not part of these sources. *)
Variable in2gerb : option dim -> result Z.

Definition truthy_dim (d : option Q) : bool :=
  match d with
  | Some q => negb (Qeq_bool q 0)
  | None => false
  end.

(** [Aperture.hash]; a format code given a value of the wrong type raises
    [ValueError]. *)
Definition hash (a : Aperture) : result String.string :=
  let name := apname (type_of a) in
  if truthy_dim (dimy a) then
    match dimx a, dimy a with
    | Num x, Some y =>
        Ok (String.append name
              (String.append " ("
                 (String.append (format_5f x)
                    (String.append " x "
                       (String.append (format_5f y) ")")))))
    | _, _ => Raise ValueError
    end
  else
    match type_of a, dimx a with
    | Macro, Name s =>
        Ok (String.append name (String.append " (" (String.append s ")")))
    | Macro, Num _ => Raise ValueError
    | _, Num x =>
        Ok (String.append name
              (String.append " (" (String.append (format_5f x) ")")))
    | _, Name _ => Raise ValueError
    end.

(** [Aperture.rectangleAsRect]: the quotients are exact, each float is
    kept as the integer it equals. *)
Definition rectangleAsRect (a : Aperture) (X Y : Z)
  : result (Z * Z * Z * Z) :=
  dx <- in2gerb (Some (dimx a)) ;;
  dy <- in2gerb (option_map Num (dimy a)) ;;
  let '(xm, xp) :=
    if negb (Z.land dx 1 =? 0) then ((dx + 1) / 2, (dx + 1) / 2 - 1)
    else (dx / 2, dx / 2) in
  let '(ym, yp) :=
    if negb (Z.land dy 1 =? 0) then ((dy + 1) / 2, (dy + 1) / 2 - 1)
    else (dy / 2, dy / 2) in
  Ok (X - xm, Y - ym, X + xp, Y + yp).

(** [[int(K[1:]) for K in keys]] *)
Fixpoint codes_of (keys : list String.string) : result (list Z) :=
  match keys with
  | [] => Ok []
  | K :: rest =>
      n <- int_of_str (Excellon.from_1 K) ;;
      ns <- codes_of rest ;;
      Ok (n :: ns)
  end.

(** [keys.sort()] on integers. *)
Fixpoint insert_int (x : Z) (l : list Z) : list Z :=
  match l with
  | [] => [x]
  | y :: rest => if x <=? y then x :: l else y :: insert_int x rest
  end.
Definition sort_ints (l : list Z) : list Z := fold_right insert_int [] l.

(** [keys[-1]] *)
Definition last_of (l : list Z) : result Z :=
  match rev l with
  | [] => Raise IndexError
  | x :: _ => Ok x
  end.

Definition findHighestApertureCode (keys : list String.string) : result Z :=
  ns <- codes_of keys ;;
  last_of (sort_ints ns).

Definition GAT_t : Type := list (String.string * Aperture).

Definition with_code (AP : Aperture) (c : String.string) : Aperture :=
  mkAperture (type_of AP) c (dimx AP) (dimy AP).

(** [addToApertureTable]: the code, with [AP] and [GAT] as it leaves
    them. *)
Definition addToApertureTable (AP : Aperture) (GAT : GAT_t)
  : result (String.string * Aperture * GAT_t) :=
  lastCode <- findHighestApertureCode (map fst GAT) ;;
  let c := String.append "D" (str_of_int (lastCode + 1)) in
  let AP' := with_code AP c in
  Ok (c, AP', dict_set String.eqb GAT c AP').

(** The loop of [findInApertureTable]. *)
Fixpoint find_hash (h : String.string) (items : GAT_t)
  : result (option String.string) :=
  match items with
  | [] => Ok None
  | (key, val) :: rest =>
      h' <- hash val ;;
      if String.eqb h h' then Ok (Some key) else find_hash h rest
  end.

Definition findInApertureTable (AP : Aperture) (GAT : GAT_t)
  : result (option String.string) :=
  h <- hash AP ;;
  find_hash h GAT.

(** [findOrAddAperture]; [if code:] is false for [None] and for the empty
    string. *)
Definition findOrAddAperture (AP : Aperture) (GAT : GAT_t)
  : result (String.string * Aperture * GAT_t) :=
  found <- findInApertureTable AP GAT ;;
  match found with
  | Some c =>
      if negb (String.eqb c "") then Ok (c, with_code AP c, GAT)
      else addToApertureTable AP GAT
  | None => addToApertureTable AP GAT
  end.

End Defs.

(** [config.buildRevDict]: the dictionary from the hash of every value of
    [D] to its key. *)
Section RevDict.
Context {V : Type}.
Variable hash_of : V -> result String.string.

Fixpoint buildRevDict_from (items : list (String.string * V))
    (RevD : list (String.string * String.string))
  : result (list (String.string * String.string)) :=
  match items with
  | [] => Ok RevD
  | (key, val) :: rest =>
      h <- hash_of val ;;
      buildRevDict_from rest (dict_set String.eqb RevD h key)
  end.

Definition buildRevDict (D : list (String.string * V))
  : result (list (String.string * String.string)) :=
  buildRevDict_from D [].

End RevDict.

(** *** What the properties speak of *)

Fixpoint ascending (l : list Z) : Prop :=
  match l with
  | [] => True
  | x :: rest => Forall (Z.le x) rest /\ ascending rest
  end.

(** ["{:d}".format(n)], and [int(s)] on decimal numerals. *)
Definition decimal (n : Z) : String.string :=
  DecimalString.NilZero.string_of_int (Z.to_int n).
Definition of_decimal (s : String.string) : result Z :=
  match DecimalString.NilZero.int_of_string s with
  | Some d => Ok (Z.of_int d)
  | None => Raise ValueError
  end.

(** A table of two apertures and a rectangle that is not in it. *)
Definition two_apertures : GAT_t :=
  [("D10", mkAperture Circle "D10" (Num (1 # 100)) None);
   ("D12", mkAperture Rectangle "D12" (Num (2 # 100)) (Some (3 # 100)))].
Definition thin_rectangle : Aperture :=
  mkAperture Rectangle "D3" (Num (1 # 1000)) (Some (5 # 100)).

(** A stand-in for ["{:.5f}".format(q)]: the numerator and the denominator
    of [q] in lowest terms. *)
Definition fraction (q : Q) : String.string :=
  String.append (decimal (Qnum (Qred q)))
    (String.append "/" (decimal (Zpos (Qden (Qred q))))).

End Aptable.

(** * What a worker of the random search reports

    Further notions for [RandomSearch.run] of
    [src/gerbmerge/src/tilesearch.py]. *)

Module Worker.
Section Defs.
Context {T : Type} {R : Type}.

(** The environment a run observed for some trials has reached. *)
Definition env_of
    (r : (RandomSearch.state (T := T) * RandomSearch.env (T := T) (R := R))
         + (RandomSearch.state (T := T) * RandomSearch.locals
            * RandomSearch.env (T := T) (R := R)))
  : RandomSearch.env (T := T) (R := R) :=
  match r with
  | inl (_, e) => e
  | inr (_, _, e) => e
  end.

(** The placements made since the last message: none once [run] has
    returned, for it returns right after a message. *)
Definition pending
    (r : (RandomSearch.state (T := T) * RandomSearch.env (T := T) (R := R))
         + (RandomSearch.state (T := T) * RandomSearch.locals
            * RandomSearch.env (T := T) (R := R))) : Z :=
  match r with
  | inl _ => 0
  | inr (_, l, _) => RandomSearch.placementsSinceLastCheck l
  end.

(** The placements that the messages report. *)
Definition reported (msgs : list (Z * option T)) : Z :=
  fold_right (fun m a => fst m + a) 0 msgs.

End Defs.
End Worker.

(** * The tools of the panel

    Shallow embedding of the part of [merge] in
    [src/gerbmerge/src/gerbmerge.py] that numbers the drill tools: the
    diameters of all jobs that have no tool yet are collected, sorted and
    named in that order. *)

Module Tools.
Local Open Scope Q_scope.

(** [diam in config.GlobalToolRMap] *)
Definition has_key (RMap : list (Q * String.string)) (diam : Q) : bool :=
  match dict_get Qeq_bool RMap diam with
  | Some _ => true
  | None => false
  end.

(** The loops that fill [allToolDiam]; [Jobs] holds the dictionary [xdiam]
    of every job of [config.Jobs]. *)
Definition allToolDiam (Jobs : list (list (String.string * Q)))
    (RMap : list (Q * String.string)) : list Q :=
  flat_map (fun xdiam =>
              filter (fun diam => negb (has_key RMap diam)) (map snd xdiam))
           Jobs.

(** The loop [for d in allToolDiam] from tool number [toolNum] on. *)
Fixpoint number (diams : list Q) (toolNum : nat)
    (RMap : list (Q * String.string)) : list (Q * String.string) :=
  match diams with
  | [] => RMap
  | d :: rest =>
      number rest (S toolNum)
             (dict_set Qeq_bool RMap d (DrillCluster.tool_name toolNum))
  end.

(** [config.GlobalToolRMap] after the numbering. *)
Definition number_tools (Jobs : list (list (String.string * Q)))
    (RMap : list (Q * String.string)) : list (Q * String.string) :=
  number (DrillCluster.sorted (allToolDiam Jobs RMap)) 1 RMap.

End Tools.

(** * Properties *)

Lemma score_ltb_irrefl a : score_ltb a a = false.
Proof. destruct a; simpl; [apply Z.ltb_irrefl | reflexivity]. Qed.

Lemma score_le_refl a : score_le a a.
Proof. apply score_ltb_irrefl. Qed.

Lemma score_lt_le a b : score_lt a b -> score_le a b.
Proof.
  unfold score_lt, score_le. destruct a, b; simpl; try congruence; lia.
Qed.

Lemma score_le_trans a b c : score_le a b -> score_le b c -> score_le a c.
Proof.
  unfold score_le. destruct a, b, c; simpl; try congruence; lia.
Qed.

Lemma bind_ok {A B} (m : result A) (k : A -> result B) b :
  bind m k = Ok b -> exists a, m = Ok a /\ k a = Ok b.
Proof. destruct m; simpl; [eauto | discriminate]. Qed.

(** ** The exhaustive search keeps a consistent, improving best tiling *)

Module ExhaustiveFacts.
Import ExhaustiveSearch.
Section Facts.
Context {T : Type} {ops : TilingOps T}.
Variable clock : nat -> Z.
Variable p : params (T := T).
(** [__init__] sets [possiblePermutations] to a product of positive ints. *)
Hypothesis possible_nonzero : possiblePermutations p <> 0.

Lemma lex_le_refl (a : T) : lex_le a a.
Proof. right; split; [reflexivity | lia]. Qed.

Lemma lex_le_trans (a b c : T) : lex_le a b -> lex_le b c -> lex_le a c.
Proof. unfold lex_le; intros [H | [H1 H2]] [K | [K1 K2]]; lia. Qed.

Lemma improves_refl s : improves s s.
Proof. intros L H; exact H. Qed.

Lemma improves_trans s1 s2 s3 :
  improves s1 s2 -> improves s2 s3 -> improves s1 s3.
Proof. intros H K L D; apply K, H, D. Qed.

Lemma post_refl ps s : consistent s -> post clock p ps (fun _ => False) s s.
Proof.
  intros C; split; [exact C | apply improves_refl | left; reflexivity |].
  intros _ L [].
Qed.

Lemma post_seq ps P Q s s1 s2 :
  post clock p ps P s s1 -> post clock p ps Q s1 s2 -> post clock p ps (fun L => P L \/ Q L) s s2.
Proof.
  intros [C1 I1 F1 V1] [C2 I2 F2 V2]; split.
  - exact C2.
  - eapply improves_trans; eassumption.
  - destruct F2 as [E | (b & E & Hb)].
    + destruct F1 as [E1 | (b & E1 & Hb)].
      * left; congruence.
      * right; exists b; split; [congruence | left; exact Hb].
    + right; exists b; split; [exact E | right; exact Hb].
  - intros Hc L [HL | HL]; [apply I2, V1; assumption | apply V2; assumption].
Qed.

Lemma post_equiv ps P Q s s' :
  (forall L, P L <-> Q L) -> post clock p ps P s s' -> post clock p ps Q s s'.
Proof.
  intros E [C I F V]; split; try assumption.
  - destruct F as [F | (b & F & Hb)]; [left; exact F |].
    right; exists b; split; [exact F | apply E, Hb].
  - intros Hc L HL; apply V; [exact Hc | apply E, HL].
Qed.

(** Only the best tiling and its score matter. *)
Lemma post_same_best ps P s s1 s2 :
  post clock p ps P s s1 ->
  bestTiling s2 = bestTiling s1 -> bestScore s2 = bestScore s1 ->
  post clock p ps P s s2.
Proof.
  intros [C I F V] Et Es; split.
  - unfold consistent in *; rewrite Et, Es; exact C.
  - intros L D; destruct (I L D) as (b & Hb & Hl); exists b; split; congruence.
  - unfold from in *; rewrite Et; exact F.
  - intros Hc L HL; destruct (V Hc L HL) as (b & Hb & Hl).
    exists b; split; congruence.
Qed.

Lemma leaf_post ps tiles first s :
  consistent s ->
  exists s', leaf tiles first s = Ok s' /\
             post clock p ps (fun L => L = tiles) s s' /\
             lastCheckTime s' = lastCheckTime s.
Proof.
  intros C. unfold leaf, consistent in *.
  destruct s as [bt bs pm lc]; simpl in *.
  destruct bt as [b |]; subst bs; simpl.
  - destruct (Z.ltb_spec (area tiles) (area b)) as [Hlt | Hge]; simpl.
    + eexists; split; [reflexivity | split; [| destruct first; reflexivity]].
      split.
      * destruct first; reflexivity.
      * intros L (b' & E & Hl); simpl in E; injection E as <-.
        exists tiles; split; [destruct first; reflexivity |].
        eapply lex_le_trans; [left; exact Hlt | exact Hl].
      * right; exists tiles; split; [destruct first |]; reflexivity.
      * intros _ L ->; exists tiles; split;
          [destruct first; reflexivity | apply lex_le_refl].
    + destruct (Z.eqb_spec (area tiles) (area b)) as [Heq | Hne]; simpl.
      * destruct (Z.ltb_spec (corners tiles) (corners b)) as [Hc | Hc].
        -- eexists; split; [reflexivity | split; [| destruct first; reflexivity]].
           split.
           ++ destruct first; reflexivity.
           ++ intros L (b' & E & Hl); simpl in E; injection E as <-.
              exists tiles; split; [destruct first; reflexivity |].
              eapply lex_le_trans; [right; split; [exact Heq | lia] | exact Hl].
           ++ right; exists tiles; split; [destruct first |]; reflexivity.
           ++ intros _ L ->; exists tiles; split;
                [destruct first; reflexivity | apply lex_le_refl].
        -- eexists; split; [reflexivity | split; [| destruct first; reflexivity]].
           split.
           ++ destruct first; simpl; reflexivity.
           ++ intros L (b' & E & Hl); simpl in E; injection E as <-.
              exists b; split; [destruct first; reflexivity | exact Hl].
           ++ left; destruct first; reflexivity.
           ++ intros _ L ->; exists b; split; [destruct first; reflexivity |].
              right; split; [symmetry; exact Heq | lia].
      * eexists; split; [reflexivity | split; [| destruct first; reflexivity]].
        split.
        -- destruct first; simpl; reflexivity.
        -- intros L (b' & E & Hl); simpl in E; injection E as <-.
           exists b; split; [destruct first; reflexivity | exact Hl].
        -- left; destruct first; reflexivity.
        -- intros _ L ->; exists b; split; [destruct first; reflexivity |].
           left; lia.
  - eexists; split; [reflexivity | split; [| destruct first; reflexivity]].
    split.
    + destruct first; reflexivity.
    + intros L (b' & E & _); discriminate.
    + right; exists tiles; split; [destruct first |]; reflexivity.
    + intros _ L ->; exists tiles; split;
        [destruct first; reflexivity | apply lex_le_refl].
Qed.

Variable Good : T -> Prop.

Lemma outcome_bind {A B : Type} ps (m : result A) (k : A -> result B)
    (Q : A -> Prop) (Q' : B -> Prop) :
  outcome ps Good m Q ->
  (forall a, Q a -> outcome ps Good (k a) Q') ->
  outcome ps Good (bind m k) Q'.
Proof. destruct m; simpl; auto. Qed.

Lemma outcome_weaken {A : Type} ps (m : result A) (Q Q' : A -> Prop) :
  (forall a, Q a -> Q' a) -> outcome ps Good m Q -> outcome ps Good m Q'.
Proof. destruct m; simpl; auto. Qed.

Lemma post_anchored ps P s s' :
  post clock p ps P s s' -> anchored Good s -> (forall L, P L -> Good L) ->
  anchored Good s'.
Proof.
  intros [_ _ F _] A G b Hb.
  destruct F as [F | (b' & F & Hb')].
  - apply A; congruence.
  - apply G; congruence.
Qed.

Lemma str_spec s :
  anchored Good s -> outcome true Good (__str__ p s) (fun _ => True).
Proof.
  intros A. unfold __str__.
  apply outcome_bind with (Q := fun _ => True).
  - destruct (bestTiling s) as [b |] eqn:Hb; [| exact I].
    destruct (truthy b) eqn:Ht; [| exact I].
    unfold truediv. destruct (Z.eqb_spec (area b) 0) as [Hz | Hz];
      cbn [bind outcome]; [| exact I].
    split; [reflexivity | left; split; [reflexivity |]].
    exists b; split; [apply A; exact Hb | split; assumption].
  - intros _ _. destruct (permutations s >? 0); [| exact I].
    unfold float_of_int.
    destruct (float_range (permutations s)); cbn [bind outcome];
      [| split; [reflexivity | right; reflexivity]].
    destruct (float_range (possiblePermutations p)); cbn [bind outcome];
      [| split; [reflexivity | right; reflexivity]].
    unfold truediv.
    destruct (Z.eqb_spec (possiblePermutations p) 0); [contradiction |].
    exact I.
Qed.

Lemma sync_check_spec ps s w :
  anchored Good s ->
  outcome ps Good (sync_check clock p ps (s, w))
    (fun r => bestTiling (fst (snd r)) = bestTiling s /\
              bestScore (fst (snd r)) = bestScore s /\
              permutations (fst (snd r)) = permutations s /\
              (no_timeout clock p ps -> fst r = false)).
Proof.
  intros A. unfold sync_check, time. destruct ps; [| simpl; repeat split].
  destruct (clock w >? lastCheckTime s + syncPeriod p); [| simpl; repeat split].
  match goal with |- context [__str__ p ?s1] =>
    pose proof (str_spec s1 A) as Hs; destruct (__str__ p s1) as [[] | e]
  end; cbn [bind]; [| exact Hs].
  destruct (Z.gtb_spec (searchTimeout p) 0) as [Hp | Hp]; simpl.
  - repeat split; try assumption.
    intros [H | [H | H]]; [discriminate | lia |].
    specialize (H (S (S w))).
    destruct (Z.gtb_spec (clock (S (S w)) - startTime p)
                         (searchTimeout p)); [lia | reflexivity].
  - repeat split; assumption.
Qed.

Lemma prune_best js first (s : @state T) :
  bestTiling (prune js first s) = bestTiling s /\
  bestScore (prune js first s) = bestScore s.
Proof. unfold prune; destruct first; split; reflexivity. Qed.

Lemma place_all_post ps rec d remaining_jobs tiles w h jb first p0 pts s w0 :
  rec_ok clock p Good ps rec d -> (length remaining_jobs <= d)%nat ->
  consistent s -> anchored Good s ->
  (forall pt L, In pt pts ->
     leaf_of (xspacing p) (yspacing p) remaining_jobs
       (addJob (clone tiles) pt w h jb) L -> Good L) ->
  outcome ps Good
    (place_all rec remaining_jobs tiles w h jb first p0 pts (s, w0))
    (fun r => post clock p ps
                (fun L => exists pt, In pt pts /\
                   leaf_of (xspacing p) (yspacing p) remaining_jobs
                     (addJob (clone tiles) pt w h jb) L) s (fst r)).
Proof.
  intros Hrec Hlen. revert s w0.
  induction pts as [| ix rest IH]; intros s w0 C A G; simpl.
  - eapply post_equiv; [| apply post_refl; exact C].
    intros L; split; [intros [] | intros (pt & [] & _)].
  - eapply outcome_bind.
    + apply Hrec; [exact Hlen | exact C | exact A |].
      intros L HL; apply (G ix L); [left; reflexivity | exact HL].
    + intros [s1 w1] P1; cbn [fst] in P1.
      eapply outcome_weaken; [| apply IH].
      * intros [s2 w2] P2; cbn [fst] in *.
        eapply post_equiv; [| eapply post_seq; eassumption].
        intros L; simpl; split.
        -- intros [H | (pt & Hin & H)].
           ++ exists ix; split; [left; reflexivity | exact H].
           ++ exists pt; split; [right; exact Hin | exact H].
        -- intros (pt & [-> | Hin] & H); [left; exact H |].
           right; exists pt; split; assumption.
      * exact (post_consistent _ _ _ _ _ _ P1).
      * eapply post_anchored; [exact P1 | exact A |].
        intros L HL; apply (G ix L); [left; reflexivity | exact HL].
      * intros pt L Hin HL; apply (G pt L); [right; exact Hin | exact HL].
Qed.

Lemma variant_post ps rec d remaining_jobs tiles w h jb first pts s w0 :
  rec_ok clock p Good ps rec d -> (length remaining_jobs <= d)%nat ->
  consistent s -> anchored Good s ->
  (forall pt L, In pt pts ->
     leaf_of (xspacing p) (yspacing p) remaining_jobs
       (addJob (clone tiles) pt w h jb) L -> Good L) ->
  outcome ps Good
    (variant rec remaining_jobs tiles w h jb first pts (s, w0))
    (fun r => post clock p ps
                (fun L => exists pt, In pt pts /\
                   leaf_of (xspacing p) (yspacing p) remaining_jobs
                     (addJob (clone tiles) pt w h jb) L) s (fst r)).
Proof.
  intros Hrec Hlen C A G. destruct pts as [| p0 rest].
  - simpl.
    destruct (prune_best remaining_jobs first s) as [Et Es].
    eapply post_same_best; [| exact Et | exact Es].
    eapply post_equiv; [| apply post_refl; exact C].
    intros L; split; [intros [] | intros (pt & [] & _)].
  - unfold variant. apply (place_all_post ps rec d); assumption.
Qed.

Lemma remaining_length (Jobs : list Job) ix :
  (ix < length Jobs)%nat -> length (remaining Jobs ix) = pred (length Jobs).
Proof.
  intros H. unfold remaining.
  rewrite length_app, length_firstn, length_skipn. lia.
Qed.

Lemma job_body_post ps rec d Jobs tiles first ix s w0 :
  rec_ok clock p Good ps rec d -> (length Jobs <= S d)%nat ->
  (ix < length Jobs)%nat -> consistent s -> anchored Good s ->
  (forall L, leaves_at p Jobs tiles ix L -> Good L) ->
  outcome ps Good (job_body clock p rec Jobs tiles first ps ix (s, w0))
    (fun r => post clock p ps (leaves_at p Jobs tiles ix) s (fst (snd r)) /\
              (no_timeout clock p ps -> fst r = false)).
Proof.
  intros Hrec Hlen Hix C A G.
  destruct (nth_error Jobs ix) as [j |] eqn:Hj;
    [| apply nth_error_None in Hj; lia].
  assert (Hrem : (length (remaining Jobs ix) <= d)%nat)
    by (rewrite remaining_length by exact Hix; lia).
  assert (G1 : forall pt L,
             In pt (validAddPoints tiles (Xdim j + xspacing p)
                      (Ydim j + yspacing p)) ->
             leaf_of (xspacing p) (yspacing p) (remaining Jobs ix)
               (addJob (clone tiles) pt (Xdim j + xspacing p)
                  (Ydim j + yspacing p) (job j)) L -> Good L).
  { intros pt L Hin HL; apply G. exists j; split; [exact Hj |].
    left; exists pt; split; assumption. }
  assert (G2 : forall pt L,
             In pt (if negb (Xdim j =? Ydim j)
                    then validAddPoints tiles (Ydim j + xspacing p)
                           (Xdim j + yspacing p)
                    else []) ->
             leaf_of (xspacing p) (yspacing p) (remaining Jobs ix)
               (addJob (clone tiles) pt (Ydim j + xspacing p)
                  (Xdim j + yspacing p) (rjob j)) L -> Good L).
  { intros pt L Hin HL; apply G. exists j; split; [exact Hj |].
    destruct (Z.eqb_spec (Xdim j) (Ydim j)) as [Heq | Hne]; simpl in Hin;
      [destruct Hin |].
    right; split; [exact Hne | exists pt; split; assumption]. }
  unfold job_body; rewrite Hj.
  eapply outcome_bind;
    [apply (variant_post ps rec d); [exact Hrec | exact Hrem | exact C
                                     | exact A | exact G1] |].
  intros [s1 w1] P1; cbn [fst] in P1.
  assert (A1 : anchored Good s1).
  { eapply post_anchored; [exact P1 | exact A |].
    intros L (pt & Hin & HL); exact (G1 pt L Hin HL). }
  eapply outcome_bind;
    [apply (variant_post ps rec d);
       [exact Hrec | exact Hrem | exact (post_consistent _ _ _ _ _ _ P1)
        | exact A1 | exact G2] |].
  intros [s2 w2] P2; cbn [fst] in P2.
  assert (P12 : post clock p ps (leaves_at p Jobs tiles ix) s s2).
  { eapply post_equiv; [| eapply post_seq; eassumption].
    intros L; simpl; split.
    - intros [(pt & Hin & HL) | (pt & Hin & HL)].
      + exists j; split; [exact Hj | left; exists pt; split; assumption].
      + destruct (Z.eqb_spec (Xdim j) (Ydim j)) as [Heq | Hne]; simpl in Hin;
          [destruct Hin |].
        exists j; split; [exact Hj |].
        right; split; [exact Hne | exists pt; split; assumption].
    - intros (j' & Ej & H); rewrite Hj in Ej; injection Ej as <-.
      destruct H as [(pt & Hin & HL) | (Hne & pt & Hin & HL)].
      + left; exists pt; split; assumption.
      + right; exists pt; split; [| exact HL].
        destruct (Z.eqb_spec (Xdim j) (Ydim j)); [contradiction | exact Hin]. }
  eapply outcome_weaken; [| apply sync_check_spec].
  - intros [b [s3 w3]] (Et & Es & _ & Hb); cbn [fst snd] in *.
    split; [| exact Hb].
    eapply post_same_best; [exact P12 | exact Et | exact Es].
  - eapply post_anchored; [exact P12 | exact A | exact G].
Qed.

Lemma job_loop_post ps rec d Jobs tiles first ixs s w0 :
  rec_ok clock p Good ps rec d -> (length Jobs <= S d)%nat ->
  Forall (fun ix => (ix < length Jobs)%nat) ixs ->
  consistent s -> anchored Good s ->
  (forall ix L, In ix ixs -> leaves_at p Jobs tiles ix L -> Good L) ->
  outcome ps Good (job_loop clock p rec Jobs tiles first ps ixs (s, w0))
    (fun r => post clock p ps
                (fun L => exists ix, In ix ixs /\ leaves_at p Jobs tiles ix L)
                s (fst r)).
Proof.
  intros Hrec Hlen Hixs. revert s w0.
  induction Hixs as [| ix rest Hix Hrest IH]; intros s w0 C A G; simpl.
  - eapply post_equiv; [| apply post_refl; exact C].
    intros L; split; [intros [] | intros (ix & [] & _)].
  - eapply outcome_bind.
    + apply (job_body_post ps rec d); try assumption.
      intros L HL; apply (G ix L); [left; reflexivity | exact HL].
    + intros [b [s1 w1]] [P1 Hb]; cbn [fst snd] in *. destruct b.
      * simpl. destruct P1 as [C1 I1 F1 V1]; split; [exact C1 | exact I1 | |].
        -- destruct F1 as [F1 | (t & F1 & Ht)]; [left; exact F1 |].
           right; exists t; split; [exact F1 |].
           exists ix; split; [left; reflexivity | exact Ht].
        -- intros [_ Hnt]; specialize (Hb Hnt); discriminate.
      * eapply outcome_weaken; [| apply IH].
        -- intros [s2 w2] P2; cbn [fst] in *.
           eapply post_equiv; [| eapply post_seq; eassumption].
           intros L; simpl; split.
           ++ intros [H | (ix' & Hin & H)].
              ** exists ix; split; [left; reflexivity | exact H].
              ** exists ix'; split; [right; exact Hin | exact H].
           ++ intros (ix' & [-> | Hin] & H); [left; exact H |].
              right; exists ix'; split; assumption.
        -- exact (post_consistent _ _ _ _ _ _ P1).
        -- eapply post_anchored; [exact P1 | exact A |].
           intros L HL; apply (G ix L); [left; reflexivity | exact HL].
        -- intros ix' L Hin HL; apply (G ix' L); [right; exact Hin | exact HL].
Qed.

Lemma leaf_of_nil xsp ysp (tiles L : T) :
  leaf_of xsp ysp [] tiles L <-> L = tiles.
Proof.
  split.
  - intros H; inversion H; subst; try reflexivity;
      match goal with K : nth_error [] ?i = Some _ |- _ =>
        destruct i; discriminate K end.
  - intros ->; constructor.
Qed.

Lemma leaf_of_cons j js tiles L :
  leaf_of (xspacing p) (yspacing p) (j :: js) tiles L <->
  exists ix, In ix (seq 0 (length (j :: js))) /\
    leaves_at p (j :: js) (removeInlets tiles (minDimension (j :: js))) ix L.
Proof.
  split.
  - intros H; inversion H; subst.
    + exists job_ix; split.
      * apply in_seq; split; [lia |].
        apply nth_error_Some; congruence.
      * exists j0; split; [assumption |].
        left; exists pt; split; assumption.
    + exists job_ix; split.
      * apply in_seq; split; [lia |].
        apply nth_error_Some; congruence.
      * exists j0; split; [assumption |].
        right; split; [assumption | exists pt; split; assumption].
  - intros (ix & _ & j0 & Hj & [(pt & Hin & HL) | (Hne & pt & Hin & HL)]).
    + eapply leaf_normal; eassumption.
    + eapply leaf_rotated; eassumption.
Qed.

(** Every call of [_run] on a consistent state does its part: it returns,
    unless its status line raises. *)
Lemma _run_post ps d : rec_ok clock p Good ps (_run clock p d ps) d.
Proof.
  induction d as [| d IH]; intros Jobs tiles first s w Hlen C A G.
  - destruct Jobs; [| simpl in Hlen; lia]. simpl.
    destruct (truthy tiles) eqn:Ht; simpl.
    + destruct (leaf_post ps tiles first s C) as (s' & E & P & _).
      rewrite E; simpl.
      eapply post_equiv; [| exact P].
      intros L; symmetry; apply leaf_of_nil.
    + split; [exact C | apply improves_refl | left; reflexivity |].
      intros [Htr _]; rewrite Htr in Ht; discriminate.
  - simpl. destruct (truthy tiles) eqn:Ht; simpl.
    + destruct Jobs as [| j js].
      * destruct (leaf_post ps tiles first s C) as (s' & E & P & _).
        rewrite E; simpl.
        eapply post_equiv; [| exact P].
        intros L; symmetry; apply leaf_of_nil.
      * eapply outcome_weaken;
          [| apply (job_loop_post ps (_run clock p d ps) d (j :: js)
                      (removeInlets tiles (minDimension (j :: js))) first
                      (seq 0 (length (j :: js))) s w IH Hlen); [| exact C | exact A |]].
        -- intros [s' w'] P; cbn [fst] in *.
           eapply post_equiv; [| exact P].
           intros L; symmetry; apply leaf_of_cons.
        -- apply Forall_forall; intros ix Hin; apply in_seq in Hin; lia.
        -- intros ix L Hin HL; apply G, leaf_of_cons.
           exists ix; split; assumption.
    + split; [exact C | apply improves_refl | left; reflexivity |].
      intros [Htr _]; rewrite Htr in Ht; discriminate.
Qed.

End Facts.

(** *** The counter and the floats of the status line *)

Section Counter.
Context {T : Type} {ops : TilingOps T}.
Variable clock : nat -> Z.
Variable p : params (T := T).
Hypothesis possible_nonzero : possiblePermutations p <> 0.

Lemma shown_below ps a b : 0 <= a <= b -> shown ps b -> shown ps a.
Proof.
  intros H [K | K]; [left; exact K | right].
  unfold float_range in *. apply Z.ltb_lt in K. apply Z.ltb_lt.
  set (L := 2 ^ 1024 - 2 ^ 970) in *. lia.
Qed.

Lemma sum_nonneg (l : list Z) :
  (forall z, In z l -> 0 <= z) -> 0 <= fold_right Z.add 0 l.
Proof.
  induction l as [| a l IH]; intros H; simpl; [lia |].
  pose proof (H a (or_introl eq_refl)).
  assert (0 <= fold_right Z.add 0 l) by (apply IH; intros z Hz; apply H; right; exact Hz).
  lia.
Qed.

Lemma counted_variant_nonneg (below : T -> Z) js tiles w h jb pts :
  (forall t, 0 <= below t) ->
  0 <= counted_variant below js tiles w h jb pts.
Proof.
  intros Hb. unfold counted_variant. destruct pts as [| p0 rest].
  - apply Z.pow_nonneg; lia.
  - apply sum_nonneg. intros z Hz. apply in_map_iff in Hz.
    destruct Hz as (ix & <- & _). destruct (point_eqb ix p0); [apply Hb | lia].
Qed.

Lemma counted_at_nonneg (below : list Job -> T -> Z) xsp ysp Jobs tiles ix :
  (forall js t, 0 <= below js t) ->
  0 <= counted_at below xsp ysp Jobs tiles ix.
Proof.
  intros Hb. unfold counted_at. destruct (nth_error Jobs ix) as [j |]; [| lia].
  apply Z.add_nonneg_nonneg; apply counted_variant_nonneg; intros t; apply Hb.
Qed.

Lemma counted_nonneg xsp ysp d : forall Jobs tiles,
  0 <= counted xsp ysp d Jobs tiles.
Proof.
  induction d as [| d IH]; intros Jobs tiles; simpl;
    destruct (truthy tiles); simpl; try lia; destruct Jobs; try lia.
  apply sum_nonneg. intros z Hz. apply in_map_iff in Hz.
  destruct Hz as (ix & <- & _). apply counted_at_nonneg, IH.
Qed.

Lemma within_bind {A B : Type} ps (getA : A -> state) (getB : B -> state)
    c1 c2 s (m : result A) (k : A -> result B) :
  within clock p ps getA c1 s m ->
  (forall a, permutations s <= permutations (getA a) <= permutations s + c1 ->
             within clock p ps getB c2 (getA a) (k a)) ->
  within clock p ps getB (c1 + c2) s (bind m k).
Proof.
  destruct m as [a | e]; cbn [bind within]; [| auto].
  intros [H1 E1] K. specialize (K a H1).
  destruct (k a) as [b | e]; cbn [within] in *; [| exact K].
  destruct K as [H2 E2]. split; [lia |].
  intros Hnt. rewrite (E2 Hnt), (E1 Hnt). lia.
Qed.

Lemma within_eq {A : Type} ps (get : A -> state) c c' s (m : result A) :
  c = c' -> within clock p ps get c s m -> within clock p ps get c' s m.
Proof. intros ->; auto. Qed.

Lemma leaf_counts ps tiles first s :
  within clock p ps (fun s' : state => s') (budget first 1) s
    (leaf tiles first s).
Proof.
  unfold leaf.
  destruct (score_ltb (Fin (area tiles)) (bestScore s)); cbn [bind within].
  - destruct first; cbn [permutations budget]; split; try lia; intros _; lia.
  - destruct (score_eqb (Fin (area tiles)) (bestScore s)).
    + destruct (bestTiling s) as [b |]; cbn [bind within]; [| discriminate].
      destruct (corners tiles <? corners b), first;
        cbn [permutations budget]; split; try lia; intros _; lia.
    + cbn [bind within].
      destruct first; cbn [permutations budget]; split; try lia; intros _; lia.
Qed.

Lemma str_counts s e :
  0 <= permutations s -> float_range (permutations s) = true ->
  float_range (possiblePermutations p) = true ->
  __str__ p s = Raise e -> e <> OverflowError.
Proof.
  intros H0 Hs Hp. unfold __str__, float_of_int. rewrite Hs, Hp.
  destruct (bestTiling s) as [b |].
  - destruct (truthy b).
    + unfold truediv at 1. destruct (area b =? 0); cbn [bind].
      * intros E; injection E as <-; discriminate.
      * destruct (permutations s >? 0); [| discriminate].
        unfold truediv.
        destruct (Z.eqb_spec (possiblePermutations p) 0); [contradiction |].
        discriminate.
    + cbn [bind]. destruct (permutations s >? 0); [| discriminate].
      unfold truediv.
      destruct (Z.eqb_spec (possiblePermutations p) 0); [contradiction |].
      discriminate.
  - cbn [bind]. destruct (permutations s >? 0); [| discriminate].
    unfold truediv.
    destruct (Z.eqb_spec (possiblePermutations p) 0); [contradiction |].
    discriminate.
Qed.

Lemma sync_check_counts ps s w :
  0 <= permutations s -> shown ps (permutations s) ->
  shown ps (possiblePermutations p) ->
  within clock p ps (fun r : bool * (state * nat) => fst (snd r)) 0 s
    (sync_check clock p ps (s, w)).
Proof.
  intros H0 Hs Hp.
  pose proof (sync_check_spec clock p possible_nonzero (fun _ => True) ps s w
                (fun _ _ => I)) as H.
  destruct (sync_check clock p ps (s, w)) as [r | e] eqn:E; cbn [outcome within] in *.
  - destruct H as (_ & _ & -> & _). split; lia.
  - destruct H as (Hps & _). subst ps.
    destruct Hs as [Hs | Hs]; [discriminate |].
    destruct Hp as [Hp | Hp]; [discriminate |].
    unfold sync_check, time in E.
    destruct (clock w >? lastCheckTime s + syncPeriod p); [| discriminate].
    match type of E with context [__str__ p ?s1] =>
      destruct (__str__ p s1) as [[] | e'] eqn:Es
    end; cbn [bind] in E.
    + destruct (searchTimeout p >? 0); discriminate.
    + injection E as <-. eapply str_counts; [| | | exact Es]; assumption.
Qed.

Lemma sync_check_no_return ps s w r :
  no_timeout clock p ps -> sync_check clock p ps (s, w) = Ok r ->
  fst r = false.
Proof.
  intros Hnt E.
  pose proof (sync_check_spec clock p possible_nonzero (fun _ => True) ps s w
                (fun _ _ => I)) as H.
  rewrite E in H. cbn [outcome] in H. apply H, Hnt.
Qed.

Section Calls.
Variable ps : bool.
Variable rec : list Job -> T -> bool -> state (T := T) * nat
               -> result (state (T := T) * nat).
Variable d : nat.
Hypothesis rec_counted : rec_counts clock p ps rec d.
Hypothesis possible_shown : shown ps (possiblePermutations p).

Lemma place_all_counts remaining_jobs tiles w h jb first p0 pts :
  (length remaining_jobs <= d)%nat ->
  forall s w0,
    0 <= permutations s ->
    shown ps
      (permutations s
       + budget first
           (fold_right Z.add 0
              (map (fun ix =>
                      if point_eqb ix p0
                      then counted (xspacing p) (yspacing p) d remaining_jobs
                             (addJob (clone tiles) ix w h jb)
                      else 0) pts))) ->
    within clock p ps fst
      (budget first
         (fold_right Z.add 0
            (map (fun ix =>
                    if point_eqb ix p0
                    then counted (xspacing p) (yspacing p) d remaining_jobs
                           (addJob (clone tiles) ix w h jb)
                    else 0) pts)))
      s (place_all rec remaining_jobs tiles w h jb first p0 pts (s, w0)).
Proof.
  intros Hlen. induction pts as [| ix rest IH]; intros s w0 H0 Hs.
  - cbn [place_all map fold_right within fst].
    replace (budget first 0) with 0 by (destruct first; reflexivity).
    split; [lia | intros _; lia].
  - cbn [place_all map fold_right] in *.
    set (c1 := counted (xspacing p) (yspacing p) d remaining_jobs
                 (addJob (clone tiles) ix w h jb)) in *.
    set (c2 := fold_right Z.add 0 _) in *.
    assert (Hc1 : 0 <= c1) by apply counted_nonneg.
    assert (Hc2 : 0 <= c2).
    { apply sum_nonneg. intros z Hz. apply in_map_iff in Hz.
      destruct Hz as (i & <- & _).
      destruct (point_eqb i p0); [apply counted_nonneg | lia]. }
    eapply within_eq;
      [| eapply (within_bind ps fst fst
                   (budget (first && point_eqb ix p0) c1) (budget first c2))].
    + destruct first, (point_eqb ix p0); cbn [budget andb]; lia.
    + apply rec_counted; [exact Hlen | exact H0 |].
      eapply shown_below; [| exact Hs].
      destruct first, (point_eqb ix p0); cbn [budget andb]; lia.
    + intros [s1 w1] H1; cbn [fst] in *. apply IH; [lia |].
      eapply shown_below; [| exact Hs].
      revert H1. destruct first, (point_eqb ix p0); cbn [budget andb]; lia.
Qed.

Lemma variant_counts remaining_jobs tiles w h jb first pts s w0 :
  (length remaining_jobs <= d)%nat ->
  0 <= permutations s ->
  shown ps
    (permutations s
     + budget first
         (counted_variant
            (counted (xspacing p) (yspacing p) d remaining_jobs)
            remaining_jobs tiles w h jb pts)) ->
  within clock p ps fst
    (budget first
       (counted_variant (counted (xspacing p) (yspacing p) d remaining_jobs)
          remaining_jobs tiles w h jb pts))
    s (variant rec remaining_jobs tiles w h jb first pts (s, w0)).
Proof.
  intros Hlen H0 Hs. destruct pts as [| p0 rest].
  - cbn [variant counted_variant within fst snd]. unfold prune.
    destruct first; cbn [permutations budget]; split; try lia; intros _; lia.
  - unfold variant, counted_variant in *.
    apply place_all_counts; assumption.
Qed.

Lemma job_body_counts Jobs tiles first ix s w0 :
  (length Jobs <= S d)%nat ->
  0 <= permutations s ->
  shown ps
    (permutations s
     + budget first
         (counted_at (counted (xspacing p) (yspacing p) d)
            (xspacing p) (yspacing p) Jobs tiles ix)) ->
  within clock p ps (fun r : bool * (state * nat) => fst (snd r))
    (budget first
       (counted_at (counted (xspacing p) (yspacing p) d)
          (xspacing p) (yspacing p) Jobs tiles ix))
    s (job_body clock p rec Jobs tiles first ps ix (s, w0)).
Proof.
  intros Hlen H0 Hs. unfold job_body, counted_at in *.
  destruct (nth_error Jobs ix) as [j |] eqn:Hj; [| discriminate].
  assert (Hix : (ix < length Jobs)%nat) by (apply nth_error_Some; congruence).
  assert (Hrem : (length (remaining Jobs ix) <= d)%nat)
    by (rewrite remaining_length by exact Hix; lia).
  set (v1 := counted_variant _ _ _ _ _ (job j) _) in *.
  set (v2 := counted_variant _ _ _ _ _ (rjob j) _) in *.
  assert (Hv1 : 0 <= v1)
    by (apply counted_variant_nonneg; intros t; apply counted_nonneg).
  assert (Hv2 : 0 <= v2)
    by (apply counted_variant_nonneg; intros t; apply counted_nonneg).
  eapply within_eq;
    [| eapply (within_bind ps fst (fun r : bool * (state * nat) => fst (snd r))
                 (budget first v1) (budget first v2 + 0))].
  - destruct first; cbn [budget]; lia.
  - apply variant_counts; [exact Hrem | exact H0 |].
    eapply shown_below; [| exact Hs]. destruct first; cbn [budget]; lia.
  - intros [s1 w1] H1; cbn [fst] in *.
    eapply (within_bind ps fst (fun r : bool * (state * nat) => fst (snd r))
              (budget first v2) 0).
    + apply variant_counts; [exact Hrem | lia |].
      eapply shown_below; [| exact Hs].
      revert H1. destruct first; cbn [budget]; lia.
    + intros [s2 w2] H2; cbn [fst] in *.
      apply sync_check_counts; [lia | | exact possible_shown].
      eapply shown_below; [| exact Hs].
      revert H1 H2. destruct first; cbn [budget]; lia.
Qed.

Lemma job_body_no_return Jobs tiles first ix st r :
  no_timeout clock p ps ->
  job_body clock p rec Jobs tiles first ps ix st = Ok r -> fst r = false.
Proof.
  intros Hnt. unfold job_body.
  destruct (nth_error Jobs ix) as [j |]; [| discriminate].
  destruct (variant rec _ _ _ _ _ _ _ st) as [st1 |]; [| discriminate].
  cbn [bind].
  destruct (variant rec _ _ _ _ _ _ _ st1) as [[s2 w2] |]; [| discriminate].
  cbn [bind]. apply sync_check_no_return, Hnt.
Qed.

Lemma job_loop_counts Jobs tiles first ixs :
  (length Jobs <= S d)%nat ->
  forall s w0,
    0 <= permutations s ->
    shown ps
      (permutations s
       + budget first
           (fold_right Z.add 0
              (map (counted_at (counted (xspacing p) (yspacing p) d)
                      (xspacing p) (yspacing p) Jobs tiles) ixs))) ->
    within clock p ps fst
      (budget first
         (fold_right Z.add 0
            (map (counted_at (counted (xspacing p) (yspacing p) d)
                    (xspacing p) (yspacing p) Jobs tiles) ixs)))
      s (job_loop clock p rec Jobs tiles first ps ixs (s, w0)).
Proof.
  intros Hlen. induction ixs as [| ix rest IH]; intros s w0 H0 Hs.
  - cbn [job_loop map fold_right within fst].
    replace (budget first 0) with 0 by (destruct first; reflexivity).
    split; [lia | intros _; lia].
  - cbn [job_loop map fold_right] in *.
    set (c1 := counted_at _ _ _ _ _ ix) in *.
    set (c2 := fold_right Z.add 0 _) in *.
    assert (Hc1 : 0 <= c1)
      by (apply counted_at_nonneg; intros js t; apply counted_nonneg).
    assert (Hc2 : 0 <= c2).
    { apply sum_nonneg. intros z Hz. apply in_map_iff in Hz.
      destruct Hz as (i & <- & _).
      apply counted_at_nonneg; intros js t; apply counted_nonneg. }
    pose proof (job_body_counts Jobs tiles first ix s w0 Hlen H0) as Hb.
    fold c1 in Hb.
    assert (Hs1 : shown ps (permutations s + budget first c1)).
    { eapply shown_below; [| exact Hs]. destruct first; cbn [budget]; lia. }
    specialize (Hb Hs1).
    destruct (job_body clock p rec Jobs tiles first ps ix (s, w0))
      as [[b [s1 w1]] |] eqn:Eb; cbn [bind within fst snd] in *; [| exact Hb].
    destruct Hb as [H1 E1]. destruct b.
    + cbn [within fst]. split.
      * destruct first; cbn [budget] in *; lia.
      * intros Hnt.
        pose proof (job_body_no_return _ _ _ _ _ _ Hnt Eb) as Hf.
        discriminate Hf.
    + assert (Hs2 : shown ps (permutations s1 + budget first c2)).
      { eapply shown_below; [| exact Hs].
        destruct first; cbn [budget] in *; lia. }
      specialize (IH s1 w1 ltac:(lia) Hs2).
      destruct (job_loop clock p rec Jobs tiles first ps rest (s1, w1))
        as [[s2 w2] |]; cbn [within fst] in *; [| exact IH].
      destruct IH as [H2 E2]. split.
      * destruct first; cbn [budget] in *; lia.
      * intros Hnt. rewrite (E2 Hnt), (E1 Hnt).
        destruct first; cbn [budget]; lia.
Qed.

End Calls.

(** Every call of [_run] keeps the counter within what [counted] allows. *)
Lemma _run_counts ps d :
  shown ps (possiblePermutations p) ->
  rec_counts clock p ps (_run clock p d ps) d.
Proof.
  intros Hp.
  assert (Hleaf : forall tiles first s (w : nat),
            within clock p ps fst (budget first 1) s
              (s' <- leaf tiles first s ;; Ok (s', w))).
  { intros tiles first s w.
    pose proof (leaf_counts ps tiles first s) as H.
    destruct (leaf tiles first s); exact H. }
  induction d as [| d IH]; intros Jobs tiles first s w Hlen H0 Hs.
  - destruct Jobs; [| simpl in Hlen; lia]. cbn [_run counted] in *.
    destruct (truthy tiles); cbn [negb snd fst] in *; [apply Hleaf |].
    replace (budget first 0) with 0 by (destruct first; reflexivity).
    cbn [within fst]. split; [lia | intros _; lia].
  - cbn [_run counted] in *.
    destruct (truthy tiles); cbn [negb snd fst] in *.
    + destruct Jobs as [| j js]; [apply Hleaf |].
      apply job_loop_counts; assumption.
    + replace (budget first 0) with 0 by (destruct first; reflexivity).
      cbn [within fst]. split; [lia | intros _; lia].
Qed.

End Counter.

Section Leaves.
Context {T : Type} {ops : TilingOps T}.

(** The list [leaves] holds the leaves of the search tree, all of them. *)
Lemma leaves_spec xsp ysp d : forall (Jobs : list Job) (tiles L : T),
  (length Jobs <= d)%nat ->
  (In L (leaves xsp ysp d Jobs tiles) <-> leaf_of xsp ysp Jobs tiles L).
Proof.
  induction d as [| d IH]; intros Jobs tiles L Hlen.
  - destruct Jobs; [| simpl in Hlen; lia]. simpl.
    rewrite leaf_of_nil. split; [intros [H | []]; auto | intros ->; auto].
  - destruct Jobs as [| j0 js]; [simpl; rewrite leaf_of_nil;
      split; [intros [H | []]; auto | intros ->; auto] |].
    cbn [leaves]. rewrite in_flat_map. split.
    + intros (ix & Hix & HL). apply in_seq in Hix.
      destruct (nth_error (j0 :: js) ix) as [j |] eqn:Hj; [| destruct HL].
      assert (Hrem : (length (remaining (j0 :: js) ix) <= d)%nat).
      { unfold remaining.
        rewrite length_app, length_firstn, length_skipn.
        simpl length in *. lia. }
      apply in_app_or in HL. destruct HL as [HL | HL].
      * apply in_flat_map in HL. destruct HL as (pt & Hpt & HL).
        apply IH in HL; [| exact Hrem].
        eapply leaf_normal; eassumption.
      * destruct (Z.eqb_spec (Xdim j) (Ydim j)) as [Heq | Hne]; [destruct HL |].
        apply in_flat_map in HL. destruct HL as (pt & Hpt & HL).
        apply IH in HL; [| exact Hrem].
        eapply leaf_rotated; eassumption.
    + intros H.
      assert (Hrem : forall ix j, nth_error (j0 :: js) ix = Some j ->
                (length (remaining (j0 :: js) ix) <= d)%nat).
      { intros ix j Hj.
        assert (ix < length (j0 :: js))%nat
          by (apply nth_error_Some; congruence).
        unfold remaining.
        rewrite length_app, length_firstn, length_skipn.
        simpl length in *. lia. }
      inversion H; subst.
      * exists job_ix; split.
        -- apply in_seq; split; [lia |].
           apply nth_error_Some; congruence.
        -- rewrite H0. apply in_or_app; left.
           apply in_flat_map. exists pt; split; [assumption |].
           apply IH; [eapply Hrem; eassumption | assumption].
      * exists job_ix; split.
        -- apply in_seq; split; [lia |].
           apply nth_error_Some; congruence.
        -- rewrite H0. apply in_or_app; right.
           destruct (Z.eqb_spec (Xdim j) (Ydim j)); [contradiction |].
           apply in_flat_map. exists pt; split; [assumption |].
           apply IH; [eapply Hrem; eassumption | assumption].
Qed.

Lemma possible_positive (n : nat) : 0 < 2 ^ Z.of_nat n * Z.of_nat (fact n).
Proof.
  apply Z.mul_pos_pos; [apply Z.pow_pos_nonneg; lia |].
  pose proof (lt_O_fact n). lia.
Qed.

Lemma announced_nonzero (n : nat) : 2 ^ Z.of_nat n * Z.of_nat (fact n) <> 0.
Proof. pose proof (possible_positive n). lia. Qed.

Lemma search_spec (clock : nat -> Z)
    Jobs X Y xsp ysp timeout (base : option T) period w ps :
  outcome ps (leaf_of xsp ysp Jobs (base_of X Y xsp ysp base))
    (search clock Jobs X Y xsp ysp timeout base period w ps)
    (fun r =>
       consistent (fst r) /\
       (forall b, bestTiling (fst r) = Some b ->
                  leaf_of xsp ysp Jobs (base_of X Y xsp ysp base) b) /\
       ((forall t : T, truthy t = true) -> untimed clock timeout w ps ->
        forall L, leaf_of xsp ysp Jobs (base_of X Y xsp ysp base) L ->
                  dominates (fst r) L)).
Proof.
  unfold search, init, time, run; cbn [fst snd jobs baseTiling].
  set (q := mkParams Jobs X Y xsp ysp timeout (clock w) period
              (2 ^ Z.of_nat (length Jobs) * Z.of_nat (fact (length Jobs)))
              (base_of X Y xsp ysp base)).
  eapply outcome_weaken;
    [| apply (_run_post clock q (announced_nonzero (length Jobs))
                (leaf_of xsp ysp Jobs (base_of X Y xsp ysp base)) ps
                (length Jobs) Jobs (base_of X Y xsp ysp base) true
                (mkState None Inf 0 0) (S w) (le_n _) eq_refl)].
  - intros [s' w'] [C I F V]; cbn [fst] in *.
    split; [exact C | split].
    + intros b Hb. destruct F as [F | (b' & F & Hl)].
      * simpl in F; congruence.
      * rewrite Hb in F; injection F as ->; exact Hl.
    + intros Htr Hnt L HL. apply V; [| exact HL].
      split; [exact Htr | exact Hnt].
  - intros b Hb; discriminate.
  - intros L HL; exact HL.
Qed.

(** The counter of a search stays within what [counted] gives, and reaches
    it when the timeout cannot fire; with both ints within the range of a
    float, the status line raises no OverflowError. *)
Lemma search_counts (clock : nat -> Z)
    Jobs X Y xsp ysp timeout (base : option T) period w ps :
  shown ps (2 ^ Z.of_nat (length Jobs) * Z.of_nat (fact (length Jobs))) ->
  shown ps (counted xsp ysp (length Jobs) Jobs (base_of X Y xsp ysp base)) ->
  match search clock Jobs X Y xsp ysp timeout base period w ps with
  | Ok (s', _) =>
      0 <= permutations s'
      <= counted xsp ysp (length Jobs) Jobs (base_of X Y xsp ysp base) /\
      (untimed clock timeout w ps ->
       permutations s'
       = counted xsp ysp (length Jobs) Jobs (base_of X Y xsp ysp base))
  | Raise e => e <> OverflowError
  end.
Proof.
  intros Hp Hc.
  unfold search, init, time, run; cbn [fst snd jobs baseTiling].
  set (q := mkParams Jobs X Y xsp ysp timeout (clock w) period
              (2 ^ Z.of_nat (length Jobs) * Z.of_nat (fact (length Jobs)))
              (base_of X Y xsp ysp base)).
  pose proof (_run_counts clock q (announced_nonzero (length Jobs)) ps
                (length Jobs) Hp Jobs (base_of X Y xsp ysp base) true
                (mkState None Inf 0 0) (S w) (le_n _)) as H.
  cbn [permutations budget xspacing yspacing q] in H.
  specialize (H ltac:(lia) Hc).
  destruct (_run clock q (length Jobs) ps Jobs (base_of X Y xsp ysp base) true
              (mkState None Inf 0 0, S w)) as [[s' w'] | e];
    cbn [within fst] in H; [| exact H].
  cbn [permutations] in H. destruct H as [H1 H2]. split; [lia |].
  intros Hnt. rewrite H2; [lia | exact Hnt].
Qed.

(** With the status line safe, the search returns. *)
Lemma search_returns (clock : nat -> Z)
    Jobs X Y xsp ysp timeout (base : option T) period w ps :
  status_line_safe Jobs X Y xsp ysp base ps ->
  exists s' w',
    search clock Jobs X Y xsp ysp timeout base period w ps = Ok (s', w') /\
    consistent s' /\
    (forall b, bestTiling s' = Some b ->
               leaf_of xsp ysp Jobs (base_of X Y xsp ysp base) b) /\
    ((forall t : T, truthy t = true) -> untimed clock timeout w ps ->
     forall L, leaf_of xsp ysp Jobs (base_of X Y xsp ysp base) L ->
               dominates s' L).
Proof.
  intros Hsafe.
  pose proof (search_spec clock Jobs X Y xsp ysp timeout base period w ps) as H.
  pose proof (search_counts clock Jobs X Y xsp ysp timeout base period w ps)
    as Hc.
  destruct (search clock Jobs X Y xsp ysp timeout base period w ps)
    as [[s' w'] | e]; cbn [outcome] in H.
  - exists s', w'; split; [reflexivity | exact H].
  - exfalso. destruct H as (Hps & H).
    destruct Hsafe as [Hq | (Hall & Hposs & Hcnt)]; [congruence |].
    destruct H as [(_ & b & Hb & _ & Hz) | He].
    + rewrite forallb_forall in Hall.
      apply (leaves_spec xsp ysp (length Jobs)) in Hb; [| apply le_n].
      specialize (Hall b Hb). rewrite Hz in Hall. discriminate Hall.
    + apply Hc; [right; exact Hposs | right; exact Hcnt | exact He].
Qed.

(** What a search can raise: the status line divides by the zero area of
    a leaf, or one of its two ints is too large for a float. *)
Lemma search_raises (clock : nat -> Z)
    Jobs X Y xsp ysp timeout (base : option T) period w ps e :
  search clock Jobs X Y xsp ysp timeout base period w ps = Raise e ->
  ps = true /\
  ((e = ZeroDivisionError /\
    exists b, leaf_of xsp ysp Jobs (base_of X Y xsp ysp base) b /\
              truthy b = true /\ area b = 0) \/
   (e = OverflowError /\
    (float_range (2 ^ Z.of_nat (length Jobs) * Z.of_nat (fact (length Jobs)))
     = false \/
     float_range (counted xsp ysp (length Jobs) Jobs (base_of X Y xsp ysp base))
     = false))).
Proof.
  intros E.
  pose proof (search_spec clock Jobs X Y xsp ysp timeout base period w ps) as H.
  pose proof (search_counts clock Jobs X Y xsp ysp timeout base period w ps)
    as Hc.
  rewrite E in H, Hc. cbn [outcome] in H. destruct H as (Hps & H).
  split; [exact Hps |]. destruct H as [H | ->]; [left; exact H | right].
  split; [reflexivity |].
  destruct (float_range
              (2 ^ Z.of_nat (length Jobs) * Z.of_nat (fact (length Jobs))))
    eqn:Hp; [| left; reflexivity].
  destruct (float_range
              (counted xsp ysp (length Jobs) Jobs (base_of X Y xsp ysp base)))
    eqn:Hk; [| right; reflexivity].
  exfalso. apply Hc; [right; exact Hp | right; exact Hk | reflexivity].
Qed.

(** *** The counter when no job can be placed *)

Lemma unplaceable_loop (clock : nat -> Z) (p : params (T := T)) rec ps
    (Jobs : list Job) (tiles : T) (ixs : list nat) :
  possiblePermutations p <> 0 ->
  shown ps (possiblePermutations p) ->
  no_timeout clock p ps ->
  (forall j, In j Jobs ->
     validAddPoints tiles (Xdim j + xspacing p) (Ydim j + yspacing p) = [] /\
     validAddPoints tiles (Ydim j + xspacing p) (Xdim j + yspacing p) = []) ->
  Forall (fun ix => (ix < length Jobs)%nat) ixs ->
  forall s w, bestTiling s = None -> 0 <= permutations s ->
  shown ps (permutations s
            + Z.of_nat (length ixs) * 2 ^ Z.of_nat (length Jobs)) ->
  exists s' w',
    job_loop clock p rec Jobs tiles true ps ixs (s, w) = Ok (s', w') /\
    bestTiling s' = None /\
    permutations s'
    = permutations s + Z.of_nat (length ixs) * 2 ^ Z.of_nat (length Jobs).
Proof.
  intros Hq Hsp Hnt Hnone Hixs.
  induction Hixs as [| ix rest Hix _ IH]; intros s w Hb H0 Hs.
  - exists s, w; split; [reflexivity | split; [exact Hb | simpl; lia]].
  - cbn [job_loop]. unfold job_body.
    destruct (nth_error Jobs ix) as [j |] eqn:Hj;
      [| apply nth_error_None in Hj; lia].
    destruct (Hnone j (nth_error_In _ _ Hj)) as [H1 H2].
    rewrite H1, H2.
    replace (if negb (Xdim j =? Ydim j) then [] else [])
      with (@nil Point) by (destruct (negb (Xdim j =? Ydim j)); reflexivity).
    cbn [variant bind fst snd prune bestTiling bestScore permutations
         lastCheckTime].
    assert (Hpow : 2 ^ Z.of_nat (length Jobs)
                   = 2 * 2 ^ Z.of_nat (pred (length Jobs))).
    { replace (length Jobs) with (S (pred (length Jobs))) at 1 by lia.
      rewrite Nat2Z.inj_succ, Z.pow_succ_r by lia. reflexivity. }
    assert (Hpos : 0 <= 2 ^ Z.of_nat (pred (length Jobs)))
      by (apply Z.pow_nonneg; lia).
    cbn [length] in Hs. rewrite Nat2Z.inj_succ in Hs.
    rewrite (remaining_length Jobs ix Hix).
    match goal with |- context [sync_check clock p ps (?s1, w)] =>
      pose proof (sync_check_spec clock p Hq (fun _ => False) ps s1 w) as Hsp1;
      pose proof (sync_check_counts clock p Hq ps s1 w) as Hc1;
      destruct (sync_check clock p ps (s1, w)) as [[b [s2 w2]] | e] eqn:Es
    end; cbn [outcome within fst snd bestTiling bestScore permutations]
           in Hsp1, Hc1.
    + destruct Hsp1 as (Et & _ & Ep & Hf);
        [intros b' Hb'; cbn in Hb'; congruence |].
      rewrite (Hf Hnt). cbn [bind fst snd].
      destruct (IH s2 w2) as (s' & w' & E & Hb' & Hp');
        [congruence | lia | |].
      { eapply shown_below; [| exact Hs]. rewrite Ep, Hpow.
        assert (0 <= Z.of_nat (length rest)) by lia. nia. }
      exists s', w'; split; [exact E | split; [exact Hb' |]].
      rewrite Hp', Ep, Hpow. cbn [length]. rewrite Nat2Z.inj_succ.
      unfold Z.succ. ring.
    + exfalso.
      destruct Hsp1 as (_ & [(_ & b & [] & _) | He]);
        [intros b' Hb'; cbn in Hb'; congruence |].
      apply Hc1; [lia | | exact Hsp | exact He].
      eapply shown_below; [| exact Hs]. rewrite Hpow.
      assert (0 <= Z.of_nat (length rest)) by lia. nia.
Qed.

Lemma fact_at_least n : (n <= fact n)%nat.
Proof.
  induction n as [| n IH]; [simpl; lia |].
  change (fact (S n)) with (S n * fact n)%nat.
  pose proof (lt_O_fact n). nia.
Qed.

(** When neither orientation of any job has an add-point on the base
    tiling, a search that cannot time out counts [N * 2^N] permutations
    (the status line off, or the permutations announced within the range
    of a float). *)
Lemma unplaceable_count (clock : nat -> Z)
    Jobs X Y xsp ysp timeout (base : option T) period w ps :
  Jobs <> [] ->
  truthy (base_of X Y xsp ysp base) = true ->
  untimed clock timeout w ps ->
  shown ps (2 ^ Z.of_nat (length Jobs) * Z.of_nat (fact (length Jobs))) ->
  (forall j, In j Jobs ->
     validAddPoints
       (removeInlets (base_of X Y xsp ysp base) (minDimension Jobs))
       (Xdim j + xsp) (Ydim j + ysp) = [] /\
     validAddPoints
       (removeInlets (base_of X Y xsp ysp base) (minDimension Jobs))
       (Ydim j + xsp) (Xdim j + ysp) = []) ->
  exists s' w',
    search clock Jobs X Y xsp ysp timeout base period w ps = Ok (s', w') /\
    bestTiling s' = None /\
    permutations s'
    = Z.of_nat (length Jobs) * 2 ^ Z.of_nat (length Jobs).
Proof.
  intros Hne Htr Hnt Hsp Hnone.
  unfold search, init, time, run; cbn [fst snd jobs baseTiling].
  destruct Jobs as [| j0 js]; [contradiction |].
  cbn [_run length]. rewrite Htr. cbn [negb].
  match goal with |- context [job_loop clock ?q ?rec _ ?tiles _ _ _ (?s0, ?w0)] =>
    destruct (unplaceable_loop clock q rec ps (j0 :: js) tiles
                (seq 0 (length (j0 :: js)))
                (announced_nonzero (length (j0 :: js))) Hsp Hnt Hnone)
      with (s := s0) (w := w0) as (s' & w' & E & Hb & Hp)
  end.
  - apply Forall_forall; intros ix Hin; apply in_seq in Hin; simpl in *; lia.
  - reflexivity.
  - cbn [permutations]; lia.
  - eapply shown_below; [| exact Hsp]. rewrite length_seq.
    cbn [permutations].
    pose proof (fact_at_least (length (j0 :: js))) as Hf.
    assert (0 < 2 ^ Z.of_nat (length (j0 :: js)))
      by (apply Z.pow_pos_nonneg; lia).
    nia.
  - exists s', w'; split; [exact E | split; [exact Hb |]].
    rewrite Hp, length_seq. cbn [permutations length]. ring.
Qed.

Lemma fact_exceeds n : (3 <= n)%nat -> (n < fact n)%nat.
Proof.
  induction 1 as [| n Hn IH]; [simpl; lia |].
  change (fact (S n)) with (S n * fact n)%nat. nia.
Qed.

(** With three jobs or more, that count is short of the permutations
    announced, whatever the tiling module does elsewhere. *)
Lemma unplaceable_count_short (clock : nat -> Z)
    Jobs X Y xsp ysp timeout (base : option T) period w ps :
  (3 <= length Jobs)%nat ->
  truthy (base_of X Y xsp ysp base) = true ->
  untimed clock timeout w ps ->
  shown ps (2 ^ Z.of_nat (length Jobs) * Z.of_nat (fact (length Jobs))) ->
  (forall j, In j Jobs ->
     validAddPoints
       (removeInlets (base_of X Y xsp ysp base) (minDimension Jobs))
       (Xdim j + xsp) (Ydim j + ysp) = [] /\
     validAddPoints
       (removeInlets (base_of X Y xsp ysp base) (minDimension Jobs))
       (Ydim j + xsp) (Xdim j + ysp) = []) ->
  exists s' w',
    search clock Jobs X Y xsp ysp timeout base period w ps = Ok (s', w') /\
    permutations s'
    < possiblePermutations
        (fst (fst (init clock Jobs X Y xsp ysp timeout base period w))).
Proof.
  intros Hlen Htr Hnt Hsp Hnone.
  destruct (unplaceable_count clock Jobs X Y xsp ysp timeout base period w ps)
    as (s' & w' & E & _ & Hp); try assumption.
  { intros ->; simpl in Hlen; lia. }
  exists s', w'; split; [exact E |].
  rewrite Hp. unfold init, time; cbn [fst possiblePermutations].
  pose proof (fact_exceeds _ Hlen) as Hf.
  assert (0 < 2 ^ Z.of_nat (length Jobs)) by (apply Z.pow_pos_nonneg; lia).
  nia.
Qed.

(** *** The status line with 151 jobs or more *)

Lemma fact_prod n :
  Z.of_nat (fact n) = fold_right Z.mul 1 (map Z.of_nat (seq 1 n)).
Proof.
  induction n as [| n IH]; [reflexivity |].
  change (fact (S n)) with (S n * fact n)%nat.
  rewrite seq_S, map_app, fold_right_app, Nat2Z.inj_mul, IH.
  cbn [map fold_right Nat.add].
  generalize (map Z.of_nat (seq 1 n)) as l. intros l.
  induction l as [| a l IHl]; cbn [fold_right]; [ring |].
  rewrite <- IHl. ring.
Qed.

Lemma possible_grows n :
  2 ^ Z.of_nat n * Z.of_nat (fact n)
  <= 2 ^ Z.of_nat (S n) * Z.of_nat (fact (S n)).
Proof.
  change (fact (S n)) with (S n * fact n)%nat.
  rewrite Nat2Z.inj_mul, !Nat2Z.inj_succ, Z.pow_succ_r by lia.
  pose proof (possible_positive n) as H.
  assert (0 < 2 ^ Z.of_nat n) by (apply Z.pow_pos_nonneg; lia).
  assert (0 <= Z.of_nat (fact n)) by lia.
  nia.
Qed.

(** [2^151 * 151!] is the first of the numbers [__init__] can announce
    that is too large for a float. *)
Lemma possible_out_of_range n :
  (151 <= n)%nat ->
  float_range (2 ^ Z.of_nat n * Z.of_nat (fact n)) = false.
Proof.
  intros H. unfold float_range. apply Z.ltb_ge.
  rewrite Z.abs_eq by (pose proof (possible_positive n); lia).
  induction H as [| n H IH].
  - rewrite fact_prod. vm_compute. discriminate.
  - etransitivity; [exact IH | apply possible_grows].
Qed.

(** The status line of a search over 151 jobs or more raises
    OverflowError: when no job has an add-point on the base tiling, the
    first status block that executes ends the search with it. *)
Lemma crowded_status_line_overflows (clock : nat -> Z)
    Jobs X Y xsp ysp timeout (base : option T) period w :
  (151 <= length Jobs)%nat ->
  truthy (base_of X Y xsp ysp base) = true ->
  (forall j, In j Jobs ->
     validAddPoints
       (removeInlets (base_of X Y xsp ysp base) (minDimension Jobs))
       (Xdim j + xsp) (Ydim j + ysp) = [] /\
     validAddPoints
       (removeInlets (base_of X Y xsp ysp base) (minDimension Jobs))
       (Ydim j + xsp) (Xdim j + ysp) = []) ->
  period < clock (S w) ->
  search clock Jobs X Y xsp ysp timeout base period w true
  = Raise OverflowError.
Proof.
  intros Hlen Htr Hnone Hclock.
  pose proof (possible_out_of_range (length Jobs) Hlen) as Hposs.
  unfold search, init, time, run; cbn [fst snd jobs baseTiling].
  set (P := 2 ^ Z.of_nat (length Jobs) * Z.of_nat (fact (length Jobs))) in *.
  clearbody P.
  destruct Jobs as [| j0 js]; [simpl in Hlen; lia |].
  destruct (Hnone j0 (or_introl eq_refl)) as [H1 H2].
  cbn [length _run]. rewrite Htr. cbn [negb seq job_loop].
  unfold job_body. cbn [nth_error xspacing yspacing]. rewrite H1, H2.
  replace (if negb (Xdim j0 =? Ydim j0) then [] else [])
    with (@nil Point) by (destruct (negb (Xdim j0 =? Ydim j0)); reflexivity).
  cbn [variant bind fst snd prune bestTiling bestScore permutations
       lastCheckTime].
  unfold sync_check, time. cbn [lastCheckTime syncPeriod].
  replace (clock (S w) >? 0 + period) with true
    by (symmetry; apply Z.gtb_lt; lia).
  unfold __str__.
  cbn [bestTiling permutations possiblePermutations bind].
  set (k := 2 ^ Z.of_nat (length (remaining (j0 :: js) 0))).
  assert (Hk : 0 < k) by (apply Z.pow_pos_nonneg; lia).
  replace (0 + k + k >? 0) with true by (symmetry; apply Z.gtb_lt; lia).
  unfold float_of_int. rewrite Hposs.
  destruct (float_range (0 + k + k)); reflexivity.
Qed.

End Leaves.
End ExhaustiveFacts.

Section ExhaustiveClaims.
Import ExhaustiveSearch.
Context {T : Type} {ops : TilingOps T}.

(** C10.  The leaf update never reads [corners()] of a missing best tiling:
    whatever the jobs, the tilings, the clock and the timeout, a search
    started from a fresh object ([bestScore] infinite, [bestTiling] None)
    never raises the AttributeError of [None.corners()].  It returns with
    its best score the area of its best tiling (infinite when there is
    none), or its status line raises under [printStats]: ZeroDivisionError
    on the zero area of a leaf, or OverflowError on an int too large to
    convert to float (the permutations announced, or those a run can
    count). *)
Theorem leaf_update_never_reads_None :
  forall (clock : nat -> Z) (Jobs : list Job) (X Y xsp ysp timeout : Z)
         (base : option T) (period : Z) (w : nat) (printStats : bool),
    search clock Jobs X Y xsp ysp timeout base period w printStats
      <> Raise AttributeError /\
    ((exists s' w',
        search clock Jobs X Y xsp ysp timeout base period w printStats
          = Ok (s', w') /\ consistent s') \/
     (printStats = true /\
      search clock Jobs X Y xsp ysp timeout base period w printStats
        = Raise ZeroDivisionError /\
      exists b, leaf_of xsp ysp Jobs (base_of X Y xsp ysp base) b /\
                truthy b = true /\ area b = 0) \/
     (printStats = true /\
      search clock Jobs X Y xsp ysp timeout base period w printStats
        = Raise OverflowError /\
      (float_range
         (2 ^ Z.of_nat (length Jobs) * Z.of_nat (fact (length Jobs))) = false \/
       float_range
         (counted xsp ysp (length Jobs) Jobs (base_of X Y xsp ysp base))
       = false))).
Proof.
  intros.
  pose proof (ExhaustiveFacts.search_spec clock Jobs X Y xsp ysp timeout base
                period w printStats) as H.
  pose proof (ExhaustiveFacts.search_raises clock Jobs X Y xsp ysp timeout base
                period w printStats) as Hr.
  destruct (search clock Jobs X Y xsp ysp timeout base period w printStats)
    as [[s' w'] | e]; cbn [outcome] in H.
  - split; [discriminate |].
    left; exists s', w'; split; [reflexivity | apply H].
  - destruct (Hr e eq_refl) as (Hps & [(-> & Hb) | (-> & Hf)]).
    + split; [discriminate |]. right; left.
      split; [exact Hps | split; [reflexivity | exact Hb]].
    + split; [discriminate |]. right; right.
      split; [exact Hps | split; [reflexivity | exact Hf]].
Qed.

(** C2.  A search that runs to completion (every tiling is true, the
    timeout cannot fire, the run returns) ends with a best tiling that is
    a leaf of the search tree; it has the least area of all leaves and,
    among the leaves of that area, the fewest corners; and any other
    complete run on the same jobs, panel and base tiling ends with a best
    tiling of the same area and corner count.  The run returns whenever
    its status line is safe; otherwise all it can raise is the
    ZeroDivisionError or the OverflowError of that line. *)
Theorem exhaustive_search_optimal :
  forall (Jobs : list Job) (X Y xsp ysp timeout : Z) (base : option T),
    (forall t : T, truthy t = true) ->
    forall (clock : nat -> Z) (period : Z) (w : nat) (printStats : bool),
      untimed clock timeout w printStats ->
      (status_line_safe Jobs X Y xsp ysp base printStats ->
       exists s' w',
         search clock Jobs X Y xsp ysp timeout base period w printStats
           = Ok (s', w')) /\
      (forall e,
         search clock Jobs X Y xsp ysp timeout base period w printStats
           = Raise e ->
         printStats = true /\ (e = ZeroDivisionError \/ e = OverflowError)) /\
      (forall s' w',
         search clock Jobs X Y xsp ysp timeout base period w printStats
           = Ok (s', w') ->
         (forall b, bestTiling s' = Some b ->
                    leaf_of xsp ysp Jobs (base_of X Y xsp ysp base) b) /\
         (forall L, leaf_of xsp ysp Jobs (base_of X Y xsp ysp base) L ->
            exists b, bestTiling s' = Some b /\ lex_le b L) /\
         (forall (clock2 : nat -> Z) (period2 : Z) (w2 : nat)
                 (printStats2 : bool) s2 w2',
            untimed clock2 timeout w2 printStats2 ->
            search clock2 Jobs X Y xsp ysp timeout base period2 w2 printStats2
              = Ok (s2, w2') ->
            option_map rank (bestTiling s2) = option_map rank (bestTiling s'))).
Proof.
  intros Jobs X Y xsp ysp timeout base Htr clock period w ps Hnt.
  split; [| split].
  - intros Hsafe.
    destruct (ExhaustiveFacts.search_returns clock Jobs X Y xsp ysp timeout
                base period w ps Hsafe) as (s' & w' & E & _).
    exists s', w'; exact E.
  - intros e E.
    destruct (ExhaustiveFacts.search_raises clock Jobs X Y xsp ysp timeout
                base period w ps e E) as (Hps & [(-> & _) | (-> & _)]);
      (split; [exact Hps |]); [left | right]; reflexivity.
  - intros s' w' E.
    pose proof (ExhaustiveFacts.search_spec clock Jobs X Y xsp ysp timeout base
                  period w ps) as H.
    rewrite E in H; cbn [outcome fst] in H. destruct H as (_ & Hleaf & Hbest).
    specialize (Hbest Htr Hnt).
    split; [exact Hleaf | split; [exact Hbest |]].
    intros clock2 period2 w2 ps2 s2 w2' Hnt2 E2.
    pose proof (ExhaustiveFacts.search_spec clock2 Jobs X Y xsp ysp timeout
                  base period2 w2 ps2) as H2.
    rewrite E2 in H2; cbn [outcome fst] in H2.
    destruct H2 as (_ & Hleaf2 & Hbest2).
    specialize (Hbest2 Htr Hnt2).
    destruct (bestTiling s2) as [b2 |] eqn:B2, (bestTiling s') as [b1 |] eqn:B1;
      simpl.
    + destruct (Hbest b2 (Hleaf2 b2 eq_refl)) as (c1 & Hc1 & L1).
      destruct (Hbest2 b1 (Hleaf b1 eq_refl)) as (c2 & Hc2 & L2).
      rewrite B1 in Hc1; injection Hc1 as <-.
      rewrite B2 in Hc2; injection Hc2 as <-.
      unfold rank, lex_le in *. f_equal. f_equal; lia.
    + destruct (Hbest b2 (Hleaf2 b2 eq_refl)) as (c1 & Hc1 & _).
      rewrite B1 in Hc1; discriminate.
    + destruct (Hbest2 b1 (Hleaf b1 eq_refl)) as (c2 & Hc2 & _).
      rewrite B2 in Hc2; discriminate.
    + reflexivity.
Qed.

End ExhaustiveClaims.

(** ** The random search *)

Lemma score_lt_trans a b c : score_lt a b -> score_lt b c -> score_lt a c.
Proof.
  unfold score_lt. destruct a, b, c; simpl; try congruence; lia.
Qed.

Lemma firstn_split_at {A : Type} (l : list A) (k n : nat) (a : A) :
  (k < n)%nat -> nth_error l k = Some a ->
  firstn n l = firstn k l ++ a :: firstn (n - S k) (skipn (S k) l).
Proof.
  revert k n. induction l as [| b l IH]; intros k n Hk Hn.
  - destruct k; discriminate.
  - destruct n as [| n]; [lia |]. destruct k as [| k]; simpl in *.
    + injection Hn as ->. rewrite Nat.sub_0_r. reflexivity.
    + f_equal. apply IH; [lia | exact Hn].
Qed.

Module RandomFacts.
Import RandomSearch.
Section Facts.
Context {T : Type} {ops : TilingOps T} {R : Type} {rnd : RandomOps R}.
Variable clock : nat -> Z.
Variable p : params (T := T).
Variable tail_period : Z.

Lemma place_one_ok m ix cur (r : R) :
  (ix < length (jobs p))%nat ->
  exists o r', place_one p m ix cur r = Ok (o, r').
Proof.
  intros Hix. unfold place_one.
  destruct (nth_error (jobs p) ix) as [j |] eqn:Hj;
    [| apply nth_error_None in Hj; lia].
  destruct (choice01 r) as [c r1].
  destruct (validAddPoints _ _ _) as [| p0 pts]; [eauto |].
  destruct (choice r1 _) as [k r2]. eauto.
Qed.

Lemma place_jobs_ok m order cur (r : R) :
  Forall (fun ix => (ix < length (jobs p))%nat) order ->
  exists o r', place_jobs p m order cur r = Ok (o, r').
Proof.
  intros H; revert cur r. induction H as [| ix rest Hix _ IH]; intros cur r.
  - simpl; eauto.
  - simpl. destruct (place_one_ok m ix cur r Hix) as (o & r1 & E).
    rewrite E; cbn [bind]. destruct o as [c |]; [apply IH | eauto].
Qed.

Lemma place_jobs_app m a b cur (r : R) :
  place_jobs p m (a ++ b) cur r =
  bind (place_jobs p m a cur r)
       (fun x => match fst x with
                 | None => Ok (None, snd x)
                 | Some c => place_jobs p m b c (snd x)
                 end).
Proof.
  revert cur r. induction a as [| ix a IH]; intros cur r; simpl.
  - reflexivity.
  - destruct (place_one p m ix cur r) as [[o r1] | e]; simpl; [| reflexivity].
    destruct o as [c |]; [apply IH | reflexivity].
Qed.

Lemma remainingJobs_ok order :
  Forall (fun ix => (ix < length (jobs p))%nat) order ->
  exists js, remainingJobs p order = Ok js.
Proof.
  induction 1 as [| ix rest Hix _ (js & IH)]; simpl; [eauto |].
  destruct (nth_error (jobs p) ix) as [j |] eqn:Hj;
    [| apply nth_error_None in Hj; lia].
  rewrite IH; simpl; eauto.
Qed.

Lemma tail_search_ok joborder cur w :
  Forall (fun ix => (ix < length (jobs p))%nat) joborder ->
  exists fs w', tail_search clock p tail_period joborder cur w = Ok (fs, w') /\
                forall f, fs = Some f -> ExhaustiveSearch.consistent f.
Proof.
  intros H. unfold tail_search.
  destruct (negb (N p - M p =? 0)).
  - destruct (remainingJobs_ok (skipn (Z.to_nat (M p)) joborder)) as (js & E).
    { apply Forall_forall; intros ix Hin.
      rewrite Forall_forall in H; apply H.
      rewrite <- (firstn_skipn (Z.to_nat (M p)) joborder).
      apply in_or_app; right; exact Hin. }
    rewrite E; cbn [bind].
    destruct (ExhaustiveFacts.search_returns clock js (x p) (y p) (xspacing p)
                (yspacing p) 0 (Some cur) tail_period w false)
      as (f & w' & Ef & C & _); [left; reflexivity |].
    rewrite Ef; cbn [bind].
    exists (Some f), w'; split; [reflexivity |].
    intros f' Hf; injection Hf as <-; exact C.
  - exists None, w; split; [reflexivity | discriminate].
Qed.

Lemma no_worse_refl (s : @state T) : no_worse s s.
Proof. split; [apply score_le_refl | left; split; reflexivity]. Qed.

Lemma no_worse_trans (s1 s2 s3 : @state T) :
  no_worse s1 s2 -> no_worse s2 s3 -> no_worse s1 s3.
Proof.
  intros [L1 H1] [L2 H2]; split; [eapply score_le_trans; eassumption |].
  destruct H2 as [[Et Es] | (b & Et & Es & Hlt)].
  - rewrite Et, Es; exact H1.
  - right; exists b; split; [exact Et | split; [exact Es |]].
    destruct H1 as [[_ Es1] | (_ & _ & _ & Hlt1)].
    + rewrite <- Es1; exact Hlt.
    + eapply score_lt_trans; eassumption.
Qed.

Lemma adopt_no_worse f (s : @state T) l :
  ExhaustiveSearch.consistent f -> no_worse s (fst (adopt f (s, l))).
Proof.
  intros C. unfold adopt.
  destruct (score_ltb (ExhaustiveSearch.bestScore f) (bestScore s)) eqn:Hlt;
    simpl; [| apply no_worse_refl].
  split; [apply score_lt_le; exact Hlt |].
  right. unfold ExhaustiveSearch.consistent in C.
  destruct (ExhaustiveSearch.bestTiling f) as [b |].
  - exists b; split; [reflexivity | split; [exact C | exact Hlt]].
  - rewrite C in Hlt; discriminate.
Qed.

Section Sampled.
(** [r.sample(range(N), N)] is an ordering of [range(N)]. *)
Hypothesis sample_perm :
  forall (r : R) (n : nat), Permutation (seq 0 n) (fst (sample r n)).

Lemma sample_range (r : R) :
  Forall (fun ix => (ix < length (jobs p))%nat)
         (fst (sample r (length (jobs p)))).
Proof.
  apply Forall_forall; intros ix Hin.
  apply (Permutation_in _ (Permutation_sym (sample_perm r _))) in Hin.
  apply in_seq in Hin; lia.
Qed.

Lemma random_phase_ok (r : R) :
  exists placed r',
    random_phase p r = Ok (fst (sample r (length (jobs p))), placed, r').
Proof.
  unfold random_phase. pose proof (sample_range r) as Hr.
  destruct (sample r (length (jobs p))) as [joborder r1]; simpl in *.
  destruct (place_jobs_ok (minDimension (jobs p))
              (firstn (Z.to_nat (M p)) joborder) (clone (baseTiling p)) r1)
    as (o & r2 & E).
  { apply Forall_forall; intros ix Hin. rewrite Forall_forall in Hr; apply Hr.
    rewrite <- (firstn_skipn (Z.to_nat (M p)) joborder).
    apply in_or_app; left; exact Hin. }
  rewrite E; cbn [bind]. eauto.
Qed.

Lemma attempt_ok s l e :
  exists fs s' l' e',
    attempt clock p tail_period s l e = Ok (fs, (s', l', e')) /\ no_worse s s'.
Proof.
  unfold attempt.
  destruct (random_phase_ok (rng e)) as (placed & r2 & E).
  rewrite E; cbn [bind].
  destruct placed as [cur |].
  - destruct (tail_search_ok (fst (sample (rng e) (length (jobs p)))) cur
                (ticks e) (sample_range (rng e))) as (fs & w' & Et & Hc).
    rewrite Et; cbn [bind].
    destruct fs as [f |].
    + pose proof (adopt_no_worse f s l (Hc f eq_refl)) as Hn.
      destruct (adopt f (s, l)) as [s' l'].
      do 4 eexists; split; [reflexivity | exact Hn].
    + do 4 eexists; split; [reflexivity | apply no_worse_refl].
  - do 4 eexists; split; [reflexivity | apply no_worse_refl].
Qed.

Lemma sync_best s l (e : @env T R) :
  bestTiling (fst (fst (snd (sync clock p s l e)))) = bestTiling s /\
  bestScore (fst (fst (snd (sync clock p s l e)))) = bestScore s.
Proof.
  unfold sync, time.
  destruct (clock (ticks e) >? lastCheckTime s + syncPeriod p);
    [destruct (searchTimeout p >? 0) |]; split; reflexivity.
Qed.

Lemma sync_placements s l (e : @env T R) :
  placements (fst (fst (snd (sync clock p s l e)))) = placements s.
Proof.
  unfold sync, time.
  destruct (clock (ticks e) >? lastCheckTime s + syncPeriod p);
    [destruct (searchTimeout p >? 0) |]; reflexivity.
Qed.

Lemma sync_continues s l (e : @env T R) :
  searchTimeout p <= 0 -> fst (sync clock p s l e) = false.
Proof.
  intros H. unfold sync, time.
  destruct (clock (ticks e) >? lastCheckTime s + syncPeriod p);
    [| reflexivity].
  destruct (Z.gtb_spec (searchTimeout p) 0); [lia | reflexivity].
Qed.

(** The synchronization block returns when it is entered with a timeout
    set and passed. *)
Lemma sync_returns_on_timeout s l (e : @env T R) :
  clock (ticks e) > lastCheckTime s + syncPeriod p ->
  searchTimeout p > 0 ->
  clock (S (S (ticks e))) - startTime p > searchTimeout p ->
  fst (sync clock p s l e) = true.
Proof.
  intros H1 H2 H3. unfold sync, time.
  destruct (Z.gtb_spec (clock (ticks e)) (lastCheckTime s + syncPeriod p));
    [| lia].
  destruct (Z.gtb_spec (searchTimeout p) 0); [| lia]. simpl.
  destruct (Z.gtb_spec (clock (S (S (ticks e))) - startTime p)
                       (searchTimeout p)); [reflexivity | lia].
Qed.

Lemma trial_ok s l e :
  exists b s' l' e',
    trial clock p tail_period s l e = Ok (b, (s', l', e')) /\ no_worse s s'.
Proof.
  unfold trial.
  destruct (attempt_ok s l e) as (fs & s1 & l1 & e1 & E & Hn).
  rewrite E; cbn [bind].
  match goal with |- context [sync clock p ?a ?b ?c] =>
    pose proof (sync_best a b c) as [Et Es];
    destruct (sync clock p a b c) as [b' [[s' l'] e']] end.
  simpl in Et, Es.
  exists b', s', l', e'; split; [reflexivity |].
  destruct Hn as [Hle Hn]; split; [rewrite Es; exact Hle |].
  rewrite Et, Es; exact Hn.
Qed.

Lemma trials_ok n s l e :
  exists out, trials clock p tail_period n s l e = Ok out /\
              no_worse s (state_of out).
Proof.
  revert s l e. induction n as [| n IH]; intros s l e; simpl.
  - eexists; split; [reflexivity | apply no_worse_refl].
  - destruct (trial_ok s l e) as (b & s1 & l1 & e1 & E & Hn).
    rewrite E; cbn [bind]. destruct b.
    + eexists; split; [reflexivity | exact Hn].
    + destruct (IH s1 l1 e1) as (out & E2 & Hn2).
      exists out; split; [exact E2 | eapply no_worse_trans; eassumption].
Qed.

End Sampled.
End Facts.
End RandomFacts.

Section RandomClaims.
Import RandomSearch.
Context {T : Type} {ops : TilingOps T} {R : Type} {rnd : RandomOps R}.
Variable clock : nat -> Z.
Variable p : params (T := T).
Variable tail_period : Z.

(** C9.  When [r.sample(range(N), N)] is an ordering of [range(N)], every
    trial of a worker returns, its best score afterwards is no larger than
    before, and its best tiling is the one it had or a tiling of strictly
    smaller area; so it is after any number of trials. *)
Theorem worker_best_never_worsens :
  (forall (r : R) (n : nat), Permutation (seq 0 n) (fst (sample r n))) ->
  (forall s l e, exists b s' l' e',
      trial clock p tail_period s l e = Ok (b, (s', l', e')) /\ no_worse s s')
  /\
  (forall n s l e, exists out,
      trials clock p tail_period n s l e = Ok out /\ no_worse s (state_of out)).
Proof.
  intros Hs; split.
  - intros s l e. apply RandomFacts.trial_ok; exact Hs.
  - intros n s l e. apply RandomFacts.trials_ok; exact Hs.
Qed.

(** C5.  If the first [k] jobs of the order are placed and the orientation
    drawn for job [k] (one of the first [M]) has no valid add-point, the
    trial raises nothing, makes no tail search, reads no clock for one, and
    leaves the best tiling and the best score as they were; the trial is
    counted and ends in the synchronization block like any other, and with
    no timeout set the loop goes on with the next trial. *)
Theorem abandoned_trial_changes_nothing :
  forall s l e k ix j cur rk,
    Z.of_nat k < M p ->
    nth_error (fst (sample (rng e) (length (jobs p)))) k = Some ix ->
    nth_error (jobs p) ix = Some j ->
    place_jobs p (minDimension (jobs p))
      (firstn k (fst (sample (rng e) (length (jobs p)))))
      (clone (baseTiling p)) (snd (sample (rng e) (length (jobs p))))
      = Ok (Some cur, rk) ->
    validAddPoints (removeInlets cur (minDimension (jobs p)))
      (if fst (choice01 rk) then Xdim j + xspacing p else Ydim j + xspacing p)
      (if fst (choice01 rk) then Ydim j + yspacing p else Xdim j + yspacing p)
      = [] ->
    exists e1 returned s2 l2 e2,
      attempt clock p tail_period s l e = Ok (None, (s, l, e1)) /\
      ticks e1 = ticks e /\ queue e1 = queue e /\
      sync clock p (counted s) (counted_locals l) e1 = (returned, (s2, l2, e2)) /\
      trial clock p tail_period s l e = Ok (returned, (s2, l2, e2)) /\
      bestTiling s2 = bestTiling s /\
      bestScore s2 = bestScore s /\
      placements s2 = placements s + 1 /\
      (searchTimeout p <= 0 ->
       returned = false /\
       forall n, trials clock p tail_period (S n) s l e
                 = trials clock p tail_period n s2 l2 e2).
Proof.
  intros s l e k ix j cur rk Hk Hix Hj Hplace Hnone.
  assert (Hphase : exists r2,
            random_phase p (rng e)
            = Ok (fst (sample (rng e) (length (jobs p))), None, r2)).
  { unfold random_phase.
    destruct (sample (rng e) (length (jobs p))) as [joborder r1]; simpl in *.
    rewrite (firstn_split_at joborder k (Z.to_nat (M p)) ix) by (lia || exact Hix).
    rewrite RandomFacts.place_jobs_app, Hplace; cbn [bind fst snd place_jobs].
    unfold place_one; rewrite Hj.
    destruct (choice01 rk) as [c r'] eqn:Hc; simpl in Hnone.
    rewrite Hnone; cbn [bind]. eauto. }
  destruct Hphase as (r2 & Hphase).
  set (e1 := mkEnv (ticks e) r2 (queue e)).
  assert (Ha : attempt clock p tail_period s l e = Ok (None, (s, l, e1)))
    by (unfold attempt; rewrite Hphase; reflexivity).
  pose proof (RandomFacts.sync_best clock p (counted s) (counted_locals l) e1)
    as [Et Es].
  pose proof (RandomFacts.sync_placements clock p (counted s)
                (counted_locals l) e1) as Ep.
  pose proof (RandomFacts.sync_continues clock p (counted s)
                (counted_locals l) e1) as Hc.
  assert (Htrial : trial clock p tail_period s l e
                   = Ok (sync clock p (counted s) (counted_locals l) e1))
    by (unfold trial; rewrite Ha; reflexivity).
  destruct (sync clock p (counted s) (counted_locals l) e1)
    as [returned [[s2 l2] e2]] eqn:Esync.
  cbn [fst snd] in Et, Es, Ep, Hc.
  exists e1, returned, s2, l2, e2.
  split; [exact Ha |]. split; [reflexivity |]. split; [reflexivity |].
  split; [exact Esync |]. split; [exact Htrial |].
  split; [exact Et |]. split; [exact Es |]. split; [exact Ep |].
  intros Hto. specialize (Hc Hto). split; [exact Hc |].
  intros n. cbn [trials]. rewrite Htrial; cbn [bind]. rewrite Hc. reflexivity.
Qed.

(** C4 as amended.  When the placement loop of a trial succeeds and the
    tail search [f] has finished, the worker adopts its result exactly when
    the tail's best score (an area) is strictly smaller than its own; it
    then takes over the tail's best tiling and score, and otherwise keeps
    its state: corners play no part. *)
Theorem worker_adopts_by_area :
  forall (s : @state T) (n : Z) (e : env) f s' l' e',
    attempt clock p tail_period s (mkLocals false n) e
      = Ok (Some f, (s', l', e')) ->
    (foundBetter l' = true <->
     score_lt (ExhaustiveSearch.bestScore f) (bestScore s)) /\
    (score_lt (ExhaustiveSearch.bestScore f) (bestScore s) ->
     bestTiling s' = ExhaustiveSearch.bestTiling f /\
     bestScore s' = ExhaustiveSearch.bestScore f) /\
    (~ score_lt (ExhaustiveSearch.bestScore f) (bestScore s) ->
     s' = s /\ l' = mkLocals false n).
Proof.
  intros s n e f s' l' e' H.
  assert (Ha : (s', l') = adopt f (s, mkLocals false n)).
  { unfold attempt in H. apply bind_ok in H.
    destruct H as ([[joborder placed] r2] & _ & H).
    destruct placed as [cur |]; [| discriminate].
    apply bind_ok in H. destruct H as ([fs w] & _ & H).
    destruct fs as [f0 |]; [| discriminate].
    destruct (adopt f0 (s, mkLocals false n)) as [s0 l0] eqn:E.
    injection H as <- <- <- _. rewrite E. reflexivity. }
  revert Ha. unfold adopt, score_lt.
  destruct (score_ltb (ExhaustiveSearch.bestScore f) (bestScore s));
    intros Ha; injection Ha as -> ->; simpl.
  - split; [tauto |]. split; [intros _; split; reflexivity |].
    intros H0; exfalso; apply H0; reflexivity.
  - split; [split; discriminate |]. split; [discriminate |].
    intros _; split; reflexivity.
Qed.

End RandomClaims.

(** C4 as stated fails: the tail search ends on a tiling of the worker's
    best area with fewer corners, and the worker keeps its own. *)
Lemma equal_area_fewer_corners_not_adopted :
  ~ RandomSearch.adopts_by_rank
      (ExhaustiveSearch.mkState (Some Examples.four_corners) (Fin 6) 1 0)
      (RandomSearch.mkState (Some Examples.six_corners) (Fin 6) 7 0).
Proof.
  unfold RandomSearch.adopts_by_rank. intros [_ H].
  assert (K : RandomSearch.strictly_better
                (ExhaustiveSearch.mkState (Some Examples.four_corners) (Fin 6) 1 0)
                (RandomSearch.mkState (Some Examples.six_corners) (Fin 6) 7 0)).
  { right; split; [reflexivity |].
    exists Examples.four_corners, Examples.six_corners.
    split; [reflexivity | split; [reflexivity | vm_compute; reflexivity]]. }
  specialize (H K). vm_compute in H. discriminate H.
Qed.

(** ** The thresholds of the inlet pruning *)

Module SpyFacts.
Import RandomSearch.
Section Facts.
Context {T : Type} {ops : TilingOps T} {R : Type} {rnd : RandomOps R}.
Variable p : params (T := Spy.t (T := T)).

Lemma place_jobs_log m order (cur cur' : Spy.t (T := T)) (r r' : R) :
  place_jobs (ops := Spy.spy_ops) p m order cur r = Ok (Some cur', r') ->
  Spy.inlet_log cur' = Spy.inlet_log cur ++ repeat m (length order).
Proof.
  revert cur r. induction order as [| ix rest IH]; intros cur r H; simpl in *.
  - injection H as <- _. rewrite app_nil_r. reflexivity.
  - apply bind_ok in H. destruct H as ([o r1] & H1 & H2).
    destruct o as [c |]; [| discriminate].
    apply IH in H2. rewrite H2. clear H2 IH.
    unfold place_one in H1.
    destruct (nth_error (jobs p) ix) as [j |]; [| discriminate].
    destruct (choice01 r) as [b r0].
    destruct (validAddPoints _ _ _) as [| p0 pts]; [discriminate |].
    destruct (choice r0 _) as [k r2].
    injection H1 as <- _. unfold Spy.inlet_log; simpl.
    rewrite <- app_assoc. reflexivity.
Qed.

End Facts.
End SpyFacts.

Section InletClaims.
Import RandomSearch.
Context {T : Type} {ops : TilingOps T} {R : Type} {rnd : RandomOps R}.
Variable p : params (T := Spy.t (T := T)).

(** C6 as amended.  On tilings that log their [removeInlets] calls: when the
    placement loop of a trial places all its jobs, [removeInlets] has been
    called once before each placement, every time with the least dimension
    of all the jobs of the search, placed or not. *)
Theorem inlet_threshold_is_of_all_jobs :
  forall (r r' : R) joborder cur,
    random_phase (ops := Spy.spy_ops) p r = Ok (joborder, Some cur, r') ->
    Spy.inlet_log cur
      = Spy.inlet_log (baseTiling p)
        ++ repeat (minDimension (jobs p))
                  (length (firstn (Z.to_nat (M p)) joborder)).
Proof.
  intros r r' joborder cur H. unfold random_phase in H.
  destruct (sample r (length (jobs p))) as [order r1].
  apply bind_ok in H. destruct H as ([o r2] & H1 & H2).
  injection H2 as -> -> _.
  apply SpyFacts.place_jobs_log in H1. exact H1.
Qed.

End InletClaims.

(** C6 as stated fails: with a 1 x 1 job placed first and a 5 x 5 job
    second, the second [removeInlets] receives 1, not the 5 of the only job
    still to place. *)
Lemma second_threshold_ignores_placed_job :
  ~ prunes_by_outstanding Examples.logging_worker ([] : Tape.t).
Proof.
  intros H.
  specialize (H [0; 1]%nat
                (Panel.mkPanel 10 10 0 0
                   [Panel.mkRect 0 0 1 1 1; Panel.mkRect 1 1 5 5 3], [1; 1])
                [] eq_refl).
  vm_compute in H. discriminate H.
Qed.

(** ** The coordinator *)

Section CoordinatorClaims.
Import Coordinator.
Context {T : Type} {ops : TilingOps T}.
Variable clock : nat -> Z.

Lemma report_raises startTime (cf : @state T * bool) w e :
  report clock startTime cf w = Raise e -> e = ValueError \/ e = ZeroDivisionError.
Proof.
  unfold report, truediv, time. destruct cf as [c found].
  destruct found; [| discriminate].
  destruct (bestTiling c) as [b |]; simpl.
  - destruct (truthy b); simpl.
    + destruct (area b =? 0); simpl; intros H; injection H as <-; auto.
    + intros H; injection H as <-; auto.
  - intros H; injection H as <-; auto.
Qed.

Lemma rounds_raises startTime found (c : @state T) w e :
  rounds clock startTime found c w = Raise e ->
  e = ValueError \/ e = ZeroDivisionError.
Proof.
  revert c w. induction found as [| msgs rest IH]; intros c w; simpl.
  - discriminate.
  - destruct (report clock startTime (drain msgs (c, false)) w) as [w1 | e1] eqn:E;
      simpl.
    + apply IH.
    + intros H; injection H as <-. eapply report_raises; exact E.
Qed.

(** C8.  Whatever the coordinator has received when KeyboardInterrupt
    arrives, [tile_search_random] does not return: formatting the elapsed
    time, a float, with [{:d}] raises ValueError (or the division by an
    elapsed time of zero raises first). *)
Theorem interrupted_coordinator_raises :
  forall (found : list (list (Z * option T))) (last : list (Z * option T))
         (w : nat),
    tile_search_random clock found last w = Raise ValueError \/
    tile_search_random clock found last w = Raise ZeroDivisionError.
Proof.
  intros found last w. unfold tile_search_random, time.
  destruct (rounds clock (clock w) found (mkState Inf None 0) (S w))
    as [[c w1] | e] eqn:E; simpl.
  - unfold truediv. destruct (clock w1 - clock w =? 0); simpl; auto.
  - destruct (rounds_raises _ _ _ _ _ E) as [-> | ->]; auto.
Qed.

Lemma receive_spec (c : @state T) (found : bool) (newResult : Z * option T) :
  (exists t, snd newResult = Some t /\ truthy t = true /\
             score_lt (Fin (area t)) (bestScore c) /\
             receive (c, found) newResult
             = (mkState (Fin (area t)) (Some t)
                        (placementsTried c + fst newResult), true)) \/
  ((forall t, snd newResult = Some t -> truthy t = true ->
              score_le (bestScore c) (Fin (area t))) /\
   receive (c, found) newResult
   = (mkState (bestScore c) (bestTiling c)
              (placementsTried c + fst newResult), found)).
Proof.
  destruct newResult as [n o]. unfold receive, score_lt, score_le; cbn [fst snd].
  destruct o as [t |].
  - destruct (truthy t) eqn:Ht; cbn [andb].
    + destruct (score_ltb (Fin (area t)) (bestScore c)) eqn:Hlt.
      * left; exists t; repeat split; assumption.
      * right; split; [| reflexivity].
        intros t' E _; injection E as <-; exact Hlt.
    + right; split; [| reflexivity].
      intros t' E H; injection E as <-; congruence.
  - right; split; [| reflexivity]. intros t' E; discriminate.
Qed.

Lemma drain_spec msgs : forall (c : @state T) (found : bool),
  score_le (bestScore (fst (drain msgs (c, found)))) (bestScore c) /\
  (forall n t, In (n, Some t) msgs -> truthy t = true ->
     score_le (bestScore (fst (drain msgs (c, found)))) (Fin (area t))) /\
  ((snd (drain msgs (c, found)) = found /\
    bestTiling (fst (drain msgs (c, found))) = bestTiling c /\
    bestScore (fst (drain msgs (c, found))) = bestScore c) \/
   (snd (drain msgs (c, found)) = true /\
    score_lt (bestScore (fst (drain msgs (c, found)))) (bestScore c) /\
    exists n t, In (n, Some t) msgs /\ truthy t = true /\
      bestTiling (fst (drain msgs (c, found))) = Some t /\
      bestScore (fst (drain msgs (c, found))) = Fin (area t))).
Proof.
  induction msgs as [| m rest IH]; intros c found; unfold drain in *;
    cbn [fold_left].
  - split; [apply score_le_refl |]. split; [intros n t [] |].
    left; repeat split.
  - destruct (receive_spec c found m) as [(t & Em & Ht & Hlt & Er) | (Hno & Er)];
      rewrite Er.
    + specialize (IH (mkState (Fin (area t)) (Some t)
                              (placementsTried c + fst m)) true).
      cbn [bestScore bestTiling] in IH. destruct IH as (Hle & Hall & Hres).
      split; [eapply score_le_trans; [exact Hle | apply score_lt_le; exact Hlt] |].
      split.
      * intros n' t' [E | Hin] Ht'.
        -- subst m; simpl in Em; injection Em as <-. exact Hle.
        -- apply (Hall n' t' Hin Ht').
      * right. destruct Hres as [(Hs & Hbt & Hbs) | (Hs & Hlt2 & n' & t' & Hin & Ht' & Hbt & Hbs)].
        -- split; [exact Hs |]. split; [rewrite Hbs; exact Hlt |].
           exists (fst m), t. split; [left; destruct m; simpl in *; congruence |].
           split; [exact Ht |]. split; [exact Hbt | exact Hbs].
        -- split; [exact Hs |].
           split; [eapply score_lt_trans; eassumption |].
           exists n', t'. split; [right; exact Hin |].
           split; [exact Ht' |]. split; [exact Hbt | exact Hbs].
    + specialize (IH (mkState (bestScore c) (bestTiling c)
                              (placementsTried c + fst m)) found).
      cbn [bestScore bestTiling] in IH. destruct IH as (Hle & Hall & Hres).
      split; [exact Hle |]. split.
      * intros n' t' [E | Hin] Ht'.
        -- subst m. eapply score_le_trans; [exact Hle |].
           apply (Hno t' eq_refl Ht').
        -- apply (Hall n' t' Hin Ht').
      * destruct Hres as [Hsame | (Hs & Hlt2 & n' & t' & Hin & Ht' & Hbt & Hbs)].
        -- left; exact Hsame.
        -- right. split; [exact Hs |]. split; [exact Hlt2 |].
           exists n', t'. split; [right; exact Hin |].
           split; [exact Ht' |]. split; [exact Hbt | exact Hbs].
Qed.

(** C3 as amended.  A drained result updates the global best exactly when
    it carries a true tiling whose area is strictly smaller than the global
    best score; the tiling and its area then become the global best, and
    otherwise the global best stays: corners play no part.  After a whole
    drain the global best score is the least of the score before and of the
    areas reported, and the round has found better exactly when the score
    went down. *)
Theorem coordinator_merges_by_area :
  forall (c : @state T) (newResult : Z * option T)
         (msgs : list (Z * option T)),
    (snd (receive (c, false) newResult) = true <->
     exists t, snd newResult = Some t /\ truthy t = true /\
               score_lt (Fin (area t)) (bestScore c)) /\
    (snd (receive (c, false) newResult) = true ->
     exists t, snd newResult = Some t /\
               bestTiling (fst (receive (c, false) newResult)) = Some t /\
               bestScore (fst (receive (c, false) newResult)) = Fin (area t)) /\
    (snd (receive (c, false) newResult) = false ->
     bestTiling (fst (receive (c, false) newResult)) = bestTiling c /\
     bestScore (fst (receive (c, false) newResult)) = bestScore c) /\
    score_le (bestScore (fst (drain msgs (c, false)))) (bestScore c) /\
    (forall n t, In (n, Some t) msgs -> truthy t = true ->
       score_le (bestScore (fst (drain msgs (c, false)))) (Fin (area t))) /\
    (snd (drain msgs (c, false)) = true <->
     score_lt (bestScore (fst (drain msgs (c, false)))) (bestScore c)) /\
    (snd (drain msgs (c, false)) = true ->
     exists n t, In (n, Some t) msgs /\ truthy t = true /\
       bestTiling (fst (drain msgs (c, false))) = Some t /\
       bestScore (fst (drain msgs (c, false))) = Fin (area t)) /\
    (snd (drain msgs (c, false)) = false ->
     bestTiling (fst (drain msgs (c, false))) = bestTiling c).
Proof.
  intros c newResult msgs.
  assert (Hirr : forall a, ~ score_lt a a)
    by (intros a H; unfold score_lt in H; rewrite score_ltb_irrefl in H;
        discriminate).
  split; [| split; [| split]].
  - destruct (receive_spec c false newResult)
      as [(t & Em & Ht & Hlt & Er) | (Hno & Er)]; rewrite Er; cbn [snd].
    + split; [intros _; exists t; repeat split; assumption | reflexivity].
    + split; [discriminate |].
      intros (t & Em & Ht & Hlt). specialize (Hno t Em Ht).
      unfold score_le, score_lt in *. congruence.
  - destruct (receive_spec c false newResult)
      as [(t & Em & Ht & Hlt & Er) | (Hno & Er)]; rewrite Er; cbn [fst snd].
    + intros _; exists t; repeat split; assumption.
    + discriminate.
  - destruct (receive_spec c false newResult)
      as [(t & Em & Ht & Hlt & Er) | (Hno & Er)]; rewrite Er; cbn [fst snd].
    + discriminate.
    + intros _; split; reflexivity.
  - destruct (drain_spec msgs c false) as (Hle & Hall & Hres).
    split; [exact Hle |]. split; [exact Hall |].
    destruct Hres as [(Hs & Hbt & Hbs) | (Hs & Hlt & n & t & Hin & Ht & Hbt & Hbs)].
    + split; [| split].
      * split; [intros H; congruence |].
        rewrite Hbs; intros H; exfalso; exact (Hirr _ H).
      * intros H; congruence.
      * intros _; exact Hbt.
    + split; [| split].
      * split; [intros _; exact Hlt | intros _; exact Hs].
      * intros _; exists n, t; repeat split; assumption.
      * intros H; congruence.
Qed.

End CoordinatorClaims.

(** C3 as stated fails: a reported tiling of the global best's area with
    fewer corners does not replace the global best. *)
Lemma equal_area_fewer_corners_not_merged :
  ~ Coordinator.merges_by_rank
      (Coordinator.mkState (Fin 6) (Some Examples.six_corners) 10)
      (1, Some Examples.four_corners).
Proof.
  unfold Coordinator.merges_by_rank. intros [_ H].
  assert (K : exists t, snd (1, Some Examples.four_corners) = Some t /\
                Coordinator.better_by_rank
                  (Coordinator.mkState (Fin 6) (Some Examples.six_corners) 10) t).
  { exists Examples.four_corners; split; [reflexivity |].
    right; split; [reflexivity |].
    exists Examples.six_corners; split; [reflexivity | vm_compute; reflexivity]. }
  specialize (H K). vm_compute in H. discriminate H.
Qed.

(** ** The exhaustive search on concrete panels *)

(** C1.  The counter does not reach the permutations announced.  Three
    1 x 1 jobs on a 3 x 3 panel, no timeout: the search ends with a best
    tiling, yet its counter stops at 36 of 48.  Three 2 x 3 jobs on a 1 x 1
    panel, where nothing fits: 24 of 48. *)
Theorem permutations_fall_short :
  (exists s' w',
     ExhaustiveSearch.search Examples.steady_clock Examples.three_squares
       3 3 0 0 0 (@None Panel.t) 3000 0 true = Ok (s', w') /\
     ExhaustiveSearch.bestScore s' = Fin 9 /\
     ExhaustiveSearch.permutations s' = 36) /\
  (exists s' w',
     ExhaustiveSearch.search Examples.steady_clock Examples.three_large
       1 1 0 0 0 (@None Panel.t) 3000 0 true = Ok (s', w') /\
     ExhaustiveSearch.bestTiling s' = None /\
     ExhaustiveSearch.permutations s' = 24) /\
  ExhaustiveSearch.possiblePermutations
    (fst (fst (ExhaustiveSearch.init Examples.steady_clock
                 Examples.three_squares 3 3 0 0 0 (@None Panel.t) 3000 0)))
    = 48 /\
  ExhaustiveSearch.possiblePermutations
    (fst (fst (ExhaustiveSearch.init Examples.steady_clock
                 Examples.three_large 1 1 0 0 0 (@None Panel.t) 3000 0)))
    = 48.
Proof.
  split; [| split; [| split; vm_compute; reflexivity]].
  - eexists _, _. split; [vm_compute; reflexivity |].
    split; vm_compute; reflexivity.
  - eexists _, _. split; [vm_compute; reflexivity |].
    split; vm_compute; reflexivity.
Qed.

(** C7.  The timeout does not stop the exhaustive search.  With a timeout
    of 1000 and the first status block 5000 after the construction, the
    block executes its [return] in the call below the first placement, with
    a best area of 12 and 2 permutations counted; the search goes on all
    the same, places the strip rotated, finds a tiling of area 10 and counts
    all 8 permutations, just as the search without timeout does. *)
Theorem timeout_return_leaves_one_call_only :
  (exists s1 w1,
     ExhaustiveSearch.job_body Examples.late_clock Examples.timed_params
       (ExhaustiveSearch._run Examples.late_clock Examples.timed_params 0 true)
       [Examples.block] Examples.strip_placed true true 0
       (Examples.timed_start, 1%nat) = Ok (true, (s1, w1)) /\
     ExhaustiveSearch.bestScore s1 = Fin 12 /\
     ExhaustiveSearch.permutations s1 = 2) /\
  (exists s' w',
     ExhaustiveSearch.search Examples.late_clock
       [Examples.strip; Examples.block] 4 5 0 0 1000 (@None Panel.t) 3000 0 true
       = Ok (s', w') /\
     ExhaustiveSearch.bestScore s' = Fin 10 /\
     ExhaustiveSearch.permutations s' = 8 /\
     exists w0,
       ExhaustiveSearch.search Examples.late_clock
         [Examples.strip; Examples.block] 4 5 0 0 0 (@None Panel.t) 3000 0 false
       = Ok (ExhaustiveSearch.mkState (ExhaustiveSearch.bestTiling s')
               (ExhaustiveSearch.bestScore s')
               (ExhaustiveSearch.permutations s') 0, w0)).
Proof.
  split.
  - eexists _, _. split; [vm_compute; reflexivity |].
    split; vm_compute; reflexivity.
  - eexists _, _. split; [vm_compute; reflexivity |].
    split; [vm_compute; reflexivity |].
    split; [vm_compute; reflexivity |].
    eexists. vm_compute. reflexivity.
Qed.

(** ** The properties at work on concrete inputs *)

Lemma Tape_sample_perm (r : Tape.t) (n : nat) :
  Permutation (seq 0 n) (fst (sample r n)).
Proof.
  destruct r as [| k r]; simpl; [apply Permutation_refl |].
  destruct (Nat.odd k); [apply Permutation_rev | apply Permutation_refl].
Qed.

(** The strip and the block on the 4 x 5 panel, no timeout set: the search
    returns a best tiling no leaf beats. *)
Lemma exhaustive_search_optimal_witness :
  (forall t : Panel.t, truthy t = true) /\
  ExhaustiveSearch.untimed Examples.steady_clock 0 0 true /\
  ExhaustiveSearch.status_line_safe [Examples.strip; Examples.block] 4 5 0 0
    (@None Panel.t) true /\
  exists s' w',
    ExhaustiveSearch.search Examples.steady_clock
      [Examples.strip; Examples.block] 4 5 0 0 0 (@None Panel.t) 3000 0 true
      = Ok (s', w') /\
    forall L,
      ExhaustiveSearch.leaf_of 0 0 [Examples.strip; Examples.block]
        (ExhaustiveSearch.base_of 4 5 0 0 None) L ->
      exists b, ExhaustiveSearch.bestTiling s' = Some b /\
                ExhaustiveSearch.lex_le b L.
Proof.
  assert (Hsafe : ExhaustiveSearch.status_line_safe
                    [Examples.strip; Examples.block] 4 5 0 0
                    (@None Panel.t) true).
  { right. split; [vm_compute; reflexivity |].
    split; vm_compute; reflexivity. }
  split; [intros t; reflexivity |].
  split; [right; left; lia |].
  split; [exact Hsafe |].
  destruct (exhaustive_search_optimal (ops := Panel.ops)
              [Examples.strip; Examples.block]
              4 5 0 0 0 (@None Panel.t) (fun _ => @eq_refl bool true)
              Examples.steady_clock 3000 0%nat true)
    as (Hret & _ & Hopt).
  - right; left; lia.
  - destruct (Hret Hsafe) as (s' & w' & E).
    exists s', w'; split; [exact E | apply (Hopt s' w' E)].
Defined.

(** Three trials of a worker reading its choices off a tape. *)
Lemma worker_best_never_worsens_witness :
  (forall (r : Tape.t) (n : nat), Permutation (seq 0 n) (fst (sample r n))) /\
  exists out,
    RandomSearch.trials Examples.late_clock (Examples.narrow_worker 1) 0 3
      Examples.fresh_worker Examples.no_locals (Examples.tape_env [0; 1]%nat)
      = Ok out /\
    RandomSearch.no_worse Examples.fresh_worker (RandomSearch.state_of out).
Proof.
  split; [exact Tape_sample_perm |].
  exact (proj2 (worker_best_never_worsens Examples.late_clock
                  (Examples.narrow_worker 1) 0 Tape_sample_perm)
               3%nat Examples.fresh_worker Examples.no_locals
               (Examples.tape_env [0; 1]%nat)).
Defined.

(** The strip, drawn as it is, has no add-point on the 2 x 5 panel. *)
Lemma abandoned_trial_changes_nothing_witness :
  0 < RandomSearch.M (Examples.narrow_worker 0) /\
  validAddPoints
    (removeInlets (clone (RandomSearch.baseTiling (Examples.narrow_worker 0)))
       (minDimension [Examples.strip]))
    3 1 = [] /\
  exists e1,
    RandomSearch.attempt Examples.late_clock (Examples.narrow_worker 0) 0
      Examples.fresh_worker Examples.no_locals (Examples.tape_env [0; 1]%nat)
      = Ok (None, (Examples.fresh_worker, Examples.no_locals, e1)).
Proof.
  split; [reflexivity |]. split; [reflexivity |].
  destruct (abandoned_trial_changes_nothing Examples.late_clock
              (Examples.narrow_worker 0) 0 Examples.fresh_worker
              Examples.no_locals (Examples.tape_env [0; 1]%nat)
              0%nat 0%nat Examples.strip
              (clone (RandomSearch.baseTiling (Examples.narrow_worker 0)))
              [1%nat])
    as (e1 & _ & _ & _ & _ & Ha & _); try reflexivity.
  exists e1; exact Ha.
Defined.

(** The 1 x 1 job and the 5 x 5 job placed on a logging panel: both calls
    of [removeInlets] received 1. *)
Lemma inlet_threshold_is_of_all_jobs_witness :
  RandomSearch.random_phase (ops := Spy.spy_ops) Examples.logging_worker
    ([] : Tape.t)
  = Ok ([0; 1]%nat,
        Some (Panel.mkPanel 10 10 0 0
                [Panel.mkRect 0 0 1 1 1; Panel.mkRect 1 1 5 5 3], [1; 1]),
        []) /\
  Spy.inlet_log
    (Panel.mkPanel 10 10 0 0
       [Panel.mkRect 0 0 1 1 1; Panel.mkRect 1 1 5 5 3], [1; 1])
  = [1; 1].
Proof.
  split; [reflexivity |].
  exact (inlet_threshold_is_of_all_jobs Examples.logging_worker
           ([] : Tape.t) [] [0; 1]%nat
           (Panel.mkPanel 10 10 0 0
              [Panel.mkRect 0 0 1 1 1; Panel.mkRect 1 1 5 5 3], [1; 1])
           eq_refl).
Defined.

(** A trial whose tail search places the strip rotated: the worker, with
    no tiling yet, adopts it. *)
Lemma worker_adopts_by_area_witness :
  exists f s' l' e',
    RandomSearch.attempt Examples.late_clock (Examples.narrow_worker 1) 0
      Examples.fresh_worker (RandomSearch.mkLocals false 0)
      (Examples.tape_env [])
      = Ok (Some f, (s', l', e')) /\
    RandomSearch.bestTiling s' = ExhaustiveSearch.bestTiling f /\
    RandomSearch.bestScore s' = Fin 3.
Proof.
  destruct (RandomSearch.attempt Examples.late_clock (Examples.narrow_worker 1)
              0 Examples.fresh_worker (RandomSearch.mkLocals false 0)
              (Examples.tape_env []))
    as [[[f |] [[s' l'] e']] | err] eqn:E;
    try (vm_compute in E; discriminate E).
  exists f, s', l', e'. split; [reflexivity |].
  destruct (worker_adopts_by_area Examples.late_clock
              (Examples.narrow_worker 1) 0 Examples.fresh_worker 0
              (Examples.tape_env []) f s' l' e' E) as (_ & Hyes & _).
  pose proof E as E'. vm_compute in E'.
  injection E' as <- <- <- <-.
  split; [apply Hyes; reflexivity | reflexivity].
Defined.

(** ** Drill clustering *)

Lemma and_then_return {A B} (m : answer A) (k : A -> answer B) b :
  and_then m k = Return b -> exists a, m = Return a /\ k a = Return b.
Proof. destruct m; simpl; [eauto | discriminate]. Qed.

Section DictFacts.
Context {K V : Type}.
Variable eqb : K -> K -> bool.

Lemma dict_set_keys (d : list (K * V)) k v :
  (dict_get eqb d k <> None /\
   map fst (dict_set eqb d k v) = map fst d) \/
  (dict_get eqb d k = None /\
   dict_set eqb d k v = d ++ [(k, v)]).
Proof.
  induction d as [| [k' v'] d IH]; simpl.
  - right. split; reflexivity.
  - destruct (eqb k' k) eqn:E.
    + left. split; [discriminate | reflexivity].
    + destruct IH as [[H1 H2] | [H1 H2]].
      * left. split; [exact H1 | simpl; now rewrite H2].
      * right. split; [exact H1 | now rewrite H2].
Qed.

Lemma dict_set_length (d : list (K * V)) k v :
  (length (dict_set eqb d k v) <= S (length d))%nat.
Proof.
  destruct (dict_set_keys d k v) as [[_ H] | [_ H]].
  - rewrite <- (length_map fst), H, length_map. lia.
  - rewrite H, length_app. simpl. lia.
Qed.

Lemma dict_set_keeps_keys (d : list (K * V)) k v k0 :
  In k0 (map fst d) -> In k0 (map fst (dict_set eqb d k v)).
Proof.
  intros H. destruct (dict_set_keys d k v) as [[_ E] | [_ E]]; rewrite E.
  - exact H.
  - rewrite map_app. apply in_or_app. now left.
Qed.

Lemma dict_set_has_key (d : list (K * V)) k v :
  (forall a, eqb a a = true) ->
  exists k', In k' (map fst (dict_set eqb d k v)) /\ eqb k' k = true.
Proof.
  intros Hrefl. induction d as [| [k' v'] d IH]; simpl.
  - exists k. split; [now left | apply Hrefl].
  - destruct (eqb k' k) eqn:E.
    + exists k'. split; [now left | exact E].
    + destruct IH as (k1 & H1 & H2). exists k1. split; [now right | exact H2].
Qed.

Lemma dict_set_same_keys {V' : Type} (d : list (K * V)) (d' : list (K * V'))
    k v v' :
  map fst d = map fst d' ->
  map fst (dict_set eqb d k v) = map fst (dict_set eqb d' k v').
Proof.
  revert d'. induction d as [| [k1 v1] d IH]; intros [| [k2 v2] d'] H;
    simpl in *; try discriminate; [reflexivity |].
  injection H as -> H.
  destruct (eqb k2 k); simpl; f_equal; auto.
Qed.

End DictFacts.

Module DrillFacts.
Import DrillCluster.
Local Open Scope Q_scope.

Lemma Qltb_true a b : Qltb a b = true <-> a < b.
Proof.
  unfold Qltb. rewrite negb_true_iff.
  split; intros H.
  - apply Qnot_le_lt. intros L. apply Qle_bool_iff in L. congruence.
  - destruct (Qle_bool b a) eqn:E; [| reflexivity].
    apply Qle_bool_iff in E. exfalso. apply (Qlt_not_le _ _ H E).
Qed.

Lemma Qltb_false a b : Qltb a b = false <-> b <= a.
Proof.
  unfold Qltb. rewrite negb_false_iff. apply Qle_bool_iff.
Qed.

Lemma Qle_bool_false a b : Qle_bool a b = false -> b < a.
Proof.
  intros H. apply Qnot_le_lt. intros L. apply Qle_bool_iff in L. congruence.
Qed.

Lemma py_min_spec xs : forall x,
  In (py_min x xs) (x :: xs) /\
  forall y, In y (x :: xs) -> py_min x xs <= y.
Proof.
  induction xs as [| a xs IH]; intros x.
  - simpl. split; [now left |]. intros y [<- | []]. apply Qle_refl.
  - unfold py_min. simpl. fold (py_min (if Qltb a x then a else x) xs).
    destruct (IH (if Qltb a x then a else x)) as [Hin Hle].
    split.
    + destruct Hin as [Hin | Hin]; [| now right; right].
      rewrite <- Hin. destruct (Qltb a x); [right; now left | now left].
    + intros y Hy.
      assert (Hm : py_min (if Qltb a x then a else x) xs
                   <= (if Qltb a x then a else x)) by (apply Hle; now left).
      destruct Hy as [<- | [<- | Hy]].
      * eapply Qle_trans; [exact Hm |].
        destruct (Qltb a x) eqn:E; [| apply Qle_refl].
        apply Qltb_true in E. now apply Qlt_le_weak.
      * eapply Qle_trans; [exact Hm |].
        destruct (Qltb a x) eqn:E; [apply Qle_refl |].
        now apply Qltb_false in E.
      * apply Hle. now right.
Qed.

Lemma py_max_spec xs : forall x,
  In (py_max x xs) (x :: xs) /\
  forall y, In y (x :: xs) -> y <= py_max x xs.
Proof.
  induction xs as [| a xs IH]; intros x.
  - simpl. split; [now left |]. intros y [<- | []]. apply Qle_refl.
  - unfold py_max. simpl. fold (py_max (if Qltb x a then a else x) xs).
    destruct (IH (if Qltb x a then a else x)) as [Hin Hle].
    split.
    + destruct Hin as [Hin | Hin]; [| now right; right].
      rewrite <- Hin. destruct (Qltb x a); [right; now left | now left].
    + intros y Hy.
      assert (Hm : (if Qltb x a then a else x)
                   <= py_max (if Qltb x a then a else x) xs)
        by (apply Hle; now left).
      destruct Hy as [<- | [<- | Hy]].
      * eapply Qle_trans; [| exact Hm].
        destruct (Qltb x a) eqn:E; [| apply Qle_refl].
        apply Qltb_true in E. now apply Qlt_le_weak.
      * eapply Qle_trans; [| exact Hm].
        destruct (Qltb x a) eqn:E; [apply Qle_refl |].
        now apply Qltb_false in E.
      * apply Hle. now right.
Qed.

Lemma insert_perm x l : Permutation (insert x l) (x :: l).
Proof.
  induction l as [| y l IH]; simpl; [reflexivity |].
  destruct (Qle_bool x y); [reflexivity |].
  rewrite IH. apply perm_swap.
Qed.

Lemma sorted_perm l : Permutation (sorted l) l.
Proof.
  induction l as [| x l IH]; simpl; [reflexivity |].
  rewrite insert_perm. now constructor.
Qed.

Lemma place_some tolerance clusters size clusters' :
  place tolerance clusters size = Some clusters' ->
  exists pre c post,
    clusters = pre ++ c :: post /\
    clusters' = pre ++ (c ++ [size]) :: post /\
    c <> [] /\
    forall a, In a c ->
      a - 2 * tolerance <= size /\ size <= a + 2 * tolerance.
Proof.
  revert clusters'.
  induction clusters as [| c rest IH]; intros clusters' H; simpl in H.
  - discriminate.
  - destruct c as [| x xs]; [discriminate |].
    destruct (Qle_bool (py_max x xs - 2 * tolerance) size
              && Qle_bool size (py_min x xs + 2 * tolerance)) eqn:E.
    + injection H as <-. exists [], (x :: xs), rest.
      apply andb_true_iff in E. destruct E as [E1 E2].
      apply Qle_bool_iff in E1, E2.
      repeat split; try discriminate.
      * destruct (py_max_spec xs x) as [_ Hmax].
        specialize (Hmax a H). lra.
      * destruct (py_min_spec xs x) as [_ Hmin].
        specialize (Hmin a H). lra.
    + destruct (place tolerance rest size) as [r |] eqn:P;
        simpl in H; [| discriminate].
      injection H as <-.
      destruct (IH r eq_refl) as (pre & c & post & -> & -> & Hc & Hfit).
      exists ((x :: xs) :: pre), c, post. repeat split; auto; apply Hfit; auto.
Qed.

Lemma add_size_nonempty tolerance clusters size :
  Forall (fun c => c <> []) clusters ->
  Forall (fun c => c <> []) (add_size tolerance clusters size).
Proof.
  intros H. unfold add_size.
  destruct (place tolerance clusters size) as [r |] eqn:P.
  - destruct (place_some _ _ _ _ P) as (pre & c & post & -> & -> & Hc & _).
    apply Forall_app in H. destruct H as [Hpre H].
    inversion H; subst.
    apply Forall_app. split; [exact Hpre |].
    constructor; [now destruct c | assumption].
  - apply Forall_app. split; [exact H |].
    constructor; [discriminate | constructor].
Qed.

Lemma add_size_length tolerance clusters size :
  (length (add_size tolerance clusters size) <= S (length clusters))%nat.
Proof.
  unfold add_size.
  destruct (place tolerance clusters size) as [r |] eqn:P.
  - destruct (place_some _ _ _ _ P) as (pre & c & post & -> & -> & _ & _).
    rewrite !length_app. simpl. lia.
  - rewrite length_app. simpl. lia.
Qed.

Lemma clusters_from_nonempty tolerance sizes : forall clusters,
  Forall (fun c => c <> []) clusters ->
  Forall (fun c => c <> [])
         (fold_left (add_size tolerance) sizes clusters).
Proof.
  induction sizes as [| s sizes IH]; intros clusters H; simpl.
  - exact H.
  - apply IH. now apply add_size_nonempty.
Qed.

Lemma clusters_from_length tolerance sizes : forall clusters,
  (length (fold_left (add_size tolerance) sizes clusters)
   <= length sizes + length clusters)%nat.
Proof.
  induction sizes as [| s sizes IH]; intros clusters; simpl.
  - lia.
  - specialize (IH (add_size tolerance clusters s)).
    pose proof (add_size_length tolerance clusters s). lia.
Qed.

Lemma new_size_ok c : c <> [] -> exists s, new_size c = Ok s.
Proof.
  intros Hc. unfold new_size.
  pose proof (sorted_perm c) as Hp.
  destruct (sorted c) as [| x xs] eqn:E.
  - apply Permutation_nil in Hp. contradiction.
  - eexists. reflexivity.
Qed.

Lemma Qeq_bool_refl' a : Qeq_bool a a = true.
Proof. apply Qeq_bool_iff. reflexivity. Qed.

Lemma new_drills_ok clusters : forall tool_num acc,
  Forall (fun c => c <> []) clusters ->
  exists new,
    new_drills clusters tool_num acc = Ok new /\
    (length new <= length acc + length clusters)%nat /\
    (forall k, In k (map fst acc) -> In k (map fst new)) /\
    (forall c, In c clusters ->
       exists s k, new_size c = Ok s /\ In k (map fst new) /\ k == s).
Proof.
  induction clusters as [| c rest IH]; intros tool_num acc H.
  - exists acc. simpl. repeat split; auto; try lia; try contradiction.
  - inversion H as [| ? ? Hc Hrest]; subst.
    destruct (new_size_ok c Hc) as (s & Hs).
    destruct (IH (S tool_num)
                 (dict_set Qeq_bool acc s (tool_name (S tool_num))) Hrest)
      as (new & Hnew & Hlen & Hkeep & Hall).
    exists new. simpl. rewrite Hs. cbn [bind]. rewrite Hnew.
    split; [reflexivity |]. split; [| split].
    + pose proof (dict_set_length Qeq_bool acc s (tool_name (S tool_num))).
      lia.
    + intros k Hk. apply Hkeep. now apply dict_set_keeps_keys.
    + intros c' [<- | Hc'].
      * destruct (dict_set_has_key Qeq_bool acc s (tool_name (S tool_num))
                    Qeq_bool_refl') as (k & Hk & Hks).
        exists s, k. split; [exact Hs |]. split; [now apply Hkeep |].
        now apply Qeq_bool_iff.
      * now apply Hall.
Qed.

Lemma insert_increasing x l :
  increasing l -> Forall (fun y => ~ x == y) l -> increasing (insert x l).
Proof.
  induction l as [| y l IH]; intros Hinc Hne; simpl.
  - split; constructor.
  - destruct Hinc as [Hy Hinc].
    inversion Hne as [| ? ? Hxy Hne']; subst.
    destruct (Qle_bool x y) eqn:E.
    + apply Qle_bool_iff in E.
      assert (Hlt : x < y).
      { apply Qle_lteq in E. destruct E as [E | E]; [exact E | contradiction]. }
      split; [| split; assumption].
      constructor; [exact Hlt |].
      eapply Forall_impl; [| exact Hy].
      intros z Hz. eapply Qlt_trans; eassumption.
    + apply Qle_bool_false in E.
      split; [| now apply IH].
      apply Forall_forall. intros z Hz.
      apply (Permutation_in _ (insert_perm x l)) in Hz.
      destruct Hz as [<- | Hz]; [exact E |].
      rewrite Forall_forall in Hy. now apply Hy.
Qed.

Lemma sorted_increasing l : distinct l -> increasing (sorted l).
Proof.
  induction l as [| x l IH]; intros H; simpl; [exact I |].
  destruct H as [Hx Hd].
  apply insert_increasing; [now apply IH |].
  apply Forall_forall. intros y Hy.
  apply (Permutation_in _ (sorted_perm l)) in Hy.
  rewrite Forall_forall in Hx. now apply Hx.
Qed.

Lemma place_singles tolerance pre size :
  tolerance == 0 ->
  Forall (fun p => p < size) pre ->
  place tolerance (map (fun s => [s]) pre) size = None.
Proof.
  intros Ht. induction pre as [| p pre IH]; intros H; simpl; [reflexivity |].
  inversion H as [| ? ? Hp Hpre]; subst.
  unfold py_min, py_max. simpl.
  replace (Qle_bool size (p + 2 * tolerance)) with false.
  - rewrite andb_false_r, IH by exact Hpre. reflexivity.
  - symmetry. destruct (Qle_bool size (p + 2 * tolerance)) eqn:E;
      [| reflexivity].
    apply Qle_bool_iff in E. rewrite Ht in E. lra.
Qed.

Lemma clusters_from_singles tolerance sizes : forall pre,
  tolerance == 0 ->
  increasing sizes ->
  Forall (fun p => Forall (Qlt p) sizes) pre ->
  fold_left (add_size tolerance) sizes (map (fun s => [s]) pre)
  = map (fun s => [s]) (pre ++ sizes).
Proof.
  induction sizes as [| s sizes IH]; intros pre Ht Hinc Hpre; simpl.
  - now rewrite app_nil_r.
  - destruct Hinc as [Hs Hinc].
    unfold add_size at 2. rewrite place_singles; [| exact Ht |].
    + change [[s]] with (map (fun s => [s]) [s]). rewrite <- map_app.
      rewrite IH; [| exact Ht | exact Hinc |].
      * now rewrite <- app_assoc.
      * apply Forall_app. split.
        -- eapply Forall_impl; [| exact Hpre].
           intros p Hp. now inversion Hp.
        -- constructor; [exact Hs | constructor].
    + eapply Forall_impl; [| exact Hpre].
      intros p Hp. now inversion Hp.
Qed.

Lemma dict_set_fresh (acc : list (Q * String.string)) k v :
  Forall (fun e => fst e < k) acc ->
  dict_set Qeq_bool acc k v = acc ++ [(k, v)].
Proof.
  induction acc as [| [k' v'] acc IH]; intros H; simpl; [reflexivity |].
  inversion H as [| ? ? Hk Hacc]; subst. simpl in Hk.
  destruct (Qeq_bool k' k) eqn:E.
  - apply Qeq_bool_iff in E. rewrite E in Hk.
    exfalso. apply (Qlt_irrefl _ Hk).
  - now rewrite IH.
Qed.

Lemma same_drills_refl d : same_drills d d.
Proof.
  induction d; constructor; [split; reflexivity | assumption].
Qed.

Lemma same_drills_trans d1 d2 d3 :
  same_drills d1 d2 -> same_drills d2 d3 -> same_drills d1 d3.
Proof.
  intros H. revert d3.
  induction H as [| e1 e2 d1 d2 [Hk Hv] _ IH]; intros d3 H';
    inversion H' as [| ? e3 ? d3' [Hk' Hv'] Hrest]; subst; constructor.
  - split; [now rewrite Hk | congruence].
  - now apply IH.
Qed.

Lemma same_drills_app d1 d1' d2 d2' :
  same_drills d1 d1' -> same_drills d2 d2' ->
  same_drills (d1 ++ d2) (d1' ++ d2').
Proof. apply Forall2_app. Qed.

Lemma new_drills_singles l : forall tool_num acc,
  increasing l ->
  Forall (fun e => Forall (Qlt (fst e)) l) acc ->
  exists new,
    new_drills (map (fun s => [s]) l) tool_num acc = Ok new /\
    same_drills new (acc ++ renamed tool_num l).
Proof.
  induction l as [| s l IH]; intros tool_num acc Hinc Hacc.
  - exists acc. simpl. rewrite app_nil_r. split;
      [reflexivity | apply same_drills_refl].
  - destruct Hinc as [Hs Hinc].
    assert (Hhalf : (s + s) / 2 == s).
    { unfold Qdiv. change (/ 2) with (1 # 2). lra. }
    assert (Hfresh : dict_set Qeq_bool acc ((s + s) / 2)
                       (tool_name (S tool_num))
                     = acc ++ [((s + s) / 2, tool_name (S tool_num))]).
    { apply dict_set_fresh.
      eapply Forall_impl; [| exact Hacc].
      intros e He. inversion He; subst. now rewrite Hhalf. }
    destruct (IH (S tool_num)
                 (acc ++ [((s + s) / 2, tool_name (S tool_num))]) Hinc)
      as (new & Hnew & Hsame).
    { apply Forall_app. split.
      - eapply Forall_impl; [| exact Hacc].
        intros e He. now inversion He.
      - constructor; [| constructor]. simpl.
        eapply Forall_impl; [| exact Hs].
        intros z Hz. now rewrite Hhalf. }
    exists new. split.
    + simpl. unfold new_size. simpl. unfold py_min, py_max. simpl.
      rewrite Hfresh. exact Hnew.
    + eapply same_drills_trans; [exact Hsame |].
      rewrite <- app_assoc. apply same_drills_app; [apply same_drills_refl |].
      simpl. constructor; [split; [exact Hhalf | reflexivity] |].
      apply same_drills_refl.
Qed.

End DrillFacts.

(** X1.  [cluster] always returns a dictionary: the [min] and [max] of the
    loops never see an empty cluster, for any drill sizes and any
    tolerance. *)
Theorem cluster_never_raises (drills : list (Q * String.string))
    (tolerance : Q) :
  exists new, DrillCluster.cluster drills tolerance = Ok new.
Proof.
  unfold DrillCluster.cluster.
  destruct (DrillFacts.new_drills_ok
              (DrillCluster.clusters_of tolerance
                 (DrillCluster.sorted (map fst drills))) 0 [])
    as (new & H & _).
  - apply DrillFacts.clusters_from_nonempty. constructor.
  - now exists new.
Qed.

(** X3.  Clustering never makes more drills: the returned dictionary has at
    most as many sizes as the one given. *)
Theorem cluster_never_adds_drills (drills new : list (Q * String.string))
    (tolerance : Q) :
  DrillCluster.cluster drills tolerance = Ok new ->
  (length new <= length drills)%nat.
Proof.
  intros H. unfold DrillCluster.cluster in H.
  set (sizes := DrillCluster.sorted (map fst drills)) in *.
  destruct (DrillFacts.new_drills_ok
              (DrillCluster.clusters_of tolerance sizes) 0 [])
    as (new' & Hnew & Hlen & _).
  { apply DrillFacts.clusters_from_nonempty. constructor. }
  rewrite Hnew in H. injection H as ->.
  pose proof (DrillFacts.clusters_from_length tolerance sizes []) as Hl.
  fold (DrillCluster.clusters_of tolerance sizes) in Hl.
  assert (length sizes = length drills).
  { unfold sizes.
    rewrite (Permutation_length (DrillFacts.sorted_perm _)).
    apply length_map. }
  simpl in *. lia.
Qed.

(** X4.  A tolerance of 0 disables clustering: for a dictionary of
    pairwise different sizes, [cluster] returns the same sizes in ascending
    order, named [T01], [T02], ... in that order. *)
Theorem zero_tolerance_disables_clustering
    (drills new : list (Q * String.string)) (tolerance : Q) :
  (tolerance == 0)%Q ->
  DrillCluster.distinct (map fst drills) ->
  DrillCluster.cluster drills tolerance = Ok new ->
  DrillCluster.same_drills new
    (DrillCluster.renamed 0 (DrillCluster.sorted (map fst drills))).
Proof.
  intros Ht Hd H. unfold DrillCluster.cluster in H.
  pose proof (DrillFacts.sorted_increasing _ Hd) as Hinc.
  set (sizes := DrillCluster.sorted (map fst drills)) in *.
  unfold DrillCluster.clusters_of in H.
  change (@nil (list Q)) with (map (fun s : Q => [s]) []) in H.
  rewrite DrillFacts.clusters_from_singles in H;
    [| exact Ht | exact Hinc | constructor].
  destruct (DrillFacts.new_drills_singles sizes 0 [] Hinc)
    as (new' & Hnew & Hsame); [constructor |].
  simpl in H. rewrite Hnew in H. injection H as <-. exact Hsame.
Qed.

(** ** Remapping the tools of the jobs *)

Section DictEqFacts.
Context {K V : Type}.
Variable eqb : K -> K -> bool.
Hypothesis eqb_eq : forall a b, eqb a b = true <-> a = b.

Lemma dict_get_none (d : list (K * V)) k :
  dict_get eqb d k = None <-> ~ In k (map fst d).
Proof.
  induction d as [| [k' v'] d IH]; simpl.
  - split; auto.
  - destruct (eqb k' k) eqn:E.
    + apply eqb_eq in E. split; [discriminate | intros H; elim H; now left].
    + rewrite IH. split.
      * intros H [H1 | H1]; [| now apply H].
        apply eqb_eq in H1. congruence.
      * intros H H1. apply H. now right.
Qed.

Lemma dict_get_in (d : list (K * V)) k v :
  dict_get eqb d k = Some v -> In (k, v) d.
Proof.
  induction d as [| [k' v'] d IH]; simpl; [discriminate |].
  destruct (eqb k' k) eqn:E.
  - apply eqb_eq in E. intros H. injection H as <-. subst. now left.
  - intros H. right. now apply IH.
Qed.

Lemma dict_get_first (d d' : list (K * V)) k v :
  ~ In k (map fst d) ->
  dict_get eqb (d ++ (k, v) :: d') k = Some v.
Proof.
  induction d as [| [k' v'] d IH]; simpl; intros H.
  - replace (eqb k k) with true; [reflexivity |].
    symmetry. now apply eqb_eq.
  - destruct (eqb k' k) eqn:E.
    + apply eqb_eq in E. elim H. now left.
    + apply IH. intros H1. apply H. now right.
Qed.

Lemma dict_set_in (d : list (K * V)) k v t x :
  In (t, x) (dict_set eqb d k v) -> In (t, x) d \/ (t, x) = (k, v).
Proof.
  induction d as [| [k' v'] d IH]; simpl.
  - intros [H | []]. right. now symmetry.
  - destruct (eqb k' k) eqn:E.
    + apply eqb_eq in E. subst k'.
      intros [H | H]; [right; now symmetry | left; now right].
    + intros [H | H]; [left; now left |].
      destruct (IH H) as [H1 | H1]; [left; now right | now right].
Qed.

Lemma dict_set_nodup (d : list (K * V)) k v :
  NoDup (map fst d) -> NoDup (map fst (dict_set eqb d k v)).
Proof.
  intros H. destruct (dict_set_keys eqb d k v) as [[_ E] | [E1 E]];
    rewrite E; [exact H |].
  rewrite map_app. simpl.
  apply dict_get_none in E1.
  apply NoDup_app; [exact H | repeat constructor; auto | ].
  intros a Ha [<- | []]. contradiction.
Qed.

Lemma dict_get_set_same (d : list (K * V)) k v :
  dict_get eqb (dict_set eqb d k v) k = Some v.
Proof.
  assert (R : eqb k k = true) by now apply eqb_eq.
  induction d as [| [k' v'] d IH]; simpl.
  - now rewrite R.
  - destruct (eqb k' k) eqn:E; simpl; rewrite E; [reflexivity | exact IH].
Qed.

Lemma dict_get_set_other (d : list (K * V)) k v k0 :
  k0 <> k -> dict_get eqb (dict_set eqb d k v) k0 = dict_get eqb d k0.
Proof.
  intros Hne.
  assert (R : eqb k k0 = false).
  { destruct (eqb k k0) eqn:E; [| reflexivity].
    apply eqb_eq in E. congruence. }
  induction d as [| [k' v'] d IH]; simpl.
  - now rewrite R.
  - destruct (eqb k' k) eqn:E; simpl.
    + apply eqb_eq in E. subst k'. now rewrite R.
    + destruct (eqb k' k0); [reflexivity | exact IH].
Qed.

End DictEqFacts.

Module RemapFacts.
Import DrillCluster.
Local Open Scope Q_scope.

Lemma string_eqb_eq a b : String.eqb a b = true <-> a = b.
Proof. apply String.eqb_eq. Qed.

Lemma fold_closer diam l : forall best r,
  fold_left (closer diam) l best = r ->
  (r = best /\
   Forall (fun e => Qabs (fst r - diam) <= Qabs (fst e - diam)) l) \/
  (Qabs (fst r - diam) < Qabs (fst best - diam) /\
   exists before after,
     l = before ++ r :: after /\
     Forall (fun e => Qabs (fst r - diam) < Qabs (fst e - diam)) before /\
     Forall (fun e => Qabs (fst r - diam) <= Qabs (fst e - diam)) after).
Proof.
  induction l as [| a l IH]; intros best r Hr; simpl in Hr.
  - left. split; [now symmetry | constructor].
  - unfold closer at 2 in Hr.
    destruct (Qltb (Qabs (fst a - diam)) (Qabs (fst best - diam))) eqn:E.
    + apply DrillFacts.Qltb_true in E. right.
      destruct (IH a r Hr)
        as [[-> Hall] | (Hlt & before & after & Hl & Hb & Ha)].
      * split; [exact E |].
        exists [], l. repeat split; [constructor | exact Hall].
      * split; [eapply Qlt_trans; eassumption |].
        exists (a :: before), after. simpl. rewrite <- Hl.
        repeat split; [constructor; assumption | exact Ha].
    + apply DrillFacts.Qltb_false in E.
      destruct (IH best r Hr)
        as [[-> Hall] | (Hlt & before & after & Hl & Hb & Ha)].
      * left. split; [reflexivity |].
        constructor; [exact E | exact Hall].
      * right. split; [exact Hlt |].
        exists (a :: before), after. simpl. rewrite <- Hl.
        repeat split; [| exact Ha].
        constructor; [| exact Hb].
        eapply Qlt_le_trans; eassumption.
Qed.

Lemma best_match_first_nearest g diam r :
  best_match g diam = Return r -> first_nearest g diam r.
Proof.
  destruct g as [| first rest]; simpl; [discriminate |].
  intros H. injection H as H.
  assert (Hfirst : closer diam first first = first).
  { unfold closer.
    destruct (Qltb (Qabs (fst first - diam)) (Qabs (fst first - diam)))
      eqn:E; [| reflexivity].
    apply DrillFacts.Qltb_true in E. exfalso. apply (Qlt_irrefl _ E). }
  rewrite Hfirst in H.
  destruct (fold_closer diam rest first r H)
    as [[-> Hall] | (Hlt & before & after & Hl & Hb & Ha)].
  - exists [], rest. repeat split; [constructor | exact Hall].
  - exists (first :: before), after. simpl. rewrite <- Hl.
    repeat split; [constructor; assumption | exact Ha].
Qed.

Lemma best_match_total g diam :
  g <> [] -> exists r, best_match g diam = Return r.
Proof. destruct g; [congruence | intros _; simpl; eauto]. Qed.

Lemma first_nearest_unique g diam : forall r r',
  first_nearest g diam r -> first_nearest g diam r' -> r = r'.
Proof.
  intros r r' (b & a & Hg & Hb & Ha) (b' & a' & Hg' & Hb' & Ha').
  rewrite Hg in Hg'. clear Hg. revert b' Hg' Hb'.
  induction b as [| e b IH]; intros b' Hg' Hb'.
  - destruct b' as [| e' b']; simpl in Hg'; [congruence |].
    injection Hg' as He Hg'.
    apply Forall_inv in Hb'. rewrite <- He in Hb'.
    assert (Hin : In r' a) by (rewrite Hg'; apply in_elt).
    rewrite Forall_forall in Ha. specialize (Ha r' Hin).
    exfalso. apply (Qlt_irrefl (Qabs (fst r - diam))).
    eapply Qle_lt_trans; eassumption.
  - destruct b' as [| e' b']; simpl in Hg'.
    + injection Hg' as He Hg'.
      pose proof (Forall_inv Hb) as Hlt. rewrite He in Hlt.
      assert (Hin : In r a') by (rewrite <- Hg'; apply in_elt).
      rewrite Forall_forall in Ha'. specialize (Ha' r Hin).
      exfalso. apply (Qlt_irrefl (Qabs (fst r' - diam))).
      eapply Qle_lt_trans; eassumption.
    + injection Hg' as He Hg'.
      apply (IH (Forall_inv_tail Hb) b' Hg' (Forall_inv_tail Hb')).
Qed.

Lemma first_nearest_best_match g diam r :
  first_nearest g diam r -> best_match g diam = Return r.
Proof.
  intros H.
  destruct (best_match_total g diam) as (r' & Hr').
  - destruct H as (b & a & -> & _). now destruct b.
  - rewrite Hr'. f_equal.
    eapply first_nearest_unique;
      [apply best_match_first_nearest; exact Hr' | exact H].
Qed.

Lemma first_nearest_in g diam r : first_nearest g diam r -> In r g.
Proof. intros (b & a & -> & _). apply in_elt. Qed.

Lemma first_nearest_nearest g diam r :
  first_nearest g diam r -> nearest g diam (fst r).
Proof.
  intros (b & a & -> & Hb & Ha) e He.
  rewrite Forall_forall in Hb, Ha.
  apply in_app_or in He. destruct He as [He | [<- | He]].
  - apply Qlt_le_weak. now apply Hb.
  - apply Qle_refl.
  - now apply Ha.
Qed.

(** The best match of a size is its own best match. *)
Lemma first_nearest_settled g diam r :
  first_nearest g diam r -> first_nearest g (fst r) r.
Proof.
  intros (b & a & -> & Hb & Ha).
  exists b, a. split; [reflexivity |].
  assert (H0 : Qabs (fst r - fst r) == 0).
  { setoid_replace (fst r - fst r) with 0 by ring. reflexivity. }
  split.
  - eapply Forall_impl; [| exact Hb].
    intros e He. cbv beta in He. rewrite H0.
    destruct (Qlt_le_dec 0 (Qabs (fst e - fst r))) as [L | L]; [exact L |].
    exfalso.
    assert (Hz : fst e == fst r).
    { revert L. apply Qabs_case; intros; lra. }
    assert (Hsame : Qabs (fst e - diam) == Qabs (fst r - diam)).
    { apply Qabs_wd. lra. }
    lra.
  - apply Forall_forall. intros e _. rewrite H0. apply Qabs_nonneg.
Qed.

Lemma best_match_settled g diam d t :
  best_match g diam = Return (d, t) -> best_match g d = Return (d, t).
Proof.
  intros H. apply first_nearest_best_match.
  apply (first_nearest_settled g diam (d, t)).
  now apply best_match_first_nearest.
Qed.

Section Tools.
Context {C : Type}.
Variable g : list (Q * String.string).

Lemma remap_tools_step (oc : list (String.string * list C)) tool diam rest
    nt nc r :
  remap_tools g oc ((tool, diam) :: rest) nt nc = Return r ->
  exists bd bt cmds v,
    best_match g diam = Return (bd, bt) /\
    dict_get String.eqb oc tool = Some cmds /\
    (v = cmds \/
     exists temp, dict_get String.eqb nc bt = Some temp /\ v = temp ++ cmds) /\
    remap_tools g oc rest (dict_set String.eqb nt bt bd)
      (dict_set String.eqb nc bt v) = Return r.
Proof.
  simpl. intros H. apply and_then_return in H.
  destruct H as ([bd bt] & Hb & H).
  destruct (dict_get String.eqb oc tool) as [cmds |] eqn:Ec; [| discriminate].
  exists bd, bt, cmds.
  destruct (dict_get String.eqb nc bt) as [temp |] eqn:Et.
  - exists (temp ++ cmds). repeat split; auto. right. now exists temp.
  - exists cmds. repeat split; auto.
Qed.

Lemma remap_tools_inv (oc : list (String.string * list C)) tools :
  forall nt nc nt' nc',
  remap_tools g oc tools nt nc = Return (nt', nc') ->
  map fst nt = map fst nc -> NoDup (map fst nt) -> settled g nt ->
  map fst nt' = map fst nc' /\ NoDup (map fst nt') /\ settled g nt'.
Proof.
  induction tools as [| [tool diam] rest IH]; intros nt nc nt' nc' H Hk Hn Hs.
  - simpl in H. injection H as <- <-. auto.
  - apply remap_tools_step in H.
    destruct H as (bd & bt & cmds & v & Hb & _ & _ & H).
    apply (IH _ _ _ _ H).
    + now apply dict_set_same_keys.
    + apply dict_set_nodup; [apply string_eqb_eq | exact Hn].
    + intros t d Hin.
      apply (dict_set_in String.eqb string_eqb_eq) in Hin.
      destruct Hin as [Hin | Hin]; [now apply Hs |].
      injection Hin as -> ->. eapply best_match_settled; exact Hb.
Qed.

Lemma remap_tools_origin (oc : list (String.string * list C)) tools :
  forall nt nc nt' nc',
  remap_tools g oc tools nt nc = Return (nt', nc') ->
  forall t' d', In (t', d') nt' ->
    In (t', d') nt \/
    exists tool diam,
      In (tool, diam) tools /\ best_match g diam = Return (d', t').
Proof.
  induction tools as [| [tool diam] rest IH]; intros nt nc nt' nc' H t' d' Hin.
  - simpl in H. injection H as <- <-. now left.
  - apply remap_tools_step in H.
    destruct H as (bd & bt & cmds & v & Hb & _ & _ & H).
    destruct (IH _ _ _ _ H t' d' Hin) as [Hold | (tool' & diam' & Ht & Hm)].
    + apply (dict_set_in String.eqb string_eqb_eq) in Hold.
      destruct Hold as [Hold | Hold]; [now left |].
      injection Hold as -> ->. right. exists tool, diam.
      split; [now left | exact Hb].
    + right. exists tool', diam'. split; [now right | exact Hm].
Qed.

Lemma remap_tools_reach (oc : list (String.string * list C)) tools :
  forall nt nc nt' nc',
  remap_tools g oc tools nt nc = Return (nt', nc') ->
  (forall t, In t (map fst nt) -> In t (map fst nt')) /\
  forall tool diam, In (tool, diam) tools ->
    exists bd bt, best_match g diam = Return (bd, bt) /\
                  In bt (map fst nt').
Proof.
  induction tools as [| [tool diam] rest IH]; intros nt nc nt' nc' H.
  - simpl in H. injection H as <- <-. split; [auto | intros ? ? []].
  - apply remap_tools_step in H.
    destruct H as (bd & bt & cmds & v & Hb & _ & _ & H).
    destruct (IH _ _ _ _ H) as [Hkeep Hall].
    split.
    + intros t Ht. apply Hkeep. now apply dict_set_keeps_keys.
    + intros tool' diam' [Heq | Hin].
      * injection Heq as <- <-. exists bd, bt. split; [exact Hb |].
        apply Hkeep.
        destruct (dict_set_has_key String.eqb nt bt bd String.eqb_refl)
          as (k & Hk & Hkk).
        apply String.eqb_eq in Hkk. now subst k.
      * now apply (Hall tool' diam').
Qed.

Lemma dict_set_extend (nc : list (String.string * list C)) bt temp cmds :
  dict_get String.eqb nc bt = Some temp ->
  Permutation (concat (map snd (dict_set String.eqb nc bt (temp ++ cmds))))
              (concat (map snd nc) ++ cmds).
Proof.
  induction nc as [| [k c] nc IH]; simpl; [discriminate |].
  destruct (String.eqb k bt) eqn:E.
  - intros H. injection H as ->. simpl.
    rewrite <- !app_assoc. apply Permutation_app_head, Permutation_app_comm.
  - intros H. simpl. rewrite <- app_assoc.
    apply Permutation_app_head. now apply IH.
Qed.

Lemma dict_set_new (nc : list (String.string * list C)) bt cmds :
  dict_get String.eqb nc bt = None ->
  concat (map snd (dict_set String.eqb nc bt cmds))
  = concat (map snd nc) ++ cmds.
Proof.
  intros H.
  destruct (dict_set_keys String.eqb nc bt cmds) as [[H1 _] | [_ ->]];
    [congruence |].
  rewrite map_app, concat_app. simpl. now rewrite app_nil_r.
Qed.

Lemma remap_tools_commands (oc : list (String.string * list C)) tools :
  forall nt nc nt' nc',
  remap_tools g oc tools nt nc = Return (nt', nc') ->
  Permutation (concat (map snd nc'))
    (concat (map snd nc) ++ commands_of (mkJob tools oc)).
Proof.
  unfold commands_of. simpl.
  induction tools as [| [tool diam] rest IH]; intros nt nc nt' nc' H.
  - simpl in H. injection H as <- <-. simpl. now rewrite app_nil_r.
  - simpl in H. apply and_then_return in H.
    destruct H as ([bd bt] & Hb & H). simpl.
    destruct (dict_get String.eqb oc tool) as [cmds |] eqn:Ec;
      [| discriminate].
    rewrite (IH _ _ _ _ H). rewrite app_assoc.
    apply Permutation_app_tail.
    destruct (dict_get String.eqb nc bt) as [temp |] eqn:Et.
    + now apply dict_set_extend.
    + now rewrite dict_set_new.
Qed.

Lemma remap_tools_rebuild : forall rest (rest_c : list (String.string * list C))
    pre pre_c,
  map fst rest = map fst rest_c ->
  map fst pre = map fst pre_c ->
  NoDup (map fst (pre ++ rest)) ->
  settled g rest ->
  remap_tools g (pre_c ++ rest_c) rest pre pre_c
  = Return (pre ++ rest, pre_c ++ rest_c).
Proof.
  induction rest as [| [t d] rest IH]; intros rest_c pre pre_c Hr Hp Hn Hs.
  - destruct rest_c; [| discriminate]. simpl. now rewrite !app_nil_r.
  - destruct rest_c as [| [t' c] rest_c]; [discriminate |].
    simpl in Hr. injection Hr as <- Hr.
    assert (Hfresh : ~ In t (map fst pre)).
    { rewrite map_app in Hn. simpl in Hn.
      apply NoDup_remove_2 in Hn. intros H. apply Hn.
      apply in_or_app. now left. }
    simpl. rewrite (Hs t d) by now left. simpl.
    rewrite (dict_get_first String.eqb string_eqb_eq)
      by (rewrite <- Hp; exact Hfresh).
    assert (Hnone : dict_get String.eqb pre_c t = None).
    { apply (dict_get_none String.eqb string_eqb_eq).
      rewrite <- Hp. exact Hfresh. }
    rewrite Hnone.
    destruct (dict_set_keys String.eqb pre_c t c) as [[H1 _] | [_ ->]];
      [congruence |].
    destruct (dict_set_keys String.eqb pre t d) as [[H1 _] | [_ ->]].
    { exfalso. apply H1.
      now apply (dict_get_none String.eqb string_eqb_eq). }
    replace (pre_c ++ (t, c) :: rest_c)
      with ((pre_c ++ [(t, c)]) ++ rest_c)
      by (now rewrite <- app_assoc).
    rewrite IH.
    + now rewrite <- !app_assoc.
    + exact Hr.
    + rewrite !map_app. simpl. now rewrite Hp.
    + now rewrite <- app_assoc.
    + intros t0 d0 Hin. apply Hs. now right.
Qed.

Lemma remap_job_settled (j j' : Job C) :
  remap_job g j = Return j' -> remap_job g j' = Return j'.
Proof.
  unfold remap_job. intros H. apply and_then_return in H.
  destruct H as ([nt nc] & H & Hj). injection Hj as <-. simpl.
  destruct (remap_tools_inv _ _ _ _ _ _ H eq_refl (NoDup_nil _))
    as (Hk & Hn & Hs); [intros ? ? [] |].
  pose proof (remap_tools_rebuild nt nc [] [] Hk eq_refl Hn Hs) as R.
  simpl in R. now rewrite R.
Qed.

End Tools.

End RemapFacts.

Lemma cluster_never_adds_drills_witness :
  exists new,
    DrillCluster.cluster DrillExamples.four_drills (1 # 1000) = Ok new /\
    (length new <= 4)%nat.
Proof.
  destruct (DrillCluster.cluster DrillExamples.four_drills (1 # 1000))
    as [new | e] eqn:E; [| vm_compute in E; discriminate E].
  exists new. split; [reflexivity |].
  exact (cluster_never_adds_drills DrillExamples.four_drills new (1 # 1000) E).
Defined.

Lemma zero_tolerance_disables_clustering_witness :
  exists new,
    DrillCluster.cluster DrillExamples.four_drills 0 = Ok new /\
    DrillCluster.same_drills new
      (DrillCluster.renamed 0
         (DrillCluster.sorted (map fst DrillExamples.four_drills))).
Proof.
  destruct (DrillCluster.cluster DrillExamples.four_drills 0)
    as [new | e] eqn:E; [| vm_compute in E; discriminate E].
  exists new. split; [reflexivity |].
  apply (zero_tolerance_disables_clustering DrillExamples.four_drills new 0).
  - reflexivity.
  - simpl. repeat split; repeat constructor; intros H; vm_compute in H;
      discriminate H.
  - exact E.
Defined.

(** X5.  After [remap] every tool of a job is a tool of the global tool map
    with its size there, and that size is, of all sizes of the map, one
    nearest to the diameter of a tool the job had; every tool the job had
    has its best match among the new tools. *)
Theorem remapped_tools_are_nearest {C : Type}
    (globalToolMap : list (Q * String.string)) (j j' : DrillCluster.Job C) :
  DrillCluster.remap_job globalToolMap j = Return j' ->
  (forall t' d', In (t', d') (DrillCluster.xdiam j') ->
     In (d', t') globalToolMap /\
     exists tool diam,
       In (tool, diam) (DrillCluster.xdiam j) /\
       DrillCluster.nearest globalToolMap diam d') /\
  (forall tool diam, In (tool, diam) (DrillCluster.xdiam j) ->
     exists bd bt,
       DrillCluster.first_nearest globalToolMap diam (bd, bt) /\
       In bt (map fst (DrillCluster.xdiam j'))).
Proof.
  unfold DrillCluster.remap_job. intros H. apply and_then_return in H.
  destruct H as ([nt nc] & H & Hj). injection Hj as <-. simpl. split.
  - intros t' d' Hin.
    destruct (RemapFacts.remap_tools_origin _ _ _ _ _ _ _ H t' d' Hin)
      as [[] | (tool & diam & Ht & Hm)].
    apply RemapFacts.best_match_first_nearest in Hm.
    split; [exact (RemapFacts.first_nearest_in _ _ _ Hm) |].
    exists tool, diam. split; [exact Ht |].
    exact (RemapFacts.first_nearest_nearest _ _ _ Hm).
  - intros tool diam Hin.
    destruct (RemapFacts.remap_tools_reach _ _ _ _ _ _ _ H) as [_ Hall].
    destruct (Hall tool diam Hin) as (bd & bt & Hm & Hbt).
    exists bd, bt. split; [| exact Hbt].
    now apply RemapFacts.best_match_first_nearest.
Qed.

Lemma remapped_tools_are_nearest_witness :
  exists j',
    DrillCluster.remap_job DrillExamples.two_tools
      DrillExamples.three_tool_job = Return j' /\
    exists bd bt,
      DrillCluster.first_nearest DrillExamples.two_tools 2%Q (bd, bt) /\
      In bt (map fst (DrillCluster.xdiam j')).
Proof.
  destruct (DrillCluster.remap_job DrillExamples.two_tools
              DrillExamples.three_tool_job) as [j' | e] eqn:E;
    [| vm_compute in E; discriminate E].
  exists j'. split; [reflexivity |].
  destruct (remapped_tools_are_nearest DrillExamples.two_tools
              DrillExamples.three_tool_job j' E) as [_ Hall].
  apply (Hall (String.String (Ascii.ascii_of_nat 65) String.EmptyString)
           2%Q).
  simpl. now left.
Defined.

(** X6.  [remap] neither loses nor repeats a drill command: the commands of
    the new tools of a job are, up to their order, the commands of the tools
    the job had. *)
Theorem remap_keeps_commands {C : Type}
    (globalToolMap : list (Q * String.string)) (j j' : DrillCluster.Job C) :
  DrillCluster.remap_job globalToolMap j = Return j' ->
  Permutation (concat (map snd (DrillCluster.xcommands j')))
              (DrillCluster.commands_of j).
Proof.
  unfold DrillCluster.remap_job. intros H. apply and_then_return in H.
  destruct H as ([nt nc] & H & Hj). injection Hj as <-. simpl.
  apply RemapFacts.remap_tools_commands in H. simpl in H.
  destruct j. exact H.
Qed.

Lemma remap_keeps_commands_witness :
  exists j',
    DrillCluster.remap_job DrillExamples.two_tools
      DrillExamples.three_tool_job = Return j' /\
    Permutation (concat (map snd (DrillCluster.xcommands j')))
                [1; 2; 3; 4]%nat.
Proof.
  destruct (DrillCluster.remap_job DrillExamples.two_tools
              DrillExamples.three_tool_job) as [j' | e] eqn:E;
    [| vm_compute in E; discriminate E].
  exists j'. split; [reflexivity |].
  exact (remap_keeps_commands DrillExamples.two_tools
           DrillExamples.three_tool_job j' E).
Defined.

(** X7.  A job object that several job layouts refer to is remapped as if
    it were referred to once: after [remap] every job referred to is the
    remapping of what it was before, every other job is unchanged. *)
Theorem remap_repeated_job {C : Type}
    (globalToolMap : list (Q * String.string)) (jobs : list nat)
    (store store' : nat -> DrillCluster.Job C) :
  DrillCluster.remap globalToolMap jobs store = Return store' ->
  (forall r, In r jobs ->
     DrillCluster.remap_job globalToolMap (store r) = Return (store' r)) /\
  (forall r, ~ In r jobs -> store' r = store r).
Proof.
  revert store. induction jobs as [| r0 rest IH]; intros store H.
  - simpl in H. injection H as <-. split; [intros r [] | reflexivity].
  - simpl in H. apply and_then_return in H. destruct H as (j & Hj & H).
    destruct (IH _ H) as [Hin Hout]. split.
    + intros r Hr.
      destruct (Nat.eq_dec r r0) as [-> | Hne].
      * destruct (in_dec Nat.eq_dec r0 rest) as [Hr0 | Hr0].
        -- specialize (Hin r0 Hr0). rewrite Nat.eqb_refl in Hin.
           rewrite (RemapFacts.remap_job_settled _ _ _ Hj) in Hin.
           rewrite Hj. exact Hin.
        -- rewrite (Hout r0 Hr0), Nat.eqb_refl. exact Hj.
      * destruct Hr as [Hr | Hr]; [congruence |].
        specialize (Hin r Hr).
        apply Nat.eqb_neq in Hne. now rewrite Hne in Hin.
    + intros r Hr. rewrite Hout by (intros Hi; apply Hr; now right).
      destruct (Nat.eqb r r0) eqn:E; [| reflexivity].
      apply Nat.eqb_eq in E. elim Hr. now left.
Qed.

Lemma remap_repeated_job_witness :
  exists store',
    DrillCluster.remap DrillExamples.two_tools [0; 1; 0]%nat
      DrillExamples.job_store = Return store' /\
    DrillCluster.remap_job DrillExamples.two_tools
      (DrillExamples.job_store 0) = Return (store' 0%nat).
Proof.
  destruct (DrillCluster.remap DrillExamples.two_tools [0; 1; 0]%nat
              DrillExamples.job_store) as [store' | e] eqn:E;
    [| vm_compute in E; discriminate E].
  exists store'. split; [reflexivity |].
  destruct (remap_repeated_job DrillExamples.two_tools [0; 1; 0]%nat
              DrillExamples.job_store store' E) as [Hin _].
  apply Hin. simpl. now left.
Defined.

(** ** Rows and columns *)

Module PlacementFacts.
Import Placement.
Local Open Scope Q_scope.

Lemma max2_l a b : a <= max2 a b.
Proof.
  unfold max2. destruct (DrillCluster.Qltb a b) eqn:E; [| apply Qle_refl].
  apply DrillFacts.Qltb_true in E. now apply Qlt_le_weak.
Qed.

Lemma max2_r a b : b <= max2 a b.
Proof.
  unfold max2. destruct (DrillCluster.Qltb a b) eqn:E; [apply Qle_refl |].
  now apply DrillFacts.Qltb_false in E.
Qed.

Lemma max2_cases a b : max2 a b = a \/ max2 a b = b.
Proof. unfold max2. destruct (DrillCluster.Qltb a b); auto. Qed.

Section Facts.
Context {J : Type} {ops : JobLayoutOps J}.
Variables xspacing yspacing : Q.

(** A member of the rows that is no [Row] is left as it is. *)
Lemma position_rows_others (rows : list (panel J)) : forall x y i p,
  nth_error rows i = Some p ->
  (forall rx ry jobs, p <> Row rx ry jobs) ->
  nth_error (position_rows xspacing yspacing rows x y) i = Some p.
Proof.
  induction rows as [| row rest IH]; intros x y i p Hp Hn.
  - destruct i; discriminate.
  - destruct i as [| i]; simpl in Hp.
    + injection Hp as ->. destruct p; try reflexivity.
      exfalso. now apply (Hn x0 y0 jobs).
    + destruct row; simpl; now apply IH.
Qed.

Lemma extents_from_spec (jobs : list J) : forall mx0 my0 mx my,
  extents_from jobs mx0 my0 = Return (mx, my) ->
  mx0 <= mx /\ my0 <= my /\
  (forall j, In j jobs ->
     exists jx jy, job_x j = Some jx /\ job_y j = Some jy /\
                   jx + job_width_in j <= mx /\
                   jy + job_height_in j <= my) /\
  (mx = mx0 \/
   exists j jx, In j jobs /\ job_x j = Some jx /\ mx = jx + job_width_in j) /\
  (my = my0 \/
   exists j jy, In j jobs /\ job_y j = Some jy /\ my = jy + job_height_in j).
Proof.
  induction jobs as [| job rest IH]; intros mx0 my0 mx my H; simpl in H.
  - injection H as <- <-.
    repeat split; try apply Qle_refl; auto. intros j [].
  - destruct (job_x job) as [jx |] eqn:Ex; [| discriminate].
    destruct (job_y job) as [jy |] eqn:Ey; [| discriminate].
    destruct (IH _ _ _ _ H) as (Hx & Hy & Hall & Hmx & Hmy).
    assert (Lx := max2_l mx0 (jx + job_width_in job)).
    assert (Rx := max2_r mx0 (jx + job_width_in job)).
    assert (Ly := max2_l my0 (jy + job_height_in job)).
    assert (Ry := max2_r my0 (jy + job_height_in job)).
    split; [lra |]. split; [lra |]. split; [| split].
    + intros j [<- | Hj]; [| now apply Hall].
      exists jx, jy. repeat split; auto; lra.
    + destruct Hmx as [-> | (j & x & Hj & Hjx & ->)].
      * destruct (max2_cases mx0 (jx + job_width_in job)) as [-> | ->];
          [now left |].
        right. exists job, jx. repeat split; auto. now left.
      * right. exists j, x. repeat split; auto. now right.
    + destruct Hmy as [-> | (j & y & Hj & Hjy & ->)].
      * destruct (max2_cases my0 (jy + job_height_in job)) as [-> | ->];
          [now left |].
        right. exists job, jy. repeat split; auto. now left.
      * right. exists j, y. repeat split; auto. now right.
Qed.

Lemma extents_from_returns (jobs : list J) : forall mx0 my0,
  (exists r, extents_from jobs mx0 my0 = Return r) <->
  Forall positioned jobs.
Proof.
  induction jobs as [| job rest IH]; intros mx0 my0; simpl.
  - split; [constructor | eauto].
  - unfold positioned at 1.
    destruct (job_x job) as [jx |] eqn:Ex.
    + destruct (job_y job) as [jy |] eqn:Ey.
      * rewrite IH. split.
        -- intros H. constructor; [| exact H].
           unfold positioned. rewrite Ex, Ey. split; discriminate.
        -- intros H. now inversion H.
      * split; [intros [r H]; discriminate |].
        intros H. inversion H as [| ? ? [_ Hy] _]; subst.
        rewrite Ey in Hy. now elim Hy.
    + split; [intros [r H]; discriminate |].
      intros H. inversion H as [| ? ? [Hx _] _]; subst.
      rewrite Ex in Hx. now elim Hx.
Qed.

Lemma extents_from_throws (jobs : list J) : forall mx0 my0 e,
  extents_from jobs mx0 my0 = Throw e -> e = TypeError.
Proof.
  induction jobs as [| job rest IH]; intros mx0 my0 e; simpl;
    [discriminate |].
  destruct (job_x job); [| congruence].
  destruct (job_y job); [| congruence].
  apply IH.
Qed.

Lemma addFromFile_concat (rows : list (panel J)) ox oy lm bm :
  addFromFile xspacing yspacing rows ox oy lm bm
  = concat (map canonicalize
              (position_rows xspacing yspacing rows (ox + lm) (oy + bm))).
Proof.
  unfold addFromFile.
  generalize (position_rows xspacing yspacing rows (ox + lm) (oy + bm)).
  intros l.
  assert (G : forall acc,
             fold_left (fun jobs row => jobs ++ canonicalize row) l acc
             = acc ++ concat (map canonicalize l)).
  { induction l as [| a l IH]; intros acc; simpl.
    - now rewrite app_nil_r.
    - rewrite IH. now rewrite app_assoc. }
  apply G.
Qed.

End Facts.
End PlacementFacts.

(** X11.  [Placement.extents] returns, when it returns, two numbers that
    are not negative and no smaller than the right and upper edge of any
    job; each is 0 or the edge of some job. *)
Theorem extents_covers_jobs {J : Type} {ops : Placement.JobLayoutOps J}
    (jobs : list J) (maxX maxY : Q) :
  Placement.extents jobs = Return (maxX, maxY) ->
  (0 <= maxX)%Q /\ (0 <= maxY)%Q /\
  (forall j, In j jobs ->
     exists jx jy,
       Placement.job_x j = Some jx /\ Placement.job_y j = Some jy /\
       (jx + Placement.job_width_in j <= maxX)%Q /\
       (jy + Placement.job_height_in j <= maxY)%Q) /\
  (maxX = 0%Q \/
   exists j jx, In j jobs /\ Placement.job_x j = Some jx /\
                maxX = (jx + Placement.job_width_in j)%Q) /\
  (maxY = 0%Q \/
   exists j jy, In j jobs /\ Placement.job_y j = Some jy /\
                maxY = (jy + Placement.job_height_in j)%Q).
Proof.
  intros H. exact (PlacementFacts.extents_from_spec jobs 0 0 maxX maxY H).
Qed.

Lemma extents_covers_jobs_witness :
  exists maxX maxY,
    Placement.extents
      (Placement.canonicalize
         (Placement.setPosition (1 # 10) (2 # 10)
            PlacementExamples.row_with_column 10 20))
    = Return (maxX, maxY) /\ (0 <= maxX)%Q /\ (0 <= maxY)%Q.
Proof.
  destruct (Placement.extents
              (Placement.canonicalize
                 (Placement.setPosition (1 # 10) (2 # 10)
                    PlacementExamples.row_with_column 10 20)))
    as [[maxX maxY] | e] eqn:E; [| vm_compute in E; discriminate E].
  exists maxX, maxY. split; [reflexivity |].
  destruct (extents_covers_jobs _ maxX maxY E) as (Hx & Hy & _).
  split; assumption.
Defined.

(** X12.  [Placement.extents] returns exactly when every job has both
    coordinates of its position; otherwise it raises [TypeError], and it
    raises nothing else. *)
Theorem extents_needs_positions {J : Type} {ops : Placement.JobLayoutOps J}
    (jobs : list J) :
  ((exists r, Placement.extents jobs = Return r) <->
   Forall Placement.positioned jobs) /\
  forall e, Placement.extents jobs = Throw e -> e = TypeError.
Proof.
  split.
  - apply PlacementFacts.extents_from_returns.
  - apply PlacementFacts.extents_from_throws.
Qed.

(** X14.  [addFromFile] positions the rows only: when the file has, at top
    level, a column or a board with a job layout that has no position, the
    placement it makes has that job without a position, and
    [Placement.extents] raises [TypeError]. *)
Theorem unpositioned_column_breaks_extents {J : Type}
    {ops : Placement.JobLayoutOps J}
    (xspacing yspacing : Q) (rows : list (Placement.panel J))
    (OriginX OriginY leftmargin bottommargin : Q)
    (i : nat) (p : Placement.panel J) (j : J) :
  nth_error rows i = Some p ->
  (forall rx ry jobs, p <> Placement.Row rx ry jobs) ->
  In j (Placement.canonicalize p) ->
  Placement.job_x j = None ->
  In j (Placement.addFromFile xspacing yspacing rows
          OriginX OriginY leftmargin bottommargin) /\
  Placement.extents
    (Placement.addFromFile xspacing yspacing rows
       OriginX OriginY leftmargin bottommargin) = Throw TypeError.
Proof.
  intros Hp Hn Hj Hx.
  assert (Hin : In j (Placement.addFromFile xspacing yspacing rows
                        OriginX OriginY leftmargin bottommargin)).
  { rewrite PlacementFacts.addFromFile_concat.
    apply in_concat. exists (Placement.canonicalize p). split; [| exact Hj].
    apply in_map. eapply nth_error_In.
    apply PlacementFacts.position_rows_others; eassumption. }
  split; [exact Hin |].
  destruct (Placement.extents
              (Placement.addFromFile xspacing yspacing rows
                 OriginX OriginY leftmargin bottommargin)) as [r | e] eqn:E.
  - exfalso.
    assert (Hall : Forall Placement.positioned
                     (Placement.addFromFile xspacing yspacing rows
                        OriginX OriginY leftmargin bottommargin)).
    { apply (PlacementFacts.extents_from_returns _ 0 0). now exists r. }
    rewrite Forall_forall in Hall. destruct (Hall j Hin) as [Hjx _].
    now apply Hjx.
  - f_equal. exact (PlacementFacts.extents_from_throws _ 0 0 e E).
Qed.

Lemma unpositioned_column_breaks_extents_witness :
  Placement.extents
    (Placement.addFromFile (1 # 10) (2 # 10) PlacementExamples.three_rows
       0 0 0 0) = Throw TypeError.
Proof.
  apply (unpositioned_column_breaks_extents (1 # 10) (2 # 10)
           PlacementExamples.three_rows 0 0 0 0 1
           (Placement.Col None None [PlacementExamples.board 1 1])
           (Placement.mkPlaced 1 1 None None)).
  - reflexivity.
  - intros rx ry jobs H. discriminate H.
  - simpl. now left.
  - reflexivity.
Defined.

(** ** Panelizing the jobs *)

Lemma tile_search_exhaustive_search {T : Type} {ops : TilingOps T}
    (clock : nat -> Z) (maxUtilization : list Job -> Z -> Z -> result Z)
    (Jobs : list Job) (X Y xsp ysp timeout period : Z) (w : nat) (u : Z) :
  maxUtilization Jobs xsp ysp = Ok u ->
  Gerbmerge.tile_search_exhaustive clock maxUtilization Jobs X Y xsp ysp
    timeout period w
  = (r <- ExhaustiveSearch.search clock Jobs X Y xsp ysp timeout None period
            w true ;;
     Ok (ExhaustiveSearch.bestTiling (fst r), snd r)).
Proof.
  intros Hu. unfold Gerbmerge.tile_search_exhaustive, ExhaustiveSearch.search.
  destruct (ExhaustiveSearch.init clock Jobs X Y xsp ysp timeout None period w)
    as [[p s0] w0].
  rewrite Hu. reflexivity.
Qed.

(** X15.  The exhaustive panelization fails exactly when nothing fits:
    when every tiling object is true, the timeout cannot fire and
    [maxUtilization] returns, [tile_jobs] ends in one of three ways.  It
    returns an arrangement of the jobs that is least in area, then corners,
    among all of the search tree; or it raises [RuntimeError] (panel too
    small), and then the search tree has no complete arrangement; or the
    status line of the search has raised ZeroDivisionError or
    OverflowError.  With the status line safe the last case is out, and
    [RuntimeError] is raised if and only if nothing fits. *)
Theorem panel_too_small_iff_nothing_fits {T : Type} {ops : TilingOps T}
    (clock : nat -> Z) (maxUtilization : list Job -> Z -> Z -> result Z)
    (L : list Job) (PX PY xsp ysp timeout period : Z) (w : nat) (u : Z) :
  (forall t : T, truthy t = true) ->
  ExhaustiveSearch.untimed clock timeout w true ->
  maxUtilization L xsp ysp = Ok u ->
  ((exists tile,
      Gerbmerge.tile_jobs clock maxUtilization None L PX PY xsp ysp timeout
        period w = Return tile /\
      ExhaustiveSearch.leaf_of xsp ysp L
        (ExhaustiveSearch.base_of PX PY xsp ysp None) tile /\
      forall t, ExhaustiveSearch.leaf_of xsp ysp L
                  (ExhaustiveSearch.base_of PX PY xsp ysp None) t ->
                ExhaustiveSearch.lex_le tile t) \/
   (Gerbmerge.tile_jobs clock maxUtilization None L PX PY xsp ysp timeout
      period w = Throw RuntimeError /\
    forall t, ~ ExhaustiveSearch.leaf_of xsp ysp L
                  (ExhaustiveSearch.base_of PX PY xsp ysp None) t) \/
   (~ ExhaustiveSearch.status_line_safe L PX PY xsp ysp None true /\
    (Gerbmerge.tile_jobs clock maxUtilization None L PX PY xsp ysp timeout
       period w = Throw (Exn ZeroDivisionError) \/
     Gerbmerge.tile_jobs clock maxUtilization None L PX PY xsp ysp timeout
       period w = Throw (Exn OverflowError)))) /\
  (ExhaustiveSearch.status_line_safe L PX PY xsp ysp None true ->
   (Gerbmerge.tile_jobs clock maxUtilization None L PX PY xsp ysp timeout
      period w = Throw RuntimeError <->
    forall t, ~ ExhaustiveSearch.leaf_of xsp ysp L
                  (ExhaustiveSearch.base_of PX PY xsp ysp None) t)).
Proof.
  intros Htrue Hun Hu.
  pose proof (ExhaustiveFacts.search_spec clock L PX PY xsp ysp timeout None
                period w true) as Hspec.
  pose proof (ExhaustiveFacts.search_raises clock L PX PY xsp ysp timeout None
                period w true) as Hraise.
  pose proof (ExhaustiveFacts.search_returns clock L PX PY xsp ysp timeout None
                period w true) as Hret.
  unfold Gerbmerge.tile_jobs.
  rewrite (tile_search_exhaustive_search clock maxUtilization L PX PY xsp
             ysp timeout period w u Hu).
  destruct (ExhaustiveSearch.search clock L PX PY xsp ysp timeout None period
              w true) as [[s' w'] | e];
    cbn [bind fst snd ExhaustiveSearch.outcome] in *.
  - destruct Hspec as (_ & Hleaf & Hdom). specialize (Hdom Htrue Hun).
    destruct (ExhaustiveSearch.bestTiling s') as [b |] eqn:Eb.
    + rewrite Htrue. split.
      * left. exists b. split; [reflexivity |].
        split; [now apply Hleaf |].
        intros t Ht. destruct (Hdom t Ht) as (b' & Hb' & Hle).
        rewrite Eb in Hb'. injection Hb' as <-. exact Hle.
      * intros _. split; [discriminate |].
        intros Hno. exfalso. apply (Hno b). now apply Hleaf.
    + assert (Hno : forall t, ~ ExhaustiveSearch.leaf_of xsp ysp L
                          (ExhaustiveSearch.base_of PX PY xsp ysp None) t).
      { intros t Ht. destruct (Hdom t Ht) as (b & Hb & _).
        rewrite Eb in Hb. discriminate Hb. }
      split; [right; left; split; [reflexivity | exact Hno] |].
      intros _. split; [intros _; exact Hno | reflexivity].
  - assert (Hunsafe : ~ ExhaustiveSearch.status_line_safe L PX PY xsp ysp
                          None true).
    { intros Hsafe. destruct (Hret Hsafe) as (s' & w' & E & _).
      discriminate E. }
    split.
    + right; right. split; [exact Hunsafe |].
      destruct (Hraise e eq_refl) as (_ & [(-> & _) | (-> & _)]);
        [left | right]; reflexivity.
    + intros Hsafe. contradiction.
Qed.

Lemma panel_too_small_iff_nothing_fits_witness :
  Gerbmerge.tile_jobs (ops := Panel.ops) Examples.steady_clock
    (fun _ _ _ => Ok 0) None Examples.three_large 1 1 0 0 0 3000 0
  = Throw RuntimeError /\
  forall t : Panel.t,
    ~ ExhaustiveSearch.leaf_of 0 0 Examples.three_large
        (ExhaustiveSearch.base_of 1 1 0 0 None) t.
Proof.
  destruct (panel_too_small_iff_nothing_fits (ops := Panel.ops)
              Examples.steady_clock (fun _ _ _ => Ok 0)
              Examples.three_large 1 1 0 0 0 3000 0%nat 0)
    as [_ H].
  - intros t. reflexivity.
  - right. left. lia.
  - reflexivity.
  - split; [vm_compute; reflexivity |].
    apply H; [| vm_compute; reflexivity].
    right. split; [vm_compute; reflexivity |].
    split; vm_compute; reflexivity.
Defined.

(** ** Excellon tool lists *)

Module ExcellonFacts.
Import Excellon.
Import Ascii.AsciiSyntax String.StringSyntax.

Section Facts.
Variable units_pat_match
  : String.string -> option (String.string * String.string * String.string).
Variable float : String.string -> option Q.




End Facts.
End ExcellonFacts.


(** ** Apertures *)

Module AptableFacts.
Import Aptable.
Import String.StringSyntax.

Lemma decimal_round_trip n : of_decimal (decimal n) = Ok n.
Proof.
  unfold of_decimal, decimal.
  rewrite DecimalString.NilZero.isi.
  - now rewrite DecimalZ.of_to.
  - destruct n; simpl; try discriminate.
    intros H. injection H as H.
    now apply DecimalPos.Unsigned.to_uint_nonnil in H.
  - destruct n; simpl; try discriminate.
    intros H. injection H as H.
    now apply DecimalPos.Unsigned.to_uint_nonnil in H.
Qed.

Lemma of_decimal_empty : of_decimal String.EmptyString = Raise ValueError.
Proof. reflexivity. Qed.

Lemma Forall2_in_left {A B : Type} (R : A -> B -> Prop) l l' a :
  Forall2 R l l' -> In a l -> exists b, In b l' /\ R a b.
Proof.
  induction 1 as [| x y l l' Hxy _ IH]; intros Hin; [contradiction |].
  destruct Hin as [<- | Hin].
  - exists y. split; [now left | exact Hxy].
  - destruct (IH Hin) as (b & Hb & Hr). exists b. split; [now right | exact Hr].
Qed.

Lemma insert_int_perm x l : Permutation (insert_int x l) (x :: l).
Proof.
  induction l as [| y l IH]; simpl; [reflexivity |].
  destruct (x <=? y); [reflexivity |].
  rewrite IH. apply perm_swap.
Qed.

Lemma sort_ints_perm l : Permutation (sort_ints l) l.
Proof.
  induction l as [| x l IH]; simpl; [reflexivity |].
  rewrite insert_int_perm. now constructor.
Qed.

Lemma insert_int_ascending x l : ascending l -> ascending (insert_int x l).
Proof.
  induction l as [| y l IH]; intros H; simpl.
  - split; constructor.
  - destruct H as [Hy Hl]. destruct (x <=? y) eqn:E.
    + apply Z.leb_le in E. split; [| split; assumption].
      constructor; [exact E |].
      eapply Forall_impl; [| exact Hy]. intros z Hz. lia.
    + apply Z.leb_gt in E. split; [| now apply IH].
      apply Forall_forall. intros z Hz.
      apply (Permutation_in _ (insert_int_perm x l)) in Hz.
      destruct Hz as [<- | Hz]; [lia |].
      rewrite Forall_forall in Hy. now apply Hy.
Qed.

Lemma sort_ints_ascending l : ascending (sort_ints l).
Proof.
  induction l as [| x l IH]; simpl; [exact I |].
  now apply insert_int_ascending.
Qed.

Lemma ascending_app_last l : forall m,
  ascending (l ++ [m]) -> forall x, In x (l ++ [m]) -> x <= m.
Proof.
  induction l as [| y l IH]; intros m H x Hx; simpl in *.
  - destruct Hx as [<- | []]. lia.
  - destruct H as [Hy Hl]. destruct Hx as [<- | Hx].
    + rewrite Forall_forall in Hy. apply Hy. apply in_or_app. right. now left.
    + now apply IH.
Qed.

(** [keys[-1]] after [keys.sort()] is the largest key. *)
Lemma last_of_sorted l :
  match last_of (sort_ints l) with
  | Ok m => In m l /\ forall x, In x l -> x <= m
  | Raise e => e = IndexError /\ l = []
  end.
Proof.
  unfold last_of.
  pose proof (sort_ints_perm l) as Hp.
  pose proof (sort_ints_ascending l) as Ha.
  destruct (rev (sort_ints l)) as [| m r] eqn:E.
  - split; [reflexivity |].
    apply (f_equal (@rev Z)) in E. rewrite rev_involutive in E. simpl in E.
    rewrite E in Hp. apply Permutation_nil in Hp. exact Hp.
  - apply (f_equal (@rev Z)) in E. rewrite rev_involutive in E. simpl in E.
    rewrite E in Ha, Hp. split.
    + eapply Permutation_in; [exact Hp |]. apply in_or_app. right. now left.
    + intros x Hx. apply (ascending_app_last _ _ Ha).
      eapply Permutation_in; [apply Permutation_sym; exact Hp | exact Hx].
Qed.

Section Facts.
Variable format_5f : Q -> String.string.
Variable int_of_str : String.string -> result Z.
Variable str_of_int : Z -> String.string.
Hypothesis int_of_str_of_int : forall n, int_of_str (str_of_int n) = Ok n.

Lemma codes_of_spec keys : forall ns,
  codes_of int_of_str keys = Ok ns ->
  Forall2 (fun K n => int_of_str (Excellon.from_1 K) = Ok n) keys ns.
Proof.
  induction keys as [| K rest IH]; intros ns H; simpl in H.
  - injection H as <-. constructor.
  - apply bind_ok in H. destruct H as (n & Hn & H).
    apply bind_ok in H. destruct H as (ns' & Hns & H).
    injection H as <-. constructor; [exact Hn | now apply IH].
Qed.

Lemma codes_of_total keys :
  Forall (fun K => exists n, int_of_str (Excellon.from_1 K) = Ok n) keys ->
  exists ns, codes_of int_of_str keys = Ok ns.
Proof.
  induction 1 as [| K rest [n Hn] _ [ns Hns]]; simpl.
  - now exists [].
  - rewrite Hn. simpl. rewrite Hns. simpl. now exists (n :: ns).
Qed.

Lemma codes_of_app keys ns K n :
  codes_of int_of_str keys = Ok ns ->
  int_of_str (Excellon.from_1 K) = Ok n ->
  codes_of int_of_str (keys ++ [K]) = Ok (ns ++ [n]).
Proof.
  revert ns. induction keys as [| K0 rest IH]; intros ns H Hn; simpl in *.
  - injection H as <-. now rewrite Hn.
  - apply bind_ok in H. destruct H as (n0 & Hn0 & H).
    apply bind_ok in H. destruct H as (ns' & Hns & H).
    injection H as <-. rewrite Hn0. simpl.
    rewrite (IH ns' Hns Hn). reflexivity.
Qed.

Lemma findHighest_spec keys m :
  findHighestApertureCode int_of_str keys = Ok m ->
  exists ns,
    codes_of int_of_str keys = Ok ns /\
    In m ns /\ forall x, In x ns -> x <= m.
Proof.
  unfold findHighestApertureCode. intros H.
  apply bind_ok in H. destruct H as (ns & Hns & H).
  exists ns. split; [exact Hns |].
  pose proof (last_of_sorted ns) as L. rewrite H in L. exact L.
Qed.

Lemma findHighest_of_max keys ns m :
  codes_of int_of_str keys = Ok ns ->
  In m ns -> (forall x, In x ns -> x <= m) ->
  findHighestApertureCode int_of_str keys = Ok m.
Proof.
  intros Hns Hin Hmax. unfold findHighestApertureCode. rewrite Hns. simpl.
  pose proof (last_of_sorted ns) as L.
  destruct (last_of (sort_ints ns)) as [m' | e].
  - destruct L as [Hin' Hmax']. f_equal.
    specialize (Hmax m' Hin'). specialize (Hmax' m Hin). lia.
  - destruct L as [_ ->]. contradiction.
Qed.

Lemma from_1_code n :
  Excellon.from_1 (String.append "D" (str_of_int n)) = str_of_int n.
Proof. reflexivity. Qed.

Lemma addToApertureTable_spec AP GAT c AP' GAT' :
  addToApertureTable int_of_str str_of_int AP GAT = Ok (c, AP', GAT') ->
  exists lastCode,
    findHighestApertureCode int_of_str (map fst GAT) = Ok lastCode /\
    c = String.append "D" (str_of_int (lastCode + 1)) /\
    AP' = with_code AP c /\
    ~ In c (map fst GAT) /\
    GAT' = GAT ++ [(c, AP')] /\
    findHighestApertureCode int_of_str (map fst GAT') = Ok (lastCode + 1).
Proof.
  unfold addToApertureTable. intros H.
  apply bind_ok in H. destruct H as (lastCode & Hlast & H).
  set (c0 := String.append "D" (str_of_int (lastCode + 1))) in *.
  assert (Hc : c = c0) by congruence.
  assert (HA : AP' = with_code AP c0) by congruence.
  assert (HG : GAT' = dict_set String.eqb GAT c0 (with_code AP c0))
    by congruence.
  clear H. subst c AP' GAT'.
  exists lastCode. split; [exact Hlast |]. split; [reflexivity |].
  split; [reflexivity |].
  destruct (findHighest_spec _ _ Hlast) as (ns & Hns & Hin & Hmax).
  assert (Hfresh : ~ In c0 (map fst GAT)).
  { intros Hc. pose proof (codes_of_spec _ _ Hns) as F.
    destruct (Forall2_in_left _ _ _ _ F Hc) as (n & Hn & Hcode).
    change (int_of_str (str_of_int (lastCode + 1)) = Ok n) in Hcode.
    rewrite int_of_str_of_int in Hcode.
    injection Hcode as <-. specialize (Hmax _ Hn). lia. }
  split; [exact Hfresh |].
  assert (Hset : dict_set String.eqb GAT c0 (with_code AP c0)
                 = GAT ++ [(c0, with_code AP c0)]).
  { destruct (dict_set_keys String.eqb GAT c0 (with_code AP c0))
      as [[Hget _] | [_ E]]; [| exact E].
    exfalso. apply Hget.
    now apply (dict_get_none String.eqb RemapFacts.string_eqb_eq). }
  split; [exact Hset |].
  rewrite Hset, map_app. cbn [map fst].
  eapply findHighest_of_max.
  - apply codes_of_app; [exact Hns |].
    exact (int_of_str_of_int (lastCode + 1)).
  - apply in_or_app. right. now left.
  - intros x Hx. apply in_app_or in Hx. destruct Hx as [Hx | [<- | []]].
    + specialize (Hmax x Hx). lia.
    + lia.
Qed.

Lemma hash_with_code AP c :
  hash format_5f (with_code AP c) = hash format_5f AP.
Proof. reflexivity. Qed.

Lemma find_hash_some h items key :
  find_hash format_5f h items = Ok (Some key) ->
  exists v, In (key, v) items /\ hash format_5f v = Ok h.
Proof.
  induction items as [| [k v] rest IH]; simpl; [discriminate |].
  intros H. apply bind_ok in H. destruct H as (h' & Hh & H).
  destruct (String.eqb h h') eqn:E.
  - injection H as <-. apply String.eqb_eq in E. subst h'.
    exists v. split; [now left | exact Hh].
  - destruct (IH H) as (v' & Hin & Hv).
    exists v'. split; [now right | exact Hv].
Qed.

Lemma find_hash_append h items c v :
  find_hash format_5f h items = Ok None ->
  hash format_5f v = Ok h ->
  find_hash format_5f h (items ++ [(c, v)]) = Ok (Some c).
Proof.
  intros H Hv. induction items as [| [k v0] rest IH]; simpl in *.
  - rewrite Hv. simpl. now rewrite String.eqb_refl.
  - apply bind_ok in H. destruct H as (h' & Hh & H). rewrite Hh. simpl.
    destruct (String.eqb h h'); [discriminate | now apply IH].
Qed.

End Facts.

Section RevDictFacts.
Context {V : Type}.
Variable hash_of : V -> result String.string.

Lemma buildRevDict_from_spec items : forall RevD0 RevD,
  buildRevDict_from hash_of items RevD0 = Ok RevD ->
  (forall h k',
     dict_get String.eqb RevD h = Some k' ->
     dict_get String.eqb RevD0 h = Some k' \/
     exists v', In (k', v') items /\ hash_of v' = Ok h) /\
  (forall h, dict_get String.eqb RevD0 h <> None ->
             dict_get String.eqb RevD h <> None) /\
  (forall k v, In (k, v) items ->
     exists h, hash_of v = Ok h /\ dict_get String.eqb RevD h <> None).
Proof.
  induction items as [| [key val] rest IH]; intros RevD0 RevD H; simpl in H.
  - injection H as <-. repeat split; auto. intros k v [].
  - apply bind_ok in H. destruct H as (h0 & Hh0 & H).
    destruct (IH _ _ H) as (Hfrom & Hkeep & Hall).
    assert (Hset : forall h,
               dict_get String.eqb RevD0 h <> None ->
               dict_get String.eqb (dict_set String.eqb RevD0 h0 key) h
               <> None).
    { intros h Hh. destruct (String.eqb_spec h h0) as [-> | Hne].
      - rewrite (dict_get_set_same String.eqb RemapFacts.string_eqb_eq).
        discriminate.
      - now rewrite (dict_get_set_other String.eqb RemapFacts.string_eqb_eq). }
    split; [| split].
    + intros h k' Hget. destruct (Hfrom h k' Hget) as [Hold | (v' & Hin & Hv)].
      * destruct (String.eqb_spec h h0) as [-> | Hne].
        -- rewrite (dict_get_set_same String.eqb RemapFacts.string_eqb_eq)
             in Hold.
           injection Hold as <-. right. exists val.
           split; [now left | exact Hh0].
        -- rewrite (dict_get_set_other String.eqb RemapFacts.string_eqb_eq)
             in Hold by exact Hne.
           now left.
      * right. exists v'. split; [now right | exact Hv].
    + intros h Hh. apply Hkeep. now apply Hset.
    + intros k v [Heq | Hin].
      * injection Heq as <- <-. exists h0. split; [exact Hh0 |].
        apply Hkeep.
        rewrite (dict_get_set_same String.eqb RemapFacts.string_eqb_eq).
        discriminate.
      * now apply (Hall k v).
Qed.

End RevDictFacts.

End AptableFacts.

(** X17.  [addToApertureTable] gives an aperture a code that no aperture
    of the table has: one more than the highest, and the highest of the
    table afterwards; the aperture goes last and no entry of the table is
    changed.  Asked of Python: [int] reads back what [{:d}] formats. *)
Theorem new_aperture_code_is_fresh
    (int_of_str : String.string -> result Z) (str_of_int : Z -> String.string)
    (AP AP' : Aptable.Aperture) (GAT GAT' : Aptable.GAT_t)
    (c : String.string) :
  (forall n, int_of_str (str_of_int n) = Ok n) ->
  Aptable.addToApertureTable int_of_str str_of_int AP GAT
    = Ok (c, AP', GAT') ->
  exists lastCode,
    Aptable.findHighestApertureCode int_of_str (map fst GAT) = Ok lastCode /\
    c = String.append (String.String (Ascii.ascii_of_nat 68) String.EmptyString)
          (str_of_int (lastCode + 1)) /\
    AP' = Aptable.with_code AP c /\
    ~ In c (map fst GAT) /\
    GAT' = GAT ++ [(c, AP')] /\
    Aptable.findHighestApertureCode int_of_str (map fst GAT')
      = Ok (lastCode + 1).
Proof.
  intros Hlaw H.
  exact (AptableFacts.addToApertureTable_spec int_of_str str_of_int Hlaw
           AP GAT c AP' GAT' H).
Qed.

Lemma new_aperture_code_is_fresh_witness :
  exists c AP' GAT',
    Aptable.addToApertureTable Aptable.of_decimal Aptable.decimal
      Aptable.thin_rectangle Aptable.two_apertures = Ok (c, AP', GAT') /\
    ~ In c (map fst Aptable.two_apertures).
Proof.
  destruct (Aptable.addToApertureTable Aptable.of_decimal Aptable.decimal
              Aptable.thin_rectangle Aptable.two_apertures)
    as [[[c AP'] GAT'] | e] eqn:E; [| vm_compute in E; discriminate E].
  exists c, AP', GAT'. split; [reflexivity |].
  destruct (new_aperture_code_is_fresh Aptable.of_decimal Aptable.decimal
              Aptable.thin_rectangle AP' Aptable.two_apertures GAT' c
              AptableFacts.decimal_round_trip E)
    as (lastCode & _ & _ & _ & Hfresh & _).
  exact Hfresh.
Defined.

(** X18.  [addToApertureTable] returns exactly when the table is not
    empty and [int] accepts every key without its first character; on an
    empty table [keys[-1]] raises [IndexError]. *)
Theorem addToApertureTable_needs_a_table
    (int_of_str : String.string -> result Z) (str_of_int : Z -> String.string)
    (AP : Aptable.Aperture) (GAT : Aptable.GAT_t) :
  ((exists r, Aptable.addToApertureTable int_of_str str_of_int AP GAT = Ok r)
   <->
   GAT <> [] /\
   Forall (fun K => exists n, int_of_str (Excellon.from_1 K) = Ok n)
          (map fst GAT)) /\
  Aptable.addToApertureTable int_of_str str_of_int AP [] = Raise IndexError.
Proof.
  split; [| reflexivity]. unfold Aptable.addToApertureTable. split.
  - intros [r H]. apply bind_ok in H. destruct H as (lastCode & Hlast & _).
    unfold Aptable.findHighestApertureCode in Hlast.
    apply bind_ok in Hlast. destruct Hlast as (ns & Hns & Hlast).
    pose proof (AptableFacts.codes_of_spec _ _ _ Hns) as F.
    split.
    + intros ->. simpl in Hns. injection Hns as <-. discriminate Hlast.
    + clear Hlast Hns. induction F; constructor; eauto.
  - intros [Hne Hall].
    destruct (AptableFacts.codes_of_total int_of_str _ Hall) as (ns & Hns).
    unfold Aptable.findHighestApertureCode. rewrite Hns. cbn [bind].
    pose proof (AptableFacts.last_of_sorted ns) as L.
    destruct (Aptable.last_of (Aptable.sort_ints ns)) as [m | e].
    + cbn [bind]. eauto.
    + destruct L as [_ ->]. destruct GAT; [congruence |].
      simpl in Hns. apply bind_ok in Hns. destruct Hns as (n & _ & Hns).
      apply bind_ok in Hns. destruct Hns as (ns' & _ & Hns). discriminate Hns.
Qed.

(** X19.  [findOrAddAperture] settles an aperture in the table: after it
    [findInApertureTable] finds the aperture under the code returned, the
    table holds under that code an aperture with the same hash, the table
    is the old one or the old one with the aperture added last, and a
    second call returns the same code and changes nothing.  Asked of
    Python: [int] reads back what [{:d}] formats and refuses the empty
    string. *)
Theorem findOrAddAperture_settles
    (format_5f : Q -> String.string)
    (int_of_str : String.string -> result Z) (str_of_int : Z -> String.string)
    (AP AP' : Aptable.Aperture) (GAT GAT' : Aptable.GAT_t)
    (c : String.string) :
  (forall n, int_of_str (str_of_int n) = Ok n) ->
  int_of_str String.EmptyString = Raise ValueError ->
  Aptable.findOrAddAperture format_5f int_of_str str_of_int AP GAT
    = Ok (c, AP', GAT') ->
  Aptable.findInApertureTable format_5f AP' GAT' = Ok (Some c) /\
  (exists v, In (c, v) GAT' /\
             Aptable.hash format_5f v = Aptable.hash format_5f AP) /\
  (GAT' = GAT \/ GAT' = GAT ++ [(c, AP')]) /\
  Aptable.findOrAddAperture format_5f int_of_str str_of_int AP' GAT'
    = Ok (c, AP', GAT').
Proof.
  intros Hlaw Hempty H. unfold Aptable.findOrAddAperture in H.
  apply bind_ok in H. destruct H as (found & Hfound & H).
  pose proof Hfound as Hfind. unfold Aptable.findInApertureTable in Hfind.
  apply bind_ok in Hfind. destruct Hfind as (h & Hh & Hfind).
  assert (Hadd : Aptable.addToApertureTable int_of_str str_of_int AP GAT
                 = Ok (c, AP', GAT') ->
                 found = None ->
                 Aptable.findInApertureTable format_5f AP' GAT' = Ok (Some c) /\
                 (exists v, In (c, v) GAT' /\
                    Aptable.hash format_5f v = Aptable.hash format_5f AP) /\
                 (GAT' = GAT \/ GAT' = GAT ++ [(c, AP')]) /\
                 c <> String.EmptyString).
  { intros Ha ->.
    destruct (AptableFacts.addToApertureTable_spec int_of_str str_of_int Hlaw
                AP GAT c AP' GAT' Ha)
      as (lastCode & _ & Hc & HAP & _ & HG & _).
    assert (Hhash : Aptable.hash format_5f AP' = Ok h).
    { rewrite HAP. exact Hh. }
    split; [| split; [| split]].
    - unfold Aptable.findInApertureTable. rewrite Hhash. cbn [bind].
      rewrite HG. now apply AptableFacts.find_hash_append.
    - exists AP'. split; [| congruence].
      rewrite HG. apply in_or_app. right. now left.
    - now right.
    - rewrite Hc. discriminate. }
  assert (Hagain : Aptable.findInApertureTable format_5f AP' GAT'
                   = Ok (Some c) ->
                   c <> String.EmptyString ->
                   AP' = Aptable.with_code AP c ->
                   Aptable.findOrAddAperture format_5f int_of_str str_of_int
                     AP' GAT' = Ok (c, AP', GAT')).
  { intros Hf Hne ->. unfold Aptable.findOrAddAperture. rewrite Hf.
    cbn [bind].
    destruct (String.eqb_spec c String.EmptyString) as [-> | _];
      [congruence | reflexivity]. }
  destruct found as [c0 |].
  - destruct (String.eqb c0 String.EmptyString) eqn:E; cbn [negb] in H.
    + exfalso. apply String.eqb_eq in E. subst c0.
      destruct (AptableFacts.find_hash_some _ _ _ _ Hfind) as (v & Hin & _).
      unfold Aptable.addToApertureTable in H. apply bind_ok in H.
      destruct H as (lastCode & Hlast & _).
      destruct (AptableFacts.findHighest_spec _ _ _ Hlast)
        as (ns & Hns & Hmax_in & _).
      pose proof (AptableFacts.codes_of_spec _ _ _ Hns) as F.
      assert (Hkey : In String.EmptyString (map fst GAT)).
      { apply in_map_iff. exists (String.EmptyString, v). auto. }
      destruct (AptableFacts.Forall2_in_left _ _ _ _ F Hkey)
        as (n & _ & Hn).
      simpl in Hn. rewrite Hempty in Hn. discriminate Hn.
    + injection H as <- <- <-.
      apply String.eqb_neq in E.
      assert (Hf : Aptable.findInApertureTable format_5f
                     (Aptable.with_code AP c0) GAT = Ok (Some c0)).
      { unfold Aptable.findInApertureTable.
        rewrite AptableFacts.hash_with_code, Hh. exact Hfind. }
      split; [exact Hf |]. split; [| split].
      * destruct (AptableFacts.find_hash_some _ _ _ _ Hfind) as (v & Hin & Hv).
        exists v. split; [exact Hin | congruence].
      * now left.
      * now apply Hagain.
  - destruct (Hadd H eq_refl) as (H1 & H2 & H3 & H4).
    split; [exact H1 |]. split; [exact H2 |]. split; [exact H3 |].
    apply Hagain; [exact H1 | exact H4 |].
    destruct (AptableFacts.addToApertureTable_spec int_of_str str_of_int Hlaw
                AP GAT c AP' GAT' H) as (? & _ & _ & HAP & _).
    exact HAP.
Qed.

Lemma findOrAddAperture_settles_witness :
  exists c AP' GAT',
    Aptable.findOrAddAperture Aptable.fraction Aptable.of_decimal
      Aptable.decimal Aptable.thin_rectangle Aptable.two_apertures
      = Ok (c, AP', GAT') /\
    Aptable.findInApertureTable Aptable.fraction AP' GAT' = Ok (Some c).
Proof.
  destruct (Aptable.findOrAddAperture Aptable.fraction Aptable.of_decimal
              Aptable.decimal Aptable.thin_rectangle Aptable.two_apertures)
    as [[[c AP'] GAT'] | e] eqn:E; [| vm_compute in E; discriminate E].
  exists c, AP', GAT'. split; [reflexivity |].
  destruct (findOrAddAperture_settles Aptable.fraction Aptable.of_decimal
              Aptable.decimal Aptable.thin_rectangle AP'
              Aptable.two_apertures GAT' c
              AptableFacts.decimal_round_trip AptableFacts.of_decimal_empty E)
    as (Hfound & _).
  exact Hfound.
Defined.

(** X20.  [getAdjusted] looks at [dimx] only: it returns [False] exactly
    when [dimx] is a number not below the minimum, whatever [dimy] is; a
    macro aperture (its [dimx] a name) raises [TypeError].  The aperture
    it returns otherwise has [dimx] equal to the minimum and, when it has a
    [dimy], that too equal to the minimum; it keeps type and code, and
    adjusting it again returns [False]. *)
Theorem adjusted_aperture_is_settled (a : Aptable.Aperture) (minimum : Q) :
  (Aptable.getAdjusted a minimum = Return None <->
   exists q, Aptable.dimx a = Aptable.Num q /\ (minimum <= q)%Q) /\
  (Aptable.getAdjusted a minimum = Throw TypeError <->
   exists s, Aptable.dimx a = Aptable.Name s) /\
  forall a',
    Aptable.getAdjusted a minimum = Return (Some a') ->
    Aptable.dimx a' = Aptable.Num minimum /\
    Aptable.dimy a' = option_map (fun _ => minimum) (Aptable.dimy a) /\
    Aptable.type_of a' = Aptable.type_of a /\
    Aptable.code a' = Aptable.code a /\
    Aptable.getAdjusted a' minimum = Return None.
Proof.
  destruct a as [t c dx dy]. unfold Aptable.getAdjusted. simpl.
  destruct dx as [q | s]; simpl.
  - destruct (DrillCluster.Qltb q minimum) eqn:E.
    + apply DrillFacts.Qltb_true in E.
      assert (Hirr : DrillCluster.Qltb minimum minimum = false)
        by (apply DrillFacts.Qltb_false; apply Qle_refl).
      split; [| split].
      * split.
        -- destruct dy, t; simpl; discriminate.
        -- intros (q' & Hq & Hle). injection Hq as <-.
           exfalso. apply (Qlt_irrefl q). eapply Qlt_le_trans; eassumption.
      * split; [destruct dy, t; simpl; discriminate |].
        intros (s & Hs). discriminate Hs.
      * intros a' H.
        destruct dy as [y |]; destruct t; simpl in H; try discriminate H;
          injection H as <-; simpl; rewrite Hirr; repeat split; reflexivity.
    + apply DrillFacts.Qltb_false in E.
      split; [| split].
      * split; [intros _; now exists q |].
        intros _. destruct dy; reflexivity.
      * split; [destruct dy; discriminate |].
        intros (s & Hs). discriminate Hs.
      * intros a' H. destruct dy; discriminate H.
  - split; [| split].
    + split; [discriminate |]. intros (q & Hq & _). discriminate Hq.
    + split; [intros _; now exists s | reflexivity].
    + intros a' H. discriminate H.
Qed.

(** X21.  The rectangle of [rectangleAsRect] is as wide and as high as
    the aperture in Gerber units, for odd and even sizes alike, and holds
    the centre when the sizes are not negative. *)
Theorem rectangle_extents_add_up
    (in2gerb : option Aptable.dim -> result Z)
    (a : Aptable.Aperture) (X Y dx dy : Z) :
  in2gerb (Some (Aptable.dimx a)) = Ok dx ->
  in2gerb (option_map Aptable.Num (Aptable.dimy a)) = Ok dy ->
  exists minx miny maxx maxy,
    Aptable.rectangleAsRect in2gerb a X Y = Ok (minx, miny, maxx, maxy) /\
    maxx - minx = dx /\ maxy - miny = dy /\
    (0 <= dx -> minx <= X <= maxx) /\
    (0 <= dy -> miny <= Y <= maxy).
Proof.
  intros Hx Hy. unfold Aptable.rectangleAsRect. rewrite Hx, Hy. cbn [bind].
  assert (P : forall d, Z.land d 1 = d mod 2).
  { intros d. change 1 with (Z.ones 1). now rewrite Z.land_ones by lia. }
  rewrite (P dx), (P dy).
  pose proof (Z.mod_pos_bound dx 2 ltac:(lia)) as Bx.
  pose proof (Z.mod_pos_bound dy 2 ltac:(lia)) as B_y.
  pose proof (Z.div_mod dx 2 ltac:(lia)) as Dx.
  pose proof (Z.div_mod dy 2 ltac:(lia)) as Dy.
  pose proof (Z.div_mod (dx + 1) 2 ltac:(lia)) as Dx1.
  pose proof (Z.div_mod (dy + 1) 2 ltac:(lia)) as Dy1.
  pose proof (Z.mod_pos_bound (dx + 1) 2 ltac:(lia)) as Bx1.
  pose proof (Z.mod_pos_bound (dy + 1) 2 ltac:(lia)) as By1.
  destruct (dx mod 2 =? 0) eqn:Ex; destruct (dy mod 2 =? 0) eqn:Ey;
    cbn [negb];
    [apply Z.eqb_eq in Ex | apply Z.eqb_eq in Ex
     | apply Z.eqb_neq in Ex | apply Z.eqb_neq in Ex];
    [apply Z.eqb_eq in Ey | apply Z.eqb_neq in Ey
     | apply Z.eqb_eq in Ey | apply Z.eqb_neq in Ey];
    eexists _, _, _, _; (split; [reflexivity |]); repeat split; lia.
Qed.

Lemma rectangle_extents_add_up_witness :
  exists minx miny maxx maxy,
    Aptable.rectangleAsRect (fun d => match d with
                                      | Some (Aptable.Num _) => Ok 5
                                      | _ => Ok 8
                                      end)
      Aptable.thin_rectangle 100 200 = Ok (minx, miny, maxx, maxy) /\
    maxx - minx = 5 /\ maxy - miny = 5.
Proof.
  destruct (rectangle_extents_add_up
              (fun d => match d with
                        | Some (Aptable.Num _) => Ok 5
                        | _ => Ok 8
                        end)
              Aptable.thin_rectangle 100 200 5 5 eq_refl eq_refl)
    as (minx & miny & maxx & maxy & E & Hw & Hh & _).
  exists minx, miny, maxx, maxy. split; [exact E | split; assumption].
Defined.

(** X22.  [buildRevDict] maps the hash of every value of the dictionary
    to a key of the dictionary whose value has that hash. *)
Theorem buildRevDict_finds_every_hash {V : Type}
    (hash_of : V -> result String.string)
    (D : list (String.string * V))
    (RevD : list (String.string * String.string)) :
  Aptable.buildRevDict hash_of D = Ok RevD ->
  forall k v, In (k, v) D ->
    exists h k' v',
      hash_of v = Ok h /\
      dict_get String.eqb RevD h = Some k' /\
      In (k', v') D /\ hash_of v' = Ok h.
Proof.
  intros H k v Hin. unfold Aptable.buildRevDict in H.
  destruct (AptableFacts.buildRevDict_from_spec hash_of D [] RevD H)
    as (Hfrom & _ & Hall).
  destruct (Hall k v Hin) as (h & Hh & Hget).
  destruct (dict_get String.eqb RevD h) as [k' |] eqn:E; [| congruence].
  destruct (Hfrom h k' E) as [Hold | (v' & Hin' & Hv')]; [discriminate Hold |].
  exists h, k', v'. auto.
Qed.

Lemma buildRevDict_finds_every_hash_witness :
  exists RevD h k' v',
    Aptable.buildRevDict (Aptable.hash Aptable.fraction)
      Aptable.two_apertures = Ok RevD /\
    dict_get String.eqb RevD h = Some k' /\
    In (k', v') Aptable.two_apertures /\
    Aptable.hash Aptable.fraction v' = Ok h.
Proof.
  destruct (Aptable.buildRevDict (Aptable.hash Aptable.fraction)
              Aptable.two_apertures) as [RevD | e] eqn:E;
    [| vm_compute in E; discriminate E].
  destruct (buildRevDict_finds_every_hash (Aptable.hash Aptable.fraction)
              Aptable.two_apertures RevD E
              (String.String (Ascii.ascii_of_nat 68)
                 (String.String (Ascii.ascii_of_nat 49)
                    (String.String (Ascii.ascii_of_nat 48)
                       String.EmptyString)))
              (Aptable.mkAperture Aptable.Circle
                 (String.String (Ascii.ascii_of_nat 68)
                    (String.String (Ascii.ascii_of_nat 49)
                       (String.String (Ascii.ascii_of_nat 48)
                          String.EmptyString)))
                 (Aptable.Num (1 # 100)) None)
              (or_introl eq_refl))
    as (h & k' & v' & _ & Hget & Hin & Hv).
  exists RevD, h, k', v'. split; [reflexivity |].
  split; [exact Hget |]. split; [exact Hin | exact Hv].
Defined.

(** ** What a worker of the random search reports *)

Module WorkerFacts.
Import RandomSearch.
Section Facts.
Context {T : Type} {ops : TilingOps T} {R : Type} {rnd : RandomOps R}.
Variable clock : nat -> Z.
Variable p : params (T := T).
Variable tail_period : Z.

Lemma reported_app (a b : list (Z * option T)) :
  Worker.reported (a ++ b) = Worker.reported a + Worker.reported b.
Proof.
  unfold Worker.reported. induction a as [| m a IH]; simpl; [reflexivity |].
  rewrite IH. ring.
Qed.

(** The synchronization block: what it sends, and what it keeps. *)
Lemma sync_spec s l (e : @env T R) b s' l' e' :
  sync clock p s l e = (b, (s', l', e')) ->
  bestTiling s' = bestTiling s /\ bestScore s' = bestScore s /\
  placements s' = placements s /\
  ((b = false /\ l' = l /\ queue e' = queue e) \/
   (l' = mkLocals false 0 /\
    queue e' = queue e
               ++ [(placementsSinceLastCheck l,
                    if foundBetter l then bestTiling s else None)])).
Proof.
  unfold sync, time.
  destruct (clock (ticks e) >? lastCheckTime s + syncPeriod p).
  - destruct (searchTimeout p >? 0); intros H; injection H as <- <- <- <-;
      simpl; repeat split; right; split; try reflexivity;
      destruct (foundBetter l); reflexivity.
  - intros H. injection H as <- <- <- <-. simpl. repeat split. now left.
Qed.

(** A trial's attempt keeps the counters and the queue. *)
Lemma attempt_counters s l (e : @env T R) fs s' l' e' :
  attempt clock p tail_period s l e = Ok (fs, (s', l', e')) ->
  placements s' = placements s /\
  placementsSinceLastCheck l' = placementsSinceLastCheck l /\
  queue e' = queue e.
Proof.
  unfold attempt. intros H.
  apply bind_ok in H. destruct H as ([[joborder placed] r2] & _ & H).
  destruct placed as [cur |].
  - apply bind_ok in H. destruct H as ([f w] & _ & H).
    destruct f as [f |].
    + unfold adopt in H.
      destruct (score_ltb (ExhaustiveSearch.bestScore f) (bestScore s));
        injection H as _ <- <- <-; simpl; auto.
    + injection H as _ <- <- <-. simpl. auto.
  - injection H as _ <- <- <-. simpl. auto.
Qed.

Lemma trials_report n : forall s l (e : @env T R) r,
  trials clock p tail_period n s l e = Ok r ->
  exists new,
    queue (Worker.env_of r) = queue e ++ new /\
    Worker.reported new + Worker.pending r
    = placements (state_of r) - placements s + placementsSinceLastCheck l /\
    placements s <= placements (state_of r) <= placements s + Z.of_nat n /\
    (forall s1 l1 e1, r = inr (s1, l1, e1) ->
       placements s1 = placements s + Z.of_nat n).
Proof.
  induction n as [| n IH]; intros s l e r H.
  - simpl in H. injection H as <-. exists []. simpl.
    rewrite app_nil_r. repeat split; try lia.
    intros s1 l1 e1 E. injection E as <- _ _. lia.
  - cbn [trials] in H. apply bind_ok in H.
    destruct H as ([returned [[s' l'] e']] & Ht & H).
    unfold trial in Ht. apply bind_ok in Ht.
    destruct Ht as ([fs [[s1 l1] e1]] & Ha & Ht).
    destruct (attempt_counters _ _ _ _ _ _ _ Ha) as (Hp & Hl & Hq).
    injection Ht as Ht.
    destruct (sync_spec _ _ _ _ _ _ _ Ht) as (_ & _ & Hp' & Hs).
    cbn [placements placementsSinceLastCheck foundBetter] in Hp', Hs.
    destruct returned.
    + injection H as <-. cbn [Worker.env_of Worker.pending state_of].
      destruct Hs as [(Hb & _) | (Hl' & Hq')]; [discriminate Hb |].
      eexists. split; [rewrite Hq', Hq; reflexivity |].
      unfold Worker.reported. simpl. repeat split; try lia.
      intros s2 l2 e2 E. discriminate E.
    + destruct (IH _ _ _ _ H) as (new & Hnew & Hsum & Hrange & Hloop).
      destruct Hs as [(_ & Hl' & Hq') | (Hl' & Hq')].
      * exists new. split; [now rewrite Hnew, Hq', Hq |].
        rewrite Hl' in Hsum. cbn [placementsSinceLastCheck] in Hsum.
        repeat split; try lia.
        intros s2 l2 e2 E. rewrite (Hloop s2 l2 e2 E). lia.
      * eexists. split.
        { rewrite Hnew, Hq', Hq, <- app_assoc. reflexivity. }
        rewrite reported_app. rewrite Hl' in Hsum.
        cbn [placementsSinceLastCheck] in Hsum.
        unfold Worker.reported at 1. simpl.
        repeat split; try lia.
        intros s2 l2 e2 E. rewrite (Hloop s2 l2 e2 E). lia.
Qed.

(** With no job left for the tail search, a trial adopts nothing. *)
Lemma attempt_without_tail s l (e : @env T R) fs s' l' e' :
  N p - M p = 0 ->
  attempt clock p tail_period s l e = Ok (fs, (s', l', e')) ->
  s' = s /\ l' = l /\ queue e' = queue e.
Proof.
  intros H0. unfold attempt, tail_search. rewrite H0. simpl. intros H.
  apply bind_ok in H. destruct H as ([[joborder placed] r2] & _ & H).
  destruct placed as [cur |]; simpl in H; injection H as _ <- <- <-; auto.
Qed.

Lemma trials_without_tail n : forall s l (e : @env T R) r,
  N p - M p = 0 ->
  foundBetter l = false ->
  trials clock p tail_period n s l e = Ok r ->
  bestTiling (state_of r) = bestTiling s /\
  bestScore (state_of r) = bestScore s /\
  exists new,
    queue (Worker.env_of r) = queue e ++ new /\
    Forall (fun m => snd m = None) new.
Proof.
  induction n as [| n IH]; intros s l e r H0 Hf H.
  - simpl in H. injection H as <-. simpl. repeat split.
    exists []. rewrite app_nil_r. split; [reflexivity | constructor].
  - cbn [trials] in H. apply bind_ok in H.
    destruct H as ([returned [[s' l'] e']] & Ht & H).
    unfold trial in Ht. apply bind_ok in Ht.
    destruct Ht as ([fs [[s1 l1] e1]] & Ha & Ht).
    destruct (attempt_without_tail _ _ _ _ _ _ _ H0 Ha) as (-> & -> & Hq).
    injection Ht as Ht.
    destruct (sync_spec _ _ _ _ _ _ _ Ht) as (Hb & Hs & _ & Hsent).
    cbn [bestTiling bestScore placementsSinceLastCheck foundBetter]
      in Hb, Hs, Hsent.
    rewrite Hf in Hsent.
    assert (Hf' : foundBetter l' = false).
    { destruct Hsent as [(_ & -> & _) | (-> & _)]; reflexivity. }
    assert (Hq' : exists new0,
               queue e' = queue e ++ new0 /\
               Forall (fun m : Z * option T => snd m = None) new0).
    { destruct Hsent as [(_ & _ & E) | (_ & E)].
      - exists []. rewrite app_nil_r. split; [congruence | constructor].
      - eexists. split; [rewrite E, Hq; reflexivity |].
        repeat constructor. }
    destruct Hq' as (new0 & Hnew0 & Hnone0).
    destruct returned.
    + injection H as <-. cbn [state_of Worker.env_of].
      split; [exact Hb |]. split; [exact Hs |].
      exists new0. split; assumption.
    + destruct (IH _ _ _ _ H0 Hf' H) as (Hb' & Hs' & new & Hnew & Hnone).
      split; [congruence |]. split; [congruence |].
      exists (new0 ++ new). split.
      * rewrite Hnew, Hnew0, <- app_assoc. reflexivity.
      * apply Forall_app. split; assumption.
Qed.

End Facts.
End WorkerFacts.

(** X23.  A worker of the random search with
    [RandomSearchExhaustiveJobs = 0] never finds a tiling: the comparison
    with the best score is made only after a tail search, and none is made
    when all jobs are placed at random.  Whatever the panel, the jobs and
    the random choices, after any number of trials the best tiling and the
    best score are those at the start and every message put on the queue
    carries [None]. *)
Theorem pure_random_worker_finds_nothing
    {T : Type} {ops : TilingOps T} {R : Type} {rnd : RandomOps R}
    (clock : nat -> Z) (p : RandomSearch.params (T := T)) (tail_period : Z)
    (n : nat) (s : RandomSearch.state (T := T))
    (e : RandomSearch.env (T := T) (R := R))
    (r : (RandomSearch.state * RandomSearch.env)
         + (RandomSearch.state * RandomSearch.locals * RandomSearch.env)) :
  RandomSearch.RandomSearchExhaustiveJobs p = 0 ->
  RandomSearch.run clock p tail_period n s e = Ok r ->
  RandomSearch.bestTiling (RandomSearch.state_of r)
    = RandomSearch.bestTiling s /\
  RandomSearch.bestScore (RandomSearch.state_of r)
    = RandomSearch.bestScore s /\
  exists new,
    RandomSearch.queue (Worker.env_of r) = RandomSearch.queue e ++ new /\
    Forall (fun m => snd m = None) new.
Proof.
  intros HE H. unfold RandomSearch.run in H.
  apply (WorkerFacts.trials_without_tail clock p tail_period n s
           (RandomSearch.mkLocals false 0) e r); [| reflexivity | exact H].
  unfold RandomSearch.M, RandomSearch.N. rewrite HE. lia.
Qed.

(** X24.  A worker reports every placement once: at any point of [run]
    the placements in the messages it has put on the queue, and those made
    since the last message, add up to the placements it has counted; while
    it loops it has counted one for every trial. *)
Theorem worker_reports_every_placement
    {T : Type} {ops : TilingOps T} {R : Type} {rnd : RandomOps R}
    (clock : nat -> Z) (p : RandomSearch.params (T := T)) (tail_period : Z)
    (n : nat) (s : RandomSearch.state (T := T))
    (e : RandomSearch.env (T := T) (R := R))
    (r : (RandomSearch.state * RandomSearch.env)
         + (RandomSearch.state * RandomSearch.locals * RandomSearch.env)) :
  RandomSearch.run clock p tail_period n s e = Ok r ->
  (exists new,
     RandomSearch.queue (Worker.env_of r) = RandomSearch.queue e ++ new /\
     Worker.reported new + Worker.pending r
     = RandomSearch.placements (RandomSearch.state_of r)
       - RandomSearch.placements s) /\
  (forall s1 l1 e1, r = inr (s1, l1, e1) ->
     RandomSearch.placements s1 = RandomSearch.placements s + Z.of_nat n).
Proof.
  intros H. unfold RandomSearch.run in H.
  destruct (WorkerFacts.trials_report clock p tail_period n s
              (RandomSearch.mkLocals false 0) e r H)
    as (new & Hq & Hsum & _ & Hloop).
  split; [| exact Hloop].
  exists new. split; [exact Hq |]. simpl in Hsum. lia.
Qed.

Lemma pure_random_worker_finds_nothing_witness :
  exists r,
    RandomSearch.run Examples.late_clock (Examples.narrow_worker 0) 0 3
      Examples.fresh_worker (Examples.tape_env [0; 1]%nat) = Ok r /\
    RandomSearch.bestTiling (RandomSearch.state_of r) = None /\
    RandomSearch.bestScore (RandomSearch.state_of r) = Inf.
Proof.
  destruct (RandomSearch.run Examples.late_clock (Examples.narrow_worker 0) 0
              3 Examples.fresh_worker (Examples.tape_env [0; 1]%nat))
    as [r | err] eqn:E; [| vm_compute in E; discriminate E].
  exists r. split; [reflexivity |].
  destruct (pure_random_worker_finds_nothing Examples.late_clock
              (Examples.narrow_worker 0) 0 3 Examples.fresh_worker
              (Examples.tape_env [0; 1]%nat) r eq_refl E) as (Hb & Hs & _).
  split; [exact Hb | exact Hs].
Defined.

Lemma worker_reports_every_placement_witness :
  exists r new,
    RandomSearch.run Examples.late_clock (Examples.narrow_worker 1) 0 3
      Examples.fresh_worker (Examples.tape_env [0; 1]%nat) = Ok r /\
    RandomSearch.queue (Worker.env_of r) = [] ++ new /\
    Worker.reported new + Worker.pending r
    = RandomSearch.placements (RandomSearch.state_of r) - 0.
Proof.
  destruct (RandomSearch.run Examples.late_clock (Examples.narrow_worker 1) 0
              3 Examples.fresh_worker (Examples.tape_env [0; 1]%nat))
    as [r | err] eqn:E; [| vm_compute in E; discriminate E].
  destruct (worker_reports_every_placement Examples.late_clock
              (Examples.narrow_worker 1) 0 3 Examples.fresh_worker
              (Examples.tape_env [0; 1]%nat) r E) as [(new & Hq & Hsum) _].
  exists r, new. split; [reflexivity |]. split; [exact Hq | exact Hsum].
Defined.

(** ** The tools of the panel *)

Module ToolsFacts.
Import Tools.
Local Open Scope Q_scope.

Lemma number_keeps diams : forall toolNum RMap k,
  In k (map fst RMap) -> In k (map fst (number diams toolNum RMap)).
Proof.
  induction diams as [| d rest IH]; intros toolNum RMap k H; simpl.
  - exact H.
  - apply IH. now apply dict_set_keeps_keys.
Qed.

Lemma number_covers diams : forall toolNum RMap d,
  In d diams ->
  exists k, In k (map fst (number diams toolNum RMap)) /\ k == d.
Proof.
  induction diams as [| d0 rest IH]; intros toolNum RMap d []; simpl.
  - subst d0.
    destruct (dict_set_has_key Qeq_bool RMap d
                (DrillCluster.tool_name toolNum) DrillFacts.Qeq_bool_refl')
      as (k & Hk & Hkd).
    exists k. split; [now apply number_keeps | now apply Qeq_bool_iff].
  - now apply IH.
Qed.

Lemma has_key_true RMap diam :
  has_key RMap diam = true ->
  exists k, In k (map fst RMap) /\ k == diam.
Proof.
  unfold has_key.
  induction RMap as [| [k v] rest IH]; simpl; [discriminate |].
  destruct (Qeq_bool k diam) eqn:E.
  - intros _. exists k. split; [now left | now apply Qeq_bool_iff].
  - intros H. destruct (IH H) as (k' & Hk' & Hd).
    exists k'. split; [now right | exact Hd].
Qed.

Lemma number_increasing diams : forall toolNum RMap,
  DrillCluster.increasing diams ->
  Forall (fun e => Forall (Qlt (fst e)) diams) RMap ->
  number diams (S toolNum) RMap
  = RMap ++ DrillCluster.renamed toolNum diams.
Proof.
  induction diams as [| d rest IH]; intros toolNum RMap Hinc Hacc; simpl.
  - now rewrite app_nil_r.
  - destruct Hinc as [Hd Hinc].
    rewrite DrillFacts.dict_set_fresh.
    + rewrite IH; [now rewrite <- app_assoc | exact Hinc |].
      apply Forall_app. split.
      * eapply Forall_impl; [| exact Hacc]. intros e He. now inversion He.
      * constructor; [exact Hd | constructor].
    + eapply Forall_impl; [| exact Hacc]. intros e He. now inversion He.
Qed.

End ToolsFacts.

(** X25.  The numbering of the drill tools in [merge] leaves no diameter
    without a tool: every diameter of every job is a key of
    [GlobalToolRMap] afterwards.  When the dictionary was empty and the
    diameters collected are pairwise different, the tools are named [T01],
    [T02], ... in ascending order of diameter. *)
Theorem merge_numbers_every_diameter
    (Jobs : list (list (String.string * Q)))
    (RMap : list (Q * String.string)) :
  (forall xdiam tool diam,
     In xdiam Jobs -> In (tool, diam) xdiam ->
     exists k, In k (map fst (Tools.number_tools Jobs RMap)) /\
               (k == diam)%Q) /\
  (DrillCluster.distinct (Tools.allToolDiam Jobs []) ->
   Tools.number_tools Jobs []
   = DrillCluster.renamed 0
       (DrillCluster.sorted (Tools.allToolDiam Jobs []))).
Proof.
  split.
  - intros xdiam tool diam Hj Hin. unfold Tools.number_tools.
    destruct (Tools.has_key RMap diam) eqn:E.
    + destruct (ToolsFacts.has_key_true _ _ E) as (k & Hk & Hd).
      exists k. split; [now apply ToolsFacts.number_keeps | exact Hd].
    + apply ToolsFacts.number_covers.
      eapply Permutation_in;
        [apply Permutation_sym, DrillFacts.sorted_perm |].
      unfold Tools.allToolDiam. apply in_flat_map.
      exists xdiam. split; [exact Hj |].
      apply filter_In. split.
      * apply in_map_iff. exists (tool, diam). auto.
      * now rewrite E.
  - intros Hd. unfold Tools.number_tools.
    rewrite ToolsFacts.number_increasing.
    + reflexivity.
    + now apply DrillFacts.sorted_increasing.
    + constructor.
Qed.
